(** * Log monitor: incremental scan, checkpoints and fault isolation

    A shallow embedding of [src/log_monitor.py] (class [LogMonitor]) and the
    properties of its scanner, matcher, dispatcher and orchestrator.

    Conventions of the embedding
    - a Python [str] is the list of its code points ([N]); literals are
      written with [py "..."]; a log line is text decoded by the HTTP
      library, without lone surrogates, so encoding it to UTF-8 cannot fail;
    - the collaborators (token endpoint, deployment listing, log download,
      SMTP server) are oracles gathered in a record [env], one per cycle;
    - the effects of the program (requests, prints, mail sessions,
      checkpoint files) are threaded through a [world]: the checkpoint
      directory as a finite map from file name to content, and the ordered
      trace of everything the process did;
    - Python exceptions are values of [raised]; functions that can raise
      return an [outcome]. *)

From Stdlib Require Import NArith Ascii String.
From stdpp Require Import gmap list.

Local Open Scope N_scope.

(** ** Python text *)

Abbreviation str := (list N).

(** [py s]: the text of an ASCII literal. *)
Definition py (s : string) : str :=
  List.map N_of_ascii (list_ascii_of_string s).

Module PyStr.

(** Whitespace as [str.split()] and [str.strip()] see it (the code points
    for which CPython's [Py_UNICODE_ISSPACE] holds). *)
Definition is_space (c : N) : bool :=
  ((9 <=? c) && (c <=? 13)) || ((28 <=? c) && (c <=? 32))
  || (c =? 0x85) || (c =? 0xA0) || (c =? 0x1680)
  || ((0x2000 <=? c) && (c <=? 0x200A))
  || (c =? 0x2028) || (c =? 0x2029) || (c =? 0x202F) || (c =? 0x205F)
  || (c =? 0x3000).

Definition SP : N := 32.

(** [bool(s)] for a string. *)
Definition truthy (s : str) : bool :=
  match s with [] => false | _ :: _ => true end.

(** [s.startswith(p)] *)
Fixpoint startswith (p s : str) : bool :=
  match p, s with
  | [], _ => true
  | _ :: _, [] => false
  | a :: p', b :: s' => (a =? b) && startswith p' s'
  end.

(** [sub in s] *)
Fixpoint contains (sub s : str) : bool :=
  startswith sub s ||
  match s with
  | [] => false
  | _ :: s' => contains sub s'
  end.

(** [s.split(sep, 1)[0]]: the text before the first occurrence of [sep], or
    all of [s] when [sep] does not occur. *)
Fixpoint before_first (sep s : str) : str :=
  if startswith sep s then []
  else match s with
       | [] => []
       | c :: s' => c :: before_first sep s'
       end.

(** [s.split()]: the maximal runs of non-whitespace, in order. [cur] is the
    run being read. *)
Fixpoint split_from (cur s : str) : list str :=
  match s with
  | [] => match cur with [] => [] | _ :: _ => [cur] end
  | c :: s' =>
      if is_space c then
        match cur with
        | [] => split_from [] s'
        | _ :: _ => cur :: split_from [] s'
        end
      else split_from (cur ++ [c]) s'
  end.

Definition split (s : str) : list str := split_from [] s.

(** [sep.join(ws)] *)
Fixpoint join (sep : str) (ws : list str) : str :=
  match ws with
  | [] => []
  | [w] => w
  | w :: ws' => w ++ sep ++ join sep ws'
  end.

Fixpoint lstrip (s : str) : str :=
  match s with
  | [] => []
  | c :: s' => if is_space c then lstrip s' else s
  end.

Fixpoint rstrip (s : str) : str :=
  match s with
  | [] => []
  | c :: s' =>
      match rstrip s' with
      | [] => if is_space c then [] else [c]
      | r => c :: r
      end
  end.

(** [s.strip()] *)
Definition strip (s : str) : str := rstrip (lstrip s).

(** [a < b] on strings: code point by code point, a proper prefix first. *)
Fixpoint lt (a b : str) : bool :=
  match a, b with
  | _, [] => false
  | [], _ :: _ => true
  | x :: a', y :: b' => (x <? y) || ((x =? y) && lt a' b')
  end.

(** [a > b] *)
Definition gt (a b : str) : bool := lt b a.

Definition le (a b : str) : bool := negb (lt b a).

(** [max] of a list of strings under [<], [None] for the empty list. *)
Fixpoint maximum (l : list str) : option str :=
  match l with
  | [] => None
  | x :: l' =>
      match maximum l' with
      | None => Some x
      | Some m => Some (if lt x m then m else x)
      end
  end.

End PyStr.

(** ** The words of the specification, for the matcher

    "collapse every run of whitespace to a single space, trim
    leading/trailing whitespace", and "is a contiguous substring of". *)
Module SpecWords.

Definition starts_with_space (s : str) : bool :=
  match s with
  | [] => false
  | c :: _ => PyStr.is_space c
  end.

(** Every maximal run of whitespace becomes one space. *)
Fixpoint collapse (s : str) : str :=
  match s with
  | [] => []
  | c :: s' =>
      if PyStr.is_space c then
        if starts_with_space s' then collapse s' else PyStr.SP :: collapse s'
      else c :: collapse s'
  end.

Definition normalize (text : str) : str := PyStr.strip (collapse text).

Definition substring (sub s : str) : Prop :=
  ∃ pre post : str, s = pre ++ sub ++ post.

(** The lexicographic order on strings, as a relation. *)
Inductive lex_lt : str → str → Prop :=
| lex_nil y b : lex_lt [] (y :: b)
| lex_head x y a b : (x < y)%N → lex_lt (x :: a) (y :: b)
| lex_tail x a b : lex_lt a b → lex_lt (x :: a) (x :: b).

End SpecWords.

(** ** Exceptions, effects and the monad of the program *)

(** The subclasses of [Exception] that the collaborators raise. A
    [requests.RequestException] carries [e.response]: the status of the
    answer, or [None] when no answer was received. *)
Inductive exception :=
| RequestException (response : option N)
| OtherException.

(** What a call can raise: an [Exception], or the [SystemExit] of
    [sys.exit(code)], which is a [BaseException] and not an [Exception]. *)
Inductive raised :=
| Exc (e : exception)
| SystemExit (code : N).

Inductive outcome (A : Type) :=
| Ret (a : A)
| Raise (e : raised).
Arguments Ret {A} a.
Arguments Raise {A} e.

Inductive ControlPlane := US | EU | GOV.

Definition ControlPlane_value (c : ControlPlane) : str :=
  match c with
  | US => py "us"
  | EU => py "eu1"
  | GOV => py "gov"
  end.

Record SearchPattern := {
  type : str;
  search_string : str;
  mail : list str;
  app_name : str
}.

Record MulesoftConfig := {
  org_id : str;
  env_id : str;
  control_plane : ControlPlane
}.

(** The fields of [LogMonitor] that the cycle reads. *)
Record LogMonitor := {
  verbose_logging : bool;
  mulesoft_config : MulesoftConfig;
  search_patterns : list SearchPattern
}.

(** One mail session of [send_email]: a message for one recipient. *)
Record notification := {
  n_to : str;
  n_subject : str;
  n_body : str
}.

(** The lines written by [print]. Request details written by
    [_verbose_log] and tracebacks are left out, except the per-line error
    report of the scanner. *)
Inductive message :=
| MsgEmailSent (recipient : str)
| MsgEmailError
| MsgAuthError
| MsgResponseStatus (status : N)
| MsgDiscoveryError (app : str)
| MsgNoInstances (app : str)
| MsgWorker (instance : str) (from : option str) (matched : bool)
| MsgRequestError (app : str)
| MsgMatchFound (ty line : str)
| MsgLineError (line_number : nat)
| MsgPattern (index total : nat) (app : str) (workers : nat)
| MsgCheckCompleted (found : bool)
| MsgCheckError
| MsgStarted
| MsgStopping
| MsgMainLoopError
| MsgFatal.

Inductive event :=
| Print (m : message)
| HttpAuth
| HttpDeployments (app : str)
| HttpLog (app instance : str)
| Smtp (n : notification) (delivered : bool)
| ReadCheckpoint (file : str)
| SaveCheckpoint (file value : str).

(** The [last_check/] directory and everything the process has done. *)
Record world := {
  last_check : gmap str str;
  trace : list event
}.

Definition M (A : Type) : Type := world → outcome A * world.

Definition ret {A} (a : A) : M A := λ w, (Ret a, w).

Definition bind {A B} (m : M A) (k : A → M B) : M B :=
  λ w, match m w with
       | (Ret a, w') => k a w'
       | (Raise e, w') => (Raise e, w')
       end.

Definition raise {A} (e : raised) : M A := λ w, (Raise e, w).

Definition emit (e : event) : M unit :=
  λ w, (Ret tt, {| last_check := last_check w; trace := trace w ++ [e] |}).

Definition print (m : message) : M unit := emit (Print m).

(** [try: m / except Exception as e: h e]; a [SystemExit] passes through. *)
Definition try_except {A} (m : M A) (h : exception → M A) : M A :=
  λ w, match m w with
       | (Raise (Exc e), w') => h e w'
       | r => r
       end.

(** [try: m / except requests.RequestException as e: h e.response] *)
Definition try_except_request {A} (m : M A) (h : option N → M A) : M A :=
  λ w, match m w with
       | (Raise (Exc (RequestException r)), w') => h r w'
       | r => r
       end.

Notation "'let*' x ':=' m 'in' k" := (bind m (λ x, k))
  (at level 10, x name, m at level 100, k at level 200,
   format "'[v' 'let*'  x  ':='  m  'in'  '/' k ']'").
Notation "m ;;; k" := (bind m (λ _, k))
  (at level 100, right associativity,
   format "'[v' m  ;;;  '/' k ']'").

(** ** The collaborators of one cycle *)

(** The answer of the token endpoint to [get_auth_token]. *)
Inductive auth_reply :=
| AuthToken (token : str)
| AuthRequestError (response : option N)
| AuthOtherError.

(** The answer to the deployment listing: [data['data']], each deployment
    with the [instanceId] of its instances ([None] when the key is absent),
    or the exception raised by the request or by decoding its answer. *)
Inductive deployments_reply :=
| Deployments (data : list (list (option str)))
| DeploymentsError (e : exception).

(** The log download: the request raises, or [iter_lines] yields [lines] and
    then ends ([None]) or raises ([Some e]). *)
Inductive log_reply :=
| LogError (e : exception)
| LogStream (lines : list str) (fault : option exception).

(** Where an exception is raised inside the per-line [try] of
    [_process_log_stream]: in the call of [_extract_date], or in the call of
    [_check_pattern] before any mail is attempted. *)
Inductive line_fault := NoFault | ExtractFault | CheckFault.

#[global] Instance line_fault_eq_dec : EqDecision line_fault.
Proof. solve_decision. Defined.

Record env := {
  auth : auth_reply;
  deployments : str → deployments_reply;
  log : str → str → log_reply;
  smtp : notification → option exception;
  line_faults : str → str → nat → line_fault
}.

(** ** The program *)

Definition NL : str := [10].
Definition INFO : str := py "INFO".

Definition _verbose_log (self : LogMonitor) (m : message) : M unit :=
  if verbose_logging self then print m else ret tt.

(** The sessions of [send_email], inside its [try]. *)
Fixpoint send_each (E : env) (recipients : list str) (subject body : str)
  : M unit :=
  match recipients with
  | [] => ret tt
  | recipient :: rest =>
      let msg := {| n_to := recipient; n_subject := subject; n_body := body |} in
      match smtp E msg with
      | Some e => emit (Smtp msg false) ;;; raise (Exc e)
      | None =>
          emit (Smtp msg true) ;;;
          print (MsgEmailSent recipient) ;;;
          send_each E rest subject body
      end
  end.

Definition send_email (E : env) (recipients : list str) (subject body : str)
  : M unit :=
  try_except (send_each E recipients subject body)
             (λ _, print MsgEmailError).

Definition get_auth_token (E : env) : M str :=
  emit HttpAuth ;;;
  match auth E with
  | AuthToken token => ret token
  | AuthRequestError response =>
      print MsgAuthError ;;;
      match response with
      | Some status => print (MsgResponseStatus status) ;;; raise (SystemExit 1)
      | None => raise (Exc OtherException)
      end
  | AuthOtherError => raise (Exc OtherException)
  end.

Definition instance_id_of (instance : option str) : option str :=
  match instance with
  | Some instance_id => if PyStr.truthy instance_id then Some instance_id else None
  | None => None
  end.

Definition get_instance_ids (E : env) (app : str) : M (list str) :=
  emit (HttpDeployments app) ;;;
  match deployments E app with
  | Deployments data =>
      match last data with
      | Some last_deployment => ret (omap instance_id_of last_deployment)
      | None => print (MsgDiscoveryError app) ;;; ret []
      end
  | DeploymentsError _ => print (MsgDiscoveryError app) ;;; ret []
  end.

Definition checkpoint_file (app instance_id : str) : str :=
  py "last_check/" ++ app ++ py "_" ++ instance_id ++ py ".txt".

Definition _get_last_check_date (app instance_id : str) : M (option str) :=
  λ w, (Ret (PyStr.strip <$> last_check w !! checkpoint_file app instance_id),
        {| last_check := last_check w;
           trace := trace w ++ [ReadCheckpoint (checkpoint_file app instance_id)] |}).

Definition _save_last_check_date (app instance_id last_date : str) : M unit :=
  λ w, (Ret tt,
        {| last_check := <[checkpoint_file app instance_id := last_date]> (last_check w);
           trace := trace w ++ [SaveCheckpoint (checkpoint_file app instance_id) last_date] |}).

Definition _extract_date (line : str) : option str :=
  let part0 := PyStr.before_first INFO line in
  if (1 <=? length (PyStr.split (PyStr.strip part0)))%nat
  then Some (PyStr.strip part0)
  else None.

Definition py_opt (o : option str) : str :=
  match o with Some s => s | None => py "None" end.

Definition alert_subject (pattern : SearchPattern) : str :=
  py "Log Alert: " ++ type pattern ++ py " - " ++ app_name pattern.

Definition alert_body (self : LogMonitor) (pattern : SearchPattern)
  (line : str) (current_date : option str) (instance_id : str) : str :=
  NL ++ py "Alert Details:" ++ NL
  ++ py "Application: " ++ app_name pattern ++ NL
  ++ py "Worker: " ++ instance_id ++ NL
  ++ py "Control Plane: "
  ++ ControlPlane_value (control_plane (mulesoft_config self)) ++ NL
  ++ py "Environment: " ++ env_id (mulesoft_config self) ++ NL
  ++ py "Type: " ++ type pattern ++ NL
  ++ py "Pattern: " ++ search_string pattern ++ NL
  ++ NL ++ py "Log Entry:" ++ NL
  ++ line ++ NL
  ++ NL ++ py "Time: " ++ py_opt current_date ++ NL.

Definition _handle_pattern_match (self : LogMonitor) (E : env)
  (pattern : SearchPattern) (line : str) (line_number : nat)
  (current_date : option str) (instance_id : str) : M unit :=
  print (MsgMatchFound (type pattern) line) ;;;
  send_email E (mail pattern) (alert_subject pattern)
             (alert_body self pattern line current_date instance_id).

(** [' '.join(text.split())] *)
Definition normalized (text : str) : str :=
  PyStr.join [PyStr.SP] (PyStr.split text).

(** The test of [_check_pattern]. *)
Definition matches (line : str) (pattern : SearchPattern) : bool :=
  PyStr.contains (normalized (search_string pattern)) (normalized line).

Definition _check_pattern (self : LogMonitor) (E : env) (line : str)
  (line_number : nat) (current_date : option str) (pattern : SearchPattern)
  (instance_id : str) : M bool :=
  if matches line pattern then
    _handle_pattern_match self E pattern line line_number current_date instance_id ;;;
    ret true
  else ret false.

(** The local variables of [_process_log_stream]. *)
Record locals := {
  total_size : N;
  total_lines : nat;
  last_date : option str;
  start_checking : bool;
  pattern_found : bool
}.

Definition initial (last_check_date : option str) : locals :=
  {| total_size := 0; total_lines := 0; last_date := None;
     start_checking := match last_check_date with None => true | Some _ => false end;
     pattern_found := false |}.

Definition set_last_date (d : str) (st : locals) : locals :=
  {| total_size := total_size st; total_lines := total_lines st;
     last_date := Some d; start_checking := start_checking st;
     pattern_found := pattern_found st |}.

Definition set_start_checking (st : locals) : locals :=
  {| total_size := total_size st; total_lines := total_lines st;
     last_date := last_date st; start_checking := true;
     pattern_found := pattern_found st |}.

Definition set_pattern_found (st : locals) : locals :=
  {| total_size := total_size st; total_lines := total_lines st;
     last_date := last_date st; start_checking := start_checking st;
     pattern_found := true |}.

(** [len(c.encode('utf-8'))] for one code point of decoded text. *)
Definition utf8_len (c : N) : N :=
  if c <? 0x80 then 1 else if c <? 0x800 then 2 else if c <? 0x10000 then 3 else 4.

Definition count_line (line_number : nat) (line : str) (st : locals) : locals :=
  {| total_size := total_size st + foldr (λ c n, utf8_len c + n) 0 line;
     total_lines := line_number;
     last_date := last_date st; start_checking := start_checking st;
     pattern_found := pattern_found st |}.

(** The first statement of the per-line [try] (the [if "INFO" in line]
    block): the locals after it, and whether it raised. Assignments made
    before an exception stand. Comparing a string with [None] raises
    [TypeError]. *)
Definition timestamp_step (fault : line_fault) (last_check_date : option str)
  (line : str) (st : locals) : locals * bool :=
  if PyStr.contains INFO line then
    match fault with
    | ExtractFault => (st, true)
    | _ =>
        match _extract_date line with
        | Some current_date =>
            if PyStr.truthy current_date then
              let st1 := set_last_date current_date st in
              if negb (start_checking st1) then
                match last_check_date with
                | Some c =>
                    if PyStr.gt current_date c
                    then (set_start_checking st1, false)
                    else (st1, false)
                | None => (st1, true)
                end
              else (st1, false)
            else (st, false)
        | None => (st, false)
        end
    end
  else (st, false).

(** One iteration of the loop of [_process_log_stream]. *)
Definition scan_line (self : LogMonitor) (E : env)
  (last_check_date : option str) (pattern : SearchPattern) (instance_id : str)
  (line_number : nat) (line : str) (st : locals) : M locals :=
  if negb (PyStr.truthy line) then ret st
  else
    let st0 := count_line line_number line st in
    let fault := line_faults E (app_name pattern) instance_id line_number in
    match timestamp_step fault last_check_date line st0 with
    | (st1, true) => _verbose_log self (MsgLineError line_number) ;;; ret st1
    | (st1, false) =>
        if start_checking st1 then
          match fault with
          | CheckFault => _verbose_log self (MsgLineError line_number) ;;; ret st1
          | _ =>
              let* m := _check_pattern self E line line_number (last_date st1)
                                       pattern instance_id in
              ret (if m then set_pattern_found st1 else st1)
          end
        else ret st1
    end.

Fixpoint scan_lines (self : LogMonitor) (E : env)
  (last_check_date : option str) (pattern : SearchPattern) (instance_id : str)
  (line_number : nat) (lines : list str) (st : locals) : M locals :=
  match lines with
  | [] => ret st
  | line :: rest =>
      let* st' := scan_line self E last_check_date pattern instance_id
                            line_number line st in
      scan_lines self E last_check_date pattern instance_id (S line_number) rest st'
  end.

Definition _process_log_stream (self : LogMonitor) (E : env)
  (lines : list str) (fault : option exception)
  (last_check_date : option str) (pattern : SearchPattern) (instance_id : str)
  : M bool :=
  let* st := scan_lines self E last_check_date pattern instance_id 1 lines
                        (initial last_check_date) in
  match fault with
  | Some e => raise (Exc e)
  | None =>
      match last_date st with
      | Some d =>
          if PyStr.truthy d
          then _save_last_check_date (app_name pattern) instance_id d
          else ret tt
      | None => ret tt
      end ;;;
      ret (pattern_found st)
  end.

(** The body of the instance loop of [analyze_file]. *)
Definition scan_instance (self : LogMonitor) (E : env)
  (pattern : SearchPattern) (instance_id : str) : M bool :=
  let* last_check_date := _get_last_check_date (app_name pattern) instance_id in
  emit (HttpLog (app_name pattern) instance_id) ;;;
  match log E (app_name pattern) instance_id with
  | LogError e => raise (Exc e)
  | LogStream lines fault =>
      let* worker_match := _process_log_stream self E lines fault last_check_date
                                               pattern instance_id in
      print (MsgWorker instance_id last_check_date worker_match) ;;;
      ret worker_match
  end.

Fixpoint scan_instances (self : LogMonitor) (E : env)
  (pattern : SearchPattern) (instance_ids : list str) (found_matches : bool)
  : M bool :=
  match instance_ids with
  | [] => ret found_matches
  | instance_id :: rest =>
      let* worker_match := scan_instance self E pattern instance_id in
      scan_instances self E pattern rest
                     (if worker_match then true else found_matches)
  end.

(** The handler of [analyze_file]: in verbose mode it reads
    [e.response.status_code], which raises [AttributeError] when
    [e.response] is [None]. *)
Definition request_error (self : LogMonitor) (pattern : SearchPattern)
  (response : option N) : M bool :=
  print (MsgRequestError (app_name pattern)) ;;;
  if verbose_logging self then
    match response with
    | Some status => print (MsgResponseStatus status) ;;; ret false
    | None => raise (Exc OtherException)
    end
  else ret false.

Definition analyze_file (self : LogMonitor) (E : env) (auth_token : str)
  (pattern : SearchPattern) : M bool :=
  try_except_request
    (let* instance_ids := get_instance_ids E (app_name pattern) in
     match instance_ids with
     | [] => print (MsgNoInstances (app_name pattern)) ;;; ret false
     | _ :: _ => scan_instances self E pattern instance_ids false
     end)
    (request_error self pattern).

(** The loop of [check_files] over [enumerate(self.search_patterns, 1)]. *)
Fixpoint check_patterns (self : LogMonitor) (E : env) (auth_token : str)
  (total_patterns index : nat) (patterns : list SearchPattern)
  (found_matches : bool) : M bool :=
  match patterns with
  | [] => ret found_matches
  | pattern :: rest =>
      let* workers := get_instance_ids E (app_name pattern) in
      print (MsgPattern index total_patterns (app_name pattern) (length workers)) ;;;
      let* m := analyze_file self E auth_token pattern in
      check_patterns self E auth_token total_patterns (S index) rest
                     (if m then true else found_matches)
  end.

Definition check_files (self : LogMonitor) (E : env) : M unit :=
  try_except
    (let* auth_token := get_auth_token E in
     let* found_matches :=
       check_patterns self E auth_token (length (search_patterns self)) 1
                      (search_patterns self) false in
     print (MsgCheckCompleted found_matches))
    (λ _, print MsgCheckError).

(** What the scheduler loop of [run] meets: the job is due and runs in the
    given environment, or the user interrupts the process. *)
Inductive tick :=
| Trigger (E : env)
| Interrupt.

(** The [while True] loop of [run] over the ticks met so far: [true] when
    the loop was left by [break], [false] when it is still going. *)
Fixpoint main_loop (self : LogMonitor) (ticks : list tick) : M bool :=
  match ticks with
  | [] => ret false
  | Interrupt :: _ => print MsgStopping ;;; ret true
  | Trigger E :: rest =>
      try_except (check_files self E) (λ _, print MsgMainLoopError) ;;;
      main_loop self rest
  end.

Definition run (self : LogMonitor) (first : env) (ticks : list tick) : M bool :=
  print MsgStarted ;;;
  check_files self first ;;;
  main_loop self ticks.

(** The state of the process after [main] met the given ticks. *)
Inductive process :=
| Running
| Returned
| Exited (code : N).

Definition main (self : LogMonitor) (first : env) (ticks : list tick)
  (w : world) : process * world :=
  match try_except (run self first ticks)
                   (λ _, print MsgFatal ;;; raise (SystemExit 1)) w with
  | (Ret false, w') => (Running, w')
  | (Ret true, w') => (Returned, w')
  | (Raise (SystemExit code), w') => (Exited code, w')
  | (Raise (Exc _), w') => (Exited 1, w')
  end.

(** ** Observations on runs

    Definitions used to state the properties: projections of the trace,
    and the pure content of the scanner loop. *)

Definition add_events (w : world) (evs : list event) : world :=
  {| last_check := last_check w; trace := trace w ++ evs |}.

Definition nothing_done : world := {| last_check := ∅; trace := [] |}.

(** [m] leaves the checkpoints alone, and its result and events do not
    depend on the world it starts from. *)
Definition framed {A} (m : M A) : Prop :=
  ∀ w, m w = (fst (m nothing_done),
              add_events w (trace (snd (m nothing_done)))).

(** The events that make a match visible: the report of the match and the
    mail sessions. *)
Definition is_alert (e : event) : bool :=
  match e with
  | Print (MsgMatchFound _ _) => true
  | Smtp _ _ => true
  | _ => false
  end.

Definition alerts (evs : list event) : list event := List.filter is_alert evs.

(** The recipients for which a mail session was opened, with its result. *)
Definition mail_attempts (evs : list event) : list (str * bool) :=
  omap (λ e, match e with
             | Smtp n delivered => Some (n_to n, delivered)
             | _ => None
             end) evs.

(** The lines reported as matches, in order. *)
Definition matched_lines (evs : list event) : list str :=
  omap (λ e, match e with
             | Print (MsgMatchFound _ line) => Some line
             | _ => None
             end) evs.

(** Log downloads and checkpoint accesses. *)
Definition is_stream_or_checkpoint (e : event) : bool :=
  match e with
  | HttpLog _ _ => true
  | ReadCheckpoint _ => true
  | SaveCheckpoint _ _ => true
  | _ => false
  end.

Definition is_save (e : event) : bool :=
  match e with
  | SaveCheckpoint _ _ => true
  | _ => false
  end.

(** The instances whose log was requested. *)
Definition downloads (evs : list event) : list str :=
  omap (λ e, match e with
             | HttpLog _ instance_id => Some instance_id
             | _ => None
             end) evs.

(** The timestamp a line contributes to [last_date], if any. *)
Definition line_timestamp (fault : line_fault) (line : str) : option str :=
  if PyStr.truthy line && PyStr.contains INFO line then
    match fault with
    | ExtractFault => None
    | _ => _extract_date line
    end
  else None.

(** The timestamps recorded by a scan, in stream order. *)
Fixpoint timestamps (faults : nat → line_fault) (line_number : nat)
  (lines : list str) : list str :=
  match lines with
  | [] => []
  | line :: rest =>
      match line_timestamp (faults line_number) line with
      | Some d => d :: timestamps faults (S line_number) rest
      | None => timestamps faults (S line_number) rest
      end
  end.

(** The locals after one iteration of the scanner loop. *)
Definition line_locals (fault : line_fault) (last_check_date : option str)
  (pattern : SearchPattern) (line_number : nat) (line : str) (st : locals)
  : locals :=
  if negb (PyStr.truthy line) then st
  else
    match timestamp_step fault last_check_date line (count_line line_number line st) with
    | (st1, true) => st1
    | (st1, false) =>
        if start_checking st1 then
          match fault with
          | CheckFault => st1
          | _ => if matches line pattern then set_pattern_found st1 else st1
          end
        else st1
    end.

Fixpoint lines_locals (faults : nat → line_fault) (last_check_date : option str)
  (pattern : SearchPattern) (line_number : nat) (lines : list str) (st : locals)
  : locals :=
  match lines with
  | [] => st
  | line :: rest =>
      lines_locals faults last_check_date pattern (S line_number) rest
        (line_locals (faults line_number) last_check_date pattern line_number line st)
  end.

(** The instance ids that discovery hands to the orchestrator. *)
Definition discovered (E : env) (app : str) : list str :=
  match fst (get_instance_ids E app nothing_done) with
  | Ret instance_ids => instance_ids
  | Raise _ => []
  end.

(** The events of the scanner and the dispatcher: prints and mail. *)
Definition is_local (e : event) : bool :=
  match e with
  | Print _ => true
  | Smtp _ _ => true
  | _ => false
  end.

(** [m] is framed and does nothing but print and send mail. *)
Definition quiet {A} (m : M A) : Prop :=
  framed m ∧ Forall (λ e, is_local e = true) (trace (snd (m nothing_done))).

(** The message of one mail session. *)
Definition message_for (recipient subject body : str) : notification :=
  {| n_to := recipient; n_subject := subject; n_body := body |}.

(** ** Environments of the examples *)

(** An SMTP server that refuses the first recipient only. *)
Definition refuses_a (n : notification) : option exception :=
  if bool_decide (n_to n = py "a@x.com") then Some OtherException else None.

Definition env_refusing_a : env :=
  {| auth := AuthOtherError;
     deployments := λ _, Deployments [];
     log := λ _ _, LogStream [] None;
     smtp := refuses_a;
     line_faults := λ _ _ _, NoFault |}.

(** The pattern, monitor and stream of the scenarios. *)
Definition orders_pattern : SearchPattern :=
  {| type := py "ERROR_X"; search_string := py "Connection refused";
     mail := [py "a@x.com"]; app_name := py "orders-api" |}.

Definition monitor : LogMonitor :=
  {| verbose_logging := false;
     mulesoft_config := {| org_id := py "org"; env_id := py "prod";
                           control_plane := US |};
     search_patterns := [orders_pattern] |}.

(** A cycle in which authentication and discovery succeed, every instance of
    the listing has the log given by [logs], every mail is delivered and
    the lines fault as [faults] says. *)
Definition env_with (instances : list str) (logs : str → log_reply)
  (faults : nat → line_fault) : env :=
  {| auth := AuthToken (py "token");
     deployments := λ _, Deployments [Some <$> instances];
     log := λ _ instance_id, logs instance_id;
     smtp := λ _, None;
     line_faults := λ _ _ n, faults n |}.

Definition no_fault : nat → line_fault := λ _, NoFault.

Definition worker : str := py "i-1".

(** A log whose second entry carries an older timestamp than its first. *)
Definition unordered_stream : list str :=
  [py "2024-01-02T10:00:00 INFO boot";
   py "2024-01-01T09:00:00 INFO late entry"].

Definition env_unordered : env :=
  env_with [worker] (λ _, LogStream unordered_stream None) no_fault.

Definition checkpointed (value : str) : world :=
  {| last_check := {[ checkpoint_file (py "orders-api") worker := value ]};
     trace := [] |}.

(** A log without any marker line: the application only logs errors. *)
Definition errors_only_stream : list str :=
  [py "2024-01-01T10:00:05 ERROR Connection refused"].

Definition env_errors_only : env :=
  env_with [worker] (λ _, LogStream errors_only_stream None) no_fault.

(** The stream of scenarios A and B. *)
Definition scenario_stream : list str :=
  [py "2024-01-01T10:00:00 INFO boot";
   py "2024-01-01T10:00:05 INFO Connection    refused to db"].

Definition env_scenario : env :=
  env_with [worker] (λ _, LogStream scenario_stream None) no_fault.

(** The given line faults at the given place, the others do not. *)
Definition fault_at (k : nat) (f : line_fault) : nat → line_fault :=
  λ n, if Nat.eqb n k then f else NoFault.

(** Two marker lines, the second of which matches the pattern. *)
Definition refused_stream : list str :=
  [py "2024-01-01T10:00:00 INFO boot";
   py "2024-01-01T10:00:09 INFO Connection refused"].

(** Its second line faults inside the matcher. *)
Definition env_refused_faulted : env :=
  env_with [worker] (λ _, LogStream refused_stream None) (fault_at 2 CheckFault).

(** The same log cut before that line. *)
Definition env_refused_cut : env :=
  env_with [worker] (λ _, LogStream (take 1 refused_stream) None) no_fault.

(** Ten marker lines that all match the pattern. *)
Definition entry (k : N) : str :=
  py "2024-01-01T10:00:0" ++ [48 + k] ++ py " INFO Connection refused".

Definition ten_lines : list str :=
  entry <$> [0; 1; 2; 3; 4; 5; 6; 7; 8; 9].

Definition env_ten_lines (f : line_fault) : env :=
  env_with [worker] (λ _, LogStream ten_lines None) (fault_at 5 f).

(** The token endpoint answers 401. *)
Definition env_auth_rejected : env :=
  {| auth := AuthRequestError (Some 401);
     deployments := deployments env_scenario;
     log := log env_scenario;
     smtp := smtp env_scenario;
     line_faults := line_faults env_scenario |}.

(** The token request gets no answer. *)
Definition env_auth_unanswered : env :=
  {| auth := AuthRequestError None;
     deployments := deployments env_scenario;
     log := log env_scenario;
     smtp := smtp env_scenario;
     line_faults := line_faults env_scenario |}.

(** Two instances: the download of the first breaks after its two lines,
    the log of the second holds a matching line. *)
Definition second_worker : str := py "i-2".

Definition env_first_stream_breaks : env :=
  env_with [worker; second_worker]
    (λ i, if bool_decide (i = worker)
          then LogStream scenario_stream (Some (RequestException None))
          else LogStream errors_only_stream None)
    no_fault.

(** ** Configuration and addresses

    The parts of [__init__], [_validate_config] and of the URL properties
    that do not touch the cycle. *)

(** How start-up ends: the monitor is built, or [sys.exit(message)]. *)
Inductive startup (A : Type) :=
| Started (a : A)
| ExitWith (message : str).
Arguments Started {A} a.
Arguments ExitWith {A} message.

(** [os.getenv(var)] over the variables of the process. *)
Definition getenv (environ : gmap str str) (var : str) : option str :=
  environ !! var.

(** [bool(os.getenv(var))] *)
Definition getenv_truthy (environ : gmap str str) (var : str) : bool :=
  match getenv environ var with
  | Some v => PyStr.truthy v
  | None => false
  end.

Definition required_vars : list str :=
  [py "MULESOFT_CLIENT_ID"; py "MULESOFT_CLIENT_SECRET"; py "MULESOFT_ORG_ID";
   py "MULESOFT_ENV_ID"; py "SMTP_HOST"; py "SMTP_USERNAME"; py "SMTP_PASSWORD";
   py "SMTP_SENDER"].

Definition _validate_config (environ : gmap str str) : startup unit :=
  let missing :=
    List.filter (λ var, negb (getenv_truthy environ var)) required_vars in
  match missing with
  | [] => Started tt
  | _ :: _ =>
      ExitWith (py "Missing required environment variables: "
                ++ PyStr.join (py ", ") missing)
  end.

(** [ControlPlane(control_plane_str)] with the fallback of [__init__]: the
    member whose value is the given string, [US] when there is none. *)
Definition control_plane_of (control_plane_str : str) : ControlPlane :=
  if bool_decide (control_plane_str = py "us") then US
  else if bool_decide (control_plane_str = py "eu1") then EU
  else if bool_decide (control_plane_str = py "gov") then GOV
  else US.

(** [ControlPlane.base_url] *)
Definition ControlPlane_base_url (c : ControlPlane) : str :=
  match c with
  | US => py "https://anypoint.mulesoft.com"
  | EU => py "https://eu1.anypoint.mulesoft.com"
  | GOV => py "https://gov.anypoint.mulesoft.com"
  end.

(** [MulesoftConfig.base_url] *)
Definition base_url (c : MulesoftConfig) : str :=
  ControlPlane_base_url (control_plane c) ++ py "/cloudhub/api/v2".

(** [MulesoftConfig.auth_url] *)
Definition auth_url (c : MulesoftConfig) : str :=
  ControlPlane_base_url (control_plane c) ++ py "/accounts/api/v2/oauth2/token".

Definition get_log_url (self : LogMonitor) (app instance_id : str) : str :=
  base_url (mulesoft_config self) ++ py "/organizations/"
  ++ org_id (mulesoft_config self)
  ++ py "/environments/" ++ env_id (mulesoft_config self)
  ++ py "/applications/" ++ app
  ++ py "/instances/" ++ instance_id ++ py "/log-file".

(** A run of non-whitespace: what [str.split()] returns. *)
Definition is_word (w : str) : Prop :=
  w ≠ [] ∧ Forall (λ c, PyStr.is_space c = false) w.

(** Every run of [m] takes the checkpoint directory to one related to it
    by [R]. *)
Definition store_step {A : Type} (R : relation (gmap str str)) (m : M A)
  : Prop :=
  ∀ w, R (last_check w) (last_check (snd (m w))).

(** The checkpoint file [f] is the same in both directories. *)
Definition same_file (f : str) : relation (gmap str str) :=
  λ s s', s' !! f = s !! f.

(** No checkpoint file of the first directory is missing in the second. *)
Definition no_file_lost : relation (gmap str str) :=
  λ s s', ∀ f, is_Some (s !! f) → is_Some (s' !! f).

(** Every run of [m] adds to the trace only events that satisfy [P]. *)
Definition emits {A : Type} (P : event → Prop) (m : M A) : Prop :=
  ∀ w, ∃ evs, trace (snd (m w)) = trace w ++ evs ∧ Forall P evs.

(** The events that belong to the scan of one instance for a pattern:
    prints, the download of that instance, accesses to its checkpoint file
    (a value written is a non-empty trimmed string), and mail to the
    recipients of the pattern under the subject of the pattern. *)
Definition instance_event (pattern : SearchPattern) (inst : str) (e : event)
  : Prop :=
  match e with
  | Print _ => True
  | HttpAuth => False
  | HttpDeployments _ => False
  | HttpLog app i => app = app_name pattern ∧ i = inst
  | Smtp n _ => n_to n ∈ mail pattern ∧ n_subject n = alert_subject pattern
  | ReadCheckpoint f => f = checkpoint_file (app_name pattern) inst
  | SaveCheckpoint f d =>
      f = checkpoint_file (app_name pattern) inst ∧ d ≠ [] ∧ PyStr.strip d = d
  end.

(** The events that belong to the scan of a pattern: prints, the listing of
    its application, and the events of its discovered instances. *)
Definition pattern_event (E : env) (pattern : SearchPattern) (e : event)
  : Prop :=
  match e with
  | Print _ => True
  | HttpAuth => False
  | HttpDeployments app => app = app_name pattern
  | _ => ∃ i, i ∈ discovered E (app_name pattern) ∧ instance_event pattern i e
  end.

(** The events of a cycle after its token request. *)
Definition cycle_event (self : LogMonitor) (E : env) (e : event) : Prop :=
  match e with
  | Print _ => True
  | HttpAuth => False
  | _ => ∃ p, p ∈ search_patterns self ∧ pattern_event E p e
  end.

(** The scheduler loop met an interrupt. *)
Definition interrupted (ticks : list tick) : bool :=
  existsb (λ t, match t with Interrupt => true | Trigger _ => false end) ticks.

(** The token request of the cycle is not answered with an error status. *)
Definition not_rejected (E : env) : Prop :=
  ∀ status, auth E ≠ AuthRequestError (Some status).

(** [m] returns or raises an [Exception]; it never exits the process. *)
Definition never_exits {A} (m : M A) : Prop :=
  ∀ w, match fst (m w) with
       | Raise (SystemExit _) => False
       | _ => True
       end.

(** ** Text: the primitives meet their descriptions *)

Section Text.
Import PyStr SpecWords.

#[local] Arguments is_space : simpl never.

Lemma startswith_app p t : startswith p (p ++ t) = true.
Proof.
  induction p as [|a p IH]; simpl; [done|].
  by rewrite N.eqb_refl.
Qed.

Lemma startswith_inv p s : startswith p s = true → ∃ t, s = p ++ t.
Proof.
  revert s; induction p as [|a p IH]; intros s H; simpl in *.
  - by exists s.
  - destruct s as [|b s]; [done|].
    apply andb_true_iff in H as [Hab Hp].
    apply N.eqb_eq in Hab as ->.
    destruct (IH _ Hp) as [t ->]. by exists t.
Qed.

Lemma contains_startswith sub s :
  startswith sub s = true → contains sub s = true.
Proof. destruct s; cbn [contains]; by intros ->. Qed.

Lemma contains_substring sub s : contains sub s = true ↔ substring sub s.
Proof.
  split.
  - induction s as [|c s IH]; simpl; intros H.
    + rewrite orb_false_r in H.
      destruct (startswith_inv _ _ H) as [t Ht].
      exists [], t. done.
    + apply orb_true_iff in H as [H|H].
      * destruct (startswith_inv _ _ H) as [t Ht]. exists [], t. done.
      * destruct (IH H) as (pre & post & ->). by exists (c :: pre), post.
  - intros (pre & post & ->).
    induction pre as [|c pre IH].
    + change ([] ++ sub ++ post) with (sub ++ post).
      apply contains_startswith, (startswith_app sub post).
    + change ((c :: pre) ++ sub ++ post) with (c :: (pre ++ sub ++ post)).
      cbn [contains]. rewrite IH. apply orb_true_r.
Qed.

Lemma lt_lex a b : lt a b = true ↔ lex_lt a b.
Proof.
  split.
  - revert b; induction a as [|x a IH]; intros [|y b] H; simpl in H; try done.
    + constructor.
    + apply orb_true_iff in H as [H|H].
      * apply N.ltb_lt in H. by apply lex_head.
      * apply andb_true_iff in H as [Hxy H].
        apply N.eqb_eq in Hxy as ->. apply lex_tail. by apply IH.
  - induction 1; simpl; [done | |].
    + apply orb_true_iff; left. by apply N.ltb_lt.
    + rewrite N.eqb_refl, IHlex_lt. apply orb_true_r.
Qed.

Lemma lt_irrefl a : lt a a = false.
Proof.
  induction a as [|x a IH]; simpl; [done|].
  by rewrite N.ltb_irrefl, N.eqb_refl, IH.
Qed.

Lemma lt_trans a b c : lt a b = true → lt b c = true → lt a c = true.
Proof.
  revert b c; induction a as [|x a IH]; intros [|y b] [|z c]; simpl; try done.
  intros H1 H2.
  apply orb_true_iff in H1. apply orb_true_iff in H2. apply orb_true_iff.
  destruct H1 as [H1|H1], H2 as [H2|H2].
  - left. apply N.ltb_lt in H1, H2. apply N.ltb_lt. lia.
  - apply andb_true_iff in H2 as [E _]. apply N.eqb_eq in E as <-. by left.
  - apply andb_true_iff in H1 as [E _]. apply N.eqb_eq in E as ->. by left.
  - apply andb_true_iff in H1 as [E1 H1]. apply andb_true_iff in H2 as [E2 H2].
    apply N.eqb_eq in E1 as ->. apply N.eqb_eq in E2 as ->.
    right. rewrite N.eqb_refl. simpl. by apply (IH b).
Qed.

Lemma lt_total a b : lt a b = false → lt b a = false → a = b.
Proof.
  revert b; induction a as [|x a IH]; intros [|y b]; simpl; try done.
  intros H1 H2.
  apply orb_false_iff in H1 as [L1 R1]. apply orb_false_iff in H2 as [L2 R2].
  apply N.ltb_ge in L1, L2.
  assert (x = y) as -> by lia.
  rewrite N.eqb_refl in R1. simpl in R1.
  f_equal. apply IH; [done|].
  rewrite N.eqb_refl in R2. done.
Qed.

Lemma le_refl a : le a a = true.
Proof. unfold le. by rewrite lt_irrefl. Qed.

Lemma le_trans a b c : le a b = true → le b c = true → le a c = true.
Proof.
  unfold le. rewrite !negb_true_iff. intros H1 H2.
  destruct (lt c a) eqn:Hca; [|done].
  destruct (lt b c) eqn:Hbc.
  - by rewrite (lt_trans _ _ _ Hbc Hca) in H1.
  - rewrite (lt_total _ _ Hbc H2) in H1. congruence.
Qed.

(** *** [split] and [join] against collapse-and-trim *)

Lemma rstrip_cons_nonspace c z :
  is_space c = false → rstrip (c :: z) = c :: rstrip z.
Proof. intros Hc. simpl. rewrite Hc. by destruct (rstrip z). Qed.

Lemma rstrip_cons_space c z :
  is_space c = true →
  rstrip (c :: z) = match rstrip z with [] => [] | r => c :: r end.
Proof. intros Hc. simpl. by rewrite Hc. Qed.

Lemma collapse_cons c s :
  collapse (c :: s) =
  if is_space c then
    if starts_with_space s then collapse s else SP :: collapse s
  else c :: collapse s.
Proof. done. Qed.

Lemma collapse_space c s :
  is_space c = true → collapse (c :: s) = SP :: collapse (lstrip s).
Proof.
  revert c; induction s as [|d s IH]; intros c Hc.
  - simpl. by rewrite Hc.
  - rewrite (collapse_cons c (d :: s)), Hc. cbn [starts_with_space lstrip].
    destruct (is_space d) eqn:Hd.
    + by apply IH.
    + done.
Qed.

Lemma lstrip_head s :
  lstrip s = [] ∨ ∃ d r, lstrip s = d :: r ∧ is_space d = false.
Proof.
  induction s as [|c s IH]; simpl; [by left|].
  destruct (is_space c) eqn:Hc; [done|]. right. by exists c, s.
Qed.

Lemma lstrip_collapse s : lstrip (collapse s) = collapse (lstrip s).
Proof.
  destruct s as [|c s]; [done|].
  destruct (is_space c) eqn:Hc.
  - rewrite collapse_space by done. cbn [lstrip]. rewrite Hc.
    change (is_space SP) with true. cbn iota.
    destruct (lstrip_head s) as [->|(d & r & -> & Hd)]; [done|].
    rewrite collapse_cons, Hd. cbn [lstrip]. by rewrite Hd.
  - cbn [lstrip]. rewrite Hc, collapse_cons, Hc. cbn [lstrip]. by rewrite Hc.
Qed.

Lemma split_from_nonempty s : ∀ cur, Forall (λ w, w ≠ []) (split_from cur s).
Proof.
  induction s as [|c s IH]; intros cur; simpl.
  - destruct cur; repeat constructor; done.
  - destruct (is_space c); [|apply IH].
    destruct cur; [apply IH|]. constructor; [done|apply IH].
Qed.

Lemma join_nil sep ws : Forall (λ w, w ≠ []) ws → join sep ws = [] → ws = [].
Proof.
  destruct ws as [|w ws]; [done|].
  intros Hne; apply Forall_cons in Hne as [Hw _].
  simpl. destruct ws; intros H; [done|].
  by destruct w.
Qed.

Lemma join_cons sep w ws :
  join sep (w :: ws) = w ++ match ws with [] => [] | _ => sep ++ join sep ws end.
Proof. destruct ws; simpl; [by rewrite app_nil_r|done]. Qed.

Lemma join_split_from s :
  (∀ cur, cur ≠ [] →
     join [SP] (split_from cur s) = cur ++ rstrip (collapse s))
  ∧ join [SP] (split_from [] s) = rstrip (collapse (lstrip s)).
Proof.
  induction s as [|c s [IH1 IH2]].
  - split; [|done]. intros [|x cur] Hcur; [done|]. simpl. by rewrite app_nil_r.
  - destruct (is_space c) eqn:Hc.
    + split.
      * intros [|x cur] Hcur; [done|].
        cbn [split_from]. rewrite Hc, join_cons.
        rewrite collapse_space by done.
        rewrite rstrip_cons_space by done.
        rewrite <- IH2.
        pose proof (split_from_nonempty s []) as Hne.
        destruct (split_from [] s) as [|w ws] eqn:Hs; [done|].
        destruct (join [SP] (w :: ws)) eqn:Hj; [|done].
        by apply join_nil in Hj.
      * cbn [split_from lstrip]. by rewrite Hc.
    + split.
      * intros cur Hcur. cbn [split_from]. rewrite collapse_cons, Hc.
        rewrite IH1 by (by destruct cur).
        rewrite rstrip_cons_nonspace by done.
        by rewrite <- app_assoc.
      * cbn [split_from lstrip app]. rewrite Hc, collapse_cons, Hc.
        rewrite (IH1 [c]) by done.
        by rewrite rstrip_cons_nonspace.
Qed.

(** [' '.join(text.split())] is the normalisation the specification
    describes. *)
Lemma normalized_normalize text : normalized text = normalize text.
Proof.
  unfold normalized, split, normalize, strip.
  rewrite lstrip_collapse. apply join_split_from.
Qed.

End Text.

(** ** Framing: results and events do not depend on the starting world *)

Section Framing.

Lemma add_events_nil w : add_events w [] = w.
Proof. destruct w. unfold add_events. simpl. by rewrite app_nil_r. Qed.

Lemma add_events_app w a b :
  add_events (add_events w a) b = add_events w (a ++ b).
Proof. unfold add_events. simpl. by rewrite app_assoc. Qed.

Lemma framed_ret {A} (a : A) : framed (ret a).
Proof. intros w. unfold ret. simpl. by rewrite add_events_nil. Qed.

Lemma framed_raise {A} e : framed (@raise A e).
Proof. intros w. unfold raise. simpl. by rewrite add_events_nil. Qed.

Lemma framed_emit e : framed (emit e).
Proof. intros w. done. Qed.

Lemma framed_print m : framed (print m).
Proof. apply framed_emit. Qed.

Lemma framed_start {A} (m : M A) :
  framed m → ∃ r t, m nothing_done = (r, {| last_check := ∅; trace := t |})
                    ∧ ∀ w, m w = (r, add_events w t).
Proof.
  intros Hm. pose proof (Hm nothing_done) as H0.
  destruct (m nothing_done) as [r [s0 t0]] eqn:E0. simpl in H0.
  exists r, t0. split.
  - by inversion H0.
  - intros w. rewrite (Hm w), E0. done.
Qed.

Lemma framed_bind {A B} (m : M A) (k : A → M B) :
  framed m → (∀ a, framed (k a)) → framed (bind m k).
Proof.
  intros Hm Hk w. unfold bind.
  destruct (framed_start m Hm) as (r & t & E0 & Hw).
  rewrite (Hw w), E0. destruct r as [a|e]; [|done].
  destruct (framed_start (k a) (Hk a)) as (r' & t' & E1 & Hw').
  rewrite (Hw' (add_events w t)), (Hw' {| last_check := ∅; trace := t |}).
  simpl. unfold add_events. simpl. by rewrite app_assoc.
Qed.

Lemma framed_try_except {A} (m : M A) h :
  framed m → (∀ e, framed (h e)) → framed (try_except m h).
Proof.
  intros Hm Hh w. unfold try_except.
  destruct (framed_start m Hm) as (r & t & E0 & Hw).
  rewrite (Hw w), E0. destruct r as [a|[e|c]]; try done.
  destruct (framed_start (h e) (Hh e)) as (r' & t' & E1 & Hw').
  rewrite (Hw' (add_events w t)), (Hw' {| last_check := ∅; trace := t |}).
  simpl. unfold add_events. simpl. by rewrite app_assoc.
Qed.

Lemma framed_verbose_log self m : framed (_verbose_log self m).
Proof.
  unfold _verbose_log. destruct (verbose_logging self);
    [apply framed_print|apply framed_ret].
Qed.

Lemma framed_send_each E rs subject body : framed (send_each E rs subject body).
Proof.
  induction rs as [|r rs IH]; simpl; [apply framed_ret|].
  destruct (smtp E _).
  - apply framed_bind; [apply framed_emit|]. intros _. apply framed_raise.
  - apply framed_bind; [apply framed_emit|]. intros _.
    apply framed_bind; [apply framed_print|]. by intros _.
Qed.

Lemma framed_send_email E rs subject body : framed (send_email E rs subject body).
Proof.
  apply framed_try_except; [apply framed_send_each|].
  intros _. apply framed_print.
Qed.

(** The dispatcher returns normally whatever the SMTP server does. *)
Lemma send_email_returns E rs subject body w :
  fst (send_email E rs subject body w) = Ret tt.
Proof.
  unfold send_email, try_except.
  destruct (send_each E rs subject body w) as [[[]|[e|c]] w'] eqn:H; try done.
  exfalso. revert w H.
  induction rs as [|r rs IH]; intros w H; simpl in H; [done|].
  destruct (smtp E _); [done|].
  unfold bind, emit, print in H. simpl in H. by eapply IH.
Qed.

Lemma framed_handle_pattern_match self E pattern line n d inst :
  framed (_handle_pattern_match self E pattern line n d inst).
Proof.
  apply framed_bind; [apply framed_print|]. intros _. apply framed_send_email.
Qed.

Lemma framed_check_pattern self E line n d pattern inst :
  framed (_check_pattern self E line n d pattern inst).
Proof.
  unfold _check_pattern. destruct (matches line pattern); [|apply framed_ret].
  apply framed_bind; [apply framed_handle_pattern_match|].
  intros _. apply framed_ret.
Qed.

Lemma bind_returned {A B} (m : M A) (k : A → M B) a w :
  fst (m w) = Ret a → bind m k w = k a (snd (m w)).
Proof.
  unfold bind. destruct (m w) as [[a'|e] w']; simpl; intros H; [|done].
  by inversion H.
Qed.

Lemma handle_pattern_match_returns self E pattern line n d inst w :
  fst (_handle_pattern_match self E pattern line n d inst w) = Ret tt.
Proof.
  unfold _handle_pattern_match.
  rewrite (bind_returned _ _ tt) by done. apply send_email_returns.
Qed.

Lemma check_pattern_returns self E line n d pattern inst w :
  fst (_check_pattern self E line n d pattern inst w) = Ret (matches line pattern).
Proof.
  unfold _check_pattern. destruct (matches line pattern); [|done].
  rewrite (bind_returned _ _ tt) by apply handle_pattern_match_returns.
  done.
Qed.

Lemma framed_scan_line self E cp pattern inst n line st :
  framed (scan_line self E cp pattern inst n line st).
Proof.
  unfold scan_line. destruct (negb _); [apply framed_ret|].
  destruct (timestamp_step _ _ _ _) as [st1 []].
  - apply framed_bind; [apply framed_verbose_log|]. intros _. apply framed_ret.
  - destruct (start_checking st1); [|apply framed_ret].
    destruct (line_faults E _ _ _).
    + apply framed_bind; [apply framed_check_pattern|]. intros m. apply framed_ret.
    + apply framed_bind; [apply framed_check_pattern|]. intros m. apply framed_ret.
    + apply framed_bind; [apply framed_verbose_log|]. intros _. apply framed_ret.
Qed.

Lemma framed_scan_lines self E cp pattern inst lines :
  ∀ n st, framed (scan_lines self E cp pattern inst n lines st).
Proof.
  induction lines as [|line rest IH]; intros n st; simpl; [apply framed_ret|].
  apply framed_bind; [apply framed_scan_line|]. intros st'. apply IH.
Qed.

(** An iteration of the scanner loop never raises, and leaves the locals
    described by [line_locals]. *)
Lemma scan_line_returns self E cp pattern inst n line st w :
  fst (scan_line self E cp pattern inst n line st w)
  = Ret (line_locals (line_faults E (app_name pattern) inst n) cp pattern n line st).
Proof.
  unfold scan_line, line_locals. destruct (negb _); [done|].
  destruct (timestamp_step _ _ _ _) as [st1 []].
  - unfold bind, _verbose_log. by destruct (verbose_logging self).
  - destruct (start_checking st1); [|done].
    assert (fst ((let* m := _check_pattern self E line n (last_date st1) pattern inst
                  in ret (if m then set_pattern_found st1 else st1)) w)
            = Ret (if matches line pattern then set_pattern_found st1 else st1)) as Hm.
    { by rewrite (bind_returned _ _ (matches line pattern))
        by apply check_pattern_returns. }
    destruct (line_faults E _ _ _); [done|done|].
    unfold bind, _verbose_log. by destruct (verbose_logging self).
Qed.

Lemma scan_lines_returns self E cp pattern inst lines :
  ∀ n st w,
    fst (scan_lines self E cp pattern inst n lines st w)
    = Ret (lines_locals (line_faults E (app_name pattern) inst) cp pattern n lines st).
Proof.
  induction lines as [|line rest IH]; intros n st w; simpl; [done|].
  rewrite (bind_returned _ _ _ _ (scan_line_returns _ _ _ _ _ _ _ _ _)).
  apply IH.
Qed.

(** The loop over a concatenation: the second part is scanned from the
    locals left by the first, whatever they are. *)
Lemma scan_lines_app self E cp pattern inst l1 l2 :
  ∀ n st w,
    scan_lines self E cp pattern inst n (l1 ++ l2) st w
    = (let* st' := scan_lines self E cp pattern inst n l1 st in
       scan_lines self E cp pattern inst (n + length l1) l2 st') w.
Proof.
  induction l1 as [|line rest IH]; intros n st w; simpl.
  - unfold bind, ret. by rewrite Nat.add_0_r.
  - unfold bind at 1 2 3.
    destruct (scan_line _ _ _ _ _ _ _ _ _) as [[st'|e] w']; [|done].
    rewrite IH. unfold bind. by rewrite Nat.add_succ_r.
Qed.

Lemma lines_locals_app faults cp pattern l1 l2 :
  ∀ n st,
    lines_locals faults cp pattern n (l1 ++ l2) st
    = lines_locals faults cp pattern (n + length l1) l2
        (lines_locals faults cp pattern n l1 st).
Proof.
  induction l1 as [|line rest IH]; intros n st; simpl.
  - by rewrite Nat.add_0_r.
  - by rewrite IH, Nat.add_succ_r.
Qed.

End Framing.

(** ** The matcher *)

Section Matcher.
Import PyStr SpecWords.

#[local] Arguments is_space : simpl never.

Lemma split_from_word w :
  Forall (λ c, is_space c = false) w →
  ∀ cur s, split_from cur (w ++ s) = split_from (cur ++ w) s.
Proof.
  induction 1 as [|c w Hc _ IH]; intros cur s.
  - by rewrite app_nil_r.
  - change ((c :: w) ++ s) with (c :: (w ++ s)). cbn [split_from].
    rewrite Hc, IH. by rewrite <- app_assoc.
Qed.

Lemma split_from_blank ws :
  Forall (λ c, is_space c = true) ws →
  ∀ s, split_from [] (ws ++ s) = split_from [] s.
Proof.
  induction 1 as [|c ws Hc _ IH]; intros s; [done|].
  change ((c :: ws) ++ s) with (c :: (ws ++ s)). cbn [split_from].
  by rewrite Hc, IH.
Qed.

Lemma split_from_prefix pre :
  ∀ cur s, ∃ front cur', split_from cur (pre ++ s) = front ++ split_from cur' s.
Proof.
  induction pre as [|c pre IH]; intros cur s.
  - by exists [], cur.
  - change ((c :: pre) ++ s) with (c :: (pre ++ s)). cbn [split_from].
    destruct (is_space c).
    + destruct (IH [] s) as (front & cur' & ->).
      destruct cur as [|x cur]; [by exists front, cur'|].
      by exists ((x :: cur) :: front), cur'.
    + apply IH.
Qed.

Lemma split_from_head s :
  ∀ cur, cur ≠ [] → ∃ t rest, split_from cur s = (cur ++ t) :: rest.
Proof.
  induction s as [|c s IH]; intros cur Hcur.
  - destruct cur as [|x cur]; [done|].
    exists [], []. simpl. by rewrite app_nil_r.
  - cbn [split_from]. destruct (is_space c).
    + destruct cur as [|x cur]; [done|].
      exists [], (split_from [] s). by rewrite app_nil_r.
    + destruct (IH (cur ++ [c])) as (t & rest & ->); [by destruct cur|].
      exists (c :: t), rest. by rewrite <- app_assoc.
Qed.

Lemma join_two sep front x y rest :
  ∃ P Q, join sep (front ++ x :: y :: rest) = P ++ x ++ sep ++ y ++ Q.
Proof.
  induction front as [|f front (P & Q & IH)].
  - exists []. rewrite app_nil_l, join_cons, (join_cons sep y rest).
    eexists. simpl. reflexivity.
  - change ((f :: front) ++ x :: y :: rest) with (f :: (front ++ x :: y :: rest)).
    rewrite join_cons, IH.
    exists (f ++ sep ++ P), Q.
    destruct (front ++ x :: y :: rest) eqn:E; [by destruct front|].
    by rewrite <- !app_assoc.
Qed.

(** Two words separated by any run of whitespace inside a line are found,
    after normalisation, separated by one space. *)
Lemma normalized_two_words pre w1 ws w2 post :
  w1 ≠ [] → w2 ≠ [] → ws ≠ [] →
  Forall (λ c, is_space c = false) w1 →
  Forall (λ c, is_space c = false) w2 →
  Forall (λ c, is_space c = true) ws →
  substring (w1 ++ [SP] ++ w2) (normalized (pre ++ w1 ++ ws ++ w2 ++ post)).
Proof.
  intros H1 H2 Hws F1 F2 Fws. unfold normalized, split.
  destruct (split_from_prefix pre [] (w1 ++ ws ++ w2 ++ post)) as (front & cur & ->).
  rewrite split_from_word by done.
  destruct ws as [|c ws]; [done|].
  apply Forall_cons in Fws as [Hc Fws].
  change ((c :: ws) ++ w2 ++ post) with (c :: (ws ++ w2 ++ post)).
  cbn [split_from]. rewrite Hc.
  destruct (cur ++ w1) as [|x cw] eqn:Ecw; [by destruct cur, w1|].
  rewrite <- Ecw. clear x cw Ecw.
  rewrite split_from_blank by done.
  rewrite split_from_word by done. rewrite app_nil_l.
  destruct (split_from_head post w2 H2) as (t & rest & ->).
  destruct (join_two [SP] front (cur ++ w1) (w2 ++ t) rest) as (P & Q & ->).
  exists (P ++ cur), (t ++ Q). by rewrite <- !app_assoc.
Qed.

(** C7. [_check_pattern] reports a match exactly when the normalised search
    string (runs of whitespace collapsed to one space, ends trimmed) is a
    contiguous substring of the normalised line, code point for code point
    (so case-sensitively); it always returns. A line containing
    "Connection   refused" matches the search string "Connection refused",
    and "connection refused" does not. *)
Theorem check_pattern_iff_normalized_substring :
  (∀ self E line n d pattern inst w,
     fst (_check_pattern self E line n d pattern inst w) = Ret true
     ↔ substring (normalize (search_string pattern)) (normalize line))
  ∧ (∀ self E line n d pattern inst w,
       ∃ b, fst (_check_pattern self E line n d pattern inst w) = Ret b)
  ∧ (∀ self E n d ty recipients app inst w pre post,
       fst (_check_pattern self E (pre ++ py "Connection   refused" ++ post) n d
              {| type := ty; search_string := py "Connection refused";
                 mail := recipients; app_name := app |} inst w) = Ret true)
  ∧ (∀ self E n d ty recipients app inst w,
       fst (_check_pattern self E (py "connection refused") n d
              {| type := ty; search_string := py "Connection refused";
                 mail := recipients; app_name := app |} inst w) = Ret false).
Proof.
  split; [|split; [|split]].
  - intros. rewrite check_pattern_returns. unfold matches.
    rewrite <- !normalized_normalize, <- contains_substring.
    split; [by intros [= ->]|by intros ->].
  - intros. eexists. apply check_pattern_returns.
  - intros. rewrite check_pattern_returns. f_equal.
    unfold matches. cbn [search_string]. apply contains_substring.
    change (normalized (py "Connection refused"))
      with (py "Connection" ++ [SP] ++ py "refused").
    change (py "Connection   refused")
      with (py "Connection" ++ py "   " ++ py "refused").
    rewrite <- !app_assoc.
    apply normalized_two_words; try done; by repeat constructor.
  - intros. by rewrite check_pattern_returns.
Qed.

End Matcher.

(** ** Timestamp extraction *)

Section Extraction.
Import PyStr.

#[local] Arguments is_space : simpl never.

Lemma startswith_INFO_space c s :
  is_space c = true → startswith INFO (c :: s) = false.
Proof.
  intros Hc. change INFO with [73; 78; 70; 79]. cbn [startswith].
  destruct (N.eqb_spec 73 c) as [<-|]; [|done].
  by vm_compute in Hc.
Qed.

Lemma before_first_blank pre rest :
  Forall (λ c, is_space c = true) pre →
  before_first INFO (pre ++ INFO ++ rest) = pre.
Proof.
  induction 1 as [|c pre Hc _ IH].
  - reflexivity.
  - change ((c :: pre) ++ INFO ++ rest) with (c :: (pre ++ INFO ++ rest)).
    cbn [before_first]. rewrite startswith_INFO_space by done. by rewrite IH.
Qed.

Lemma lstrip_blank pre : Forall (λ c, is_space c = true) pre → lstrip pre = [].
Proof. induction 1 as [|c pre Hc _ IH]; simpl; [done|]. by rewrite Hc. Qed.

Lemma contains_app_r sub pre post : contains sub (pre ++ sub ++ post) = true.
Proof. apply contains_substring. by exists pre, post. Qed.

Lemma extract_date_blank pre rest :
  Forall (λ c, is_space c = true) pre →
  _extract_date (pre ++ INFO ++ rest) = None.
Proof.
  intros Hpre. unfold _extract_date.
  rewrite before_first_blank by done.
  unfold strip. by rewrite lstrip_blank.
Qed.

(** A timestamp returned by [_extract_date] is never the empty string. *)
Lemma extract_date_truthy line d : _extract_date line = Some d → truthy d = true.
Proof.
  unfold _extract_date.
  destruct (strip (before_first INFO line)) as [|c s] eqn:E; [done|].
  destruct (Nat.leb _ _); [|done]. by intros [= <-].
Qed.

(** C9. When nothing but whitespace precedes the first "INFO" of a line,
    [_extract_date] returns no timestamp: the line contains the marker, yet
    scanning it leaves [last_date] as it was and a gated scanner gated. *)
Theorem marker_without_prefix_has_no_timestamp pre rest :
  Forall (λ c, is_space c = true) pre →
  contains INFO (pre ++ INFO ++ rest) = true
  ∧ before_first INFO (pre ++ INFO ++ rest) = pre
  ∧ _extract_date (pre ++ INFO ++ rest) = None
  ∧ (∀ fault cp st, fst (timestamp_step fault cp (pre ++ INFO ++ rest) st) = st)
  ∧ (∀ self E cp pattern inst n st w,
       ∃ st', fst (scan_line self E cp pattern inst n (pre ++ INFO ++ rest) st w)
              = Ret st'
              ∧ last_date st' = last_date st
              ∧ start_checking st' = start_checking st).
Proof.
  intros Hpre.
  assert (∀ fault cp st,
            fst (timestamp_step fault cp (pre ++ INFO ++ rest) st) = st) as Hstep.
  { intros fault cp st. unfold timestamp_step.
    rewrite contains_app_r, extract_date_blank by done. by destruct fault. }
  repeat split.
  - apply contains_app_r.
  - by apply before_first_blank.
  - by apply extract_date_blank.
  - done.
  - intros. eexists. split; [apply scan_line_returns|].
    unfold line_locals. destruct (negb _); [done|].
    specialize (Hstep (line_faults E (app_name pattern) inst n) cp
                      (count_line n (pre ++ INFO ++ rest) st)).
    destruct (timestamp_step _ _ _ _) as [st1 raised]. simpl in Hstep. subst st1.
    destruct raised; [done|].
    destruct (start_checking _) eqn:Hs; [|done].
    destruct (line_faults E _ _ _); try done; by destruct (matches _ _).
Qed.

Lemma marker_without_prefix_witness :
  _extract_date (py "  " ++ INFO ++ py " boot") = None.
Proof.
  apply (marker_without_prefix_has_no_timestamp (py "  ") (py " boot")).
  by repeat constructor.
Defined.

End Extraction.

(** ** The dispatcher *)

Section Dispatcher.

Lemma mail_attempts_app a b :
  mail_attempts (a ++ b) = mail_attempts a ++ mail_attempts b.
Proof. apply omap_app. Qed.

Lemma send_each_all_delivered E subject body recipients :
  ∀ w,
    (∀ r, r ∈ recipients → smtp E (message_for r subject body) = None) →
    ∃ w', send_each E recipients subject body w = (Ret tt, w')
          ∧ last_check w' = last_check w
          ∧ mail_attempts (trace w')
            = mail_attempts (trace w) ++ map (λ r, (r, true)) recipients.
Proof.
  induction recipients as [|a rs IH]; intros w Hall.
  - exists w. simpl. by rewrite app_nil_r.
  - cbn [send_each]. fold (message_for a subject body).
    rewrite (Hall a) by set_solver.
    rewrite (bind_returned _ _ tt) by done.
    rewrite (bind_returned _ _ tt) by done.
    destruct (IH (snd (print (MsgEmailSent a)
                         (snd (emit (Smtp (message_for a subject body) true) w)))))
      as (w' & -> & Hs & Ht); [intros; apply Hall; set_solver|].
    exists w'. split; [done|]. split; [done|].
    rewrite Ht. unfold print, emit. cbn [snd trace].
    rewrite !mail_attempts_app. simpl.
    by rewrite app_nil_r, <- app_assoc.
Qed.

Lemma send_each_first_failure E subject body pre r post e :
  ∀ w,
    (∀ r', r' ∈ pre → smtp E (message_for r' subject body) = None) →
    smtp E (message_for r subject body) = Some e →
    ∃ w', send_each E (pre ++ r :: post) subject body w = (Raise (Exc e), w')
          ∧ last_check w' = last_check w
          ∧ mail_attempts (trace w')
            = mail_attempts (trace w) ++ map (λ r, (r, true)) pre ++ [(r, false)].
Proof.
  induction pre as [|a pre IH]; intros w Hpre Hr.
  - cbn [app send_each]. fold (message_for r subject body). rewrite Hr.
    eexists. split; [reflexivity|]. split; [done|].
    cbn [trace]. by rewrite mail_attempts_app.
  - change ((a :: pre) ++ r :: post) with (a :: (pre ++ r :: post)).
    cbn [send_each]. fold (message_for a subject body).
    rewrite (Hpre a) by set_solver.
    rewrite (bind_returned _ _ tt) by done.
    rewrite (bind_returned _ _ tt) by done.
    destruct (IH (snd (print (MsgEmailSent a)
                         (snd (emit (Smtp (message_for a subject body) true) w)))))
      as (w' & -> & Hs & Ht); [intros; apply Hpre; set_solver|done|].
    exists w'. split; [done|]. split; [done|].
    rewrite Ht. unfold print, emit. cbn [snd trace].
    rewrite !mail_attempts_app. simpl.
    by rewrite app_nil_r, <- app_assoc.
Qed.

(** C3, as the code has it. [send_email] never raises and leaves the
    checkpoints alone. It opens one mail session per recipient, in order,
    and stops at the first session that fails: when every session succeeds
    each recipient is attempted once; when the session of [r] fails, the
    recipients before [r] and [r] itself have been attempted and those
    after [r] have not. *)
Theorem send_email_stops_at_first_failure E subject body :
  (∀ recipients w,
     fst (send_email E recipients subject body w) = Ret tt)
  ∧ (∀ recipients w,
       (∀ r, r ∈ recipients → smtp E (message_for r subject body) = None) →
       last_check (snd (send_email E recipients subject body w)) = last_check w
       ∧ mail_attempts (trace (snd (send_email E recipients subject body w)))
         = mail_attempts (trace w) ++ map (λ r, (r, true)) recipients)
  ∧ (∀ pre r post e w,
       (∀ r', r' ∈ pre → smtp E (message_for r' subject body) = None) →
       smtp E (message_for r subject body) = Some e →
       last_check (snd (send_email E (pre ++ r :: post) subject body w))
         = last_check w
       ∧ mail_attempts
           (trace (snd (send_email E (pre ++ r :: post) subject body w)))
         = mail_attempts (trace w) ++ map (λ r, (r, true)) pre ++ [(r, false)]).
Proof.
  split; [|split].
  - intros. apply send_email_returns.
  - intros recipients w Hall.
    destruct (send_each_all_delivered E subject body recipients w Hall)
      as (w' & Hrun & Hs & Ht).
    unfold send_email, try_except. by rewrite Hrun.
  - intros pre r post e w Hpre Hr.
    destruct (send_each_first_failure E subject body pre r post e w Hpre Hr)
      as (w' & Hrun & Hs & Ht).
    unfold send_email, try_except. rewrite Hrun.
    cbn [print emit snd last_check trace].
    rewrite mail_attempts_app, Ht. simpl. by rewrite app_nil_r.
Qed.

Lemma send_email_first_failure_witness :
  mail_attempts
    (trace (snd (send_email env_refusing_a
                   ([py "c@x.com"] ++ py "a@x.com" :: [py "b@x.com"])
                   (py "s") (py "b") nothing_done)))
  = [(py "c@x.com", true); (py "a@x.com", false)].
Proof.
  refine (proj2 (proj2 (proj2 (send_email_stops_at_first_failure
            env_refusing_a (py "s") (py "b")))
          [py "c@x.com"] (py "a@x.com") [py "b@x.com"] OtherException
          nothing_done _ _)).
  - intros r' Hr'. apply list_elem_of_singleton in Hr' as ->. reflexivity.
  - reflexivity.
Defined.

(** The second recipient is never attempted once the first one failed,
    although its own session would succeed. *)
Lemma send_email_skips_remaining_recipients :
  ¬ (∀ r, r ∈ [py "a@x.com"; py "b@x.com"] →
          ∃ delivered, (r, delivered) ∈
            mail_attempts
              (trace (snd (send_email env_refusing_a
                             [py "a@x.com"; py "b@x.com"]
                             (py "s") (py "b") nothing_done)))).
Proof.
  intros H. destruct (H (py "b@x.com")) as [delivered Hin]; [set_solver|].
  vm_compute in Hin.
  apply list_elem_of_singleton in Hin. discriminate.
Qed.

End Dispatcher.

(** ** The scanner: one line *)

Section ScannerLine.
Import PyStr SpecWords.

#[local] Arguments is_space : simpl never.
#[local] Arguments contains : simpl never.
#[local] Arguments _extract_date : simpl never.
#[local] Arguments matches : simpl never.
#[local] Arguments gt : simpl never.

Lemma contains_truthy sub s : sub ≠ [] → contains sub s = true → truthy s = true.
Proof. destruct s; [|done]. by destruct sub. Qed.

(** The block under [if "INFO" in line], case by case. *)
Lemma timestamp_step_no_marker fault cp line st :
  contains INFO line = false → timestamp_step fault cp line st = (st, false).
Proof. unfold timestamp_step. by intros ->. Qed.

Lemma timestamp_step_extract_fault cp line st :
  contains INFO line = true → timestamp_step ExtractFault cp line st = (st, true).
Proof. unfold timestamp_step. by intros ->. Qed.

Lemma timestamp_step_no_date fault cp line st :
  _extract_date line = None → fault ≠ ExtractFault →
  timestamp_step fault cp line st = (st, false).
Proof.
  unfold timestamp_step. intros -> Hf.
  destruct (contains INFO line); [|done]. by destruct fault.
Qed.

Lemma timestamp_step_date fault cp line st d :
  contains INFO line = true → _extract_date line = Some d →
  fault ≠ ExtractFault →
  timestamp_step fault cp line st =
    if start_checking st then (set_last_date d st, false)
    else match cp with
         | Some c => if gt d c
                     then (set_start_checking (set_last_date d st), false)
                     else (set_last_date d st, false)
         | None => (set_last_date d st, true)
         end.
Proof.
  unfold timestamp_step. intros -> Hd Hf. rewrite Hd.
  rewrite (extract_date_truthy _ _ Hd). cbn [set_last_date start_checking].
  destruct fault; try done; by destruct (start_checking st).
Qed.

(** What one iteration does to [last_date]. *)
Lemma line_locals_last_date fault cp pattern n line st :
  last_date (line_locals fault cp pattern n line st)
  = match line_timestamp fault line with
    | Some d => Some d
    | None => last_date st
    end.
Proof.
  unfold line_locals, line_timestamp.
  destruct (truthy line) eqn:Hl; cbn [negb andb]; [|done].
  destruct (contains INFO line) eqn:Hm.
  - destruct (decide (fault = ExtractFault)) as [->|Hf].
    { by rewrite timestamp_step_extract_fault. }
    destruct (_extract_date line) as [d|] eqn:Hd.
    + rewrite (timestamp_step_date _ _ _ _ d) by done.
      replace (match fault with ExtractFault => None | _ => Some d end)
        with (Some d) by (by destruct fault).
      destruct (start_checking (count_line n line st)) eqn:Hs.
      * cbn [set_last_date start_checking]. rewrite Hs.
        destruct fault; try done; by destruct (matches line pattern).
      * destruct cp as [c|]; [|done]. destruct (gt d c).
        -- cbn [set_start_checking set_last_date start_checking].
           destruct fault; try done; by destruct (matches line pattern).
        -- cbn [set_last_date start_checking]. by rewrite Hs.
    + rewrite timestamp_step_no_date by done.
      replace (match fault with ExtractFault => None | _ => None end)
        with (@None str) by (by destruct fault).
      destruct (start_checking _); [|done].
      destruct fault; try done; by destruct (matches line pattern).
  - rewrite timestamp_step_no_marker by done.
    destruct (start_checking _); [|done].
    destruct fault; try done; by destruct (matches line pattern).
Qed.

(** What one iteration does to the gate. *)
Lemma line_locals_start_checking fault cp pattern n line st :
  start_checking (line_locals fault cp pattern n line st)
  = start_checking st
    || match line_timestamp fault line, cp with
       | Some d, Some c => gt d c
       | _, _ => false
       end.
Proof.
  unfold line_locals, line_timestamp.
  destruct (truthy line) eqn:Hl; cbn [negb andb]; [|by rewrite orb_false_r].
  destruct (contains INFO line) eqn:Hm.
  - destruct (decide (fault = ExtractFault)) as [->|Hf].
    { rewrite timestamp_step_extract_fault by done. by rewrite orb_false_r. }
    destruct (_extract_date line) as [d|] eqn:Hd.
    + rewrite (timestamp_step_date _ _ _ _ d) by done.
      replace (match fault with ExtractFault => None | _ => Some d end)
        with (Some d) by (by destruct fault).
      change (start_checking (count_line n line st)) with (start_checking st).
      destruct (start_checking st) eqn:Hs.
      * cbn [set_last_date start_checking count_line]. rewrite Hs.
        destruct fault; try done; by destruct (matches line pattern).
      * destruct cp as [c|]; [|done]. destruct (gt d c).
        -- cbn [set_start_checking set_last_date start_checking].
           destruct fault; try done; by destruct (matches line pattern).
        -- cbn [set_last_date start_checking count_line]. by rewrite Hs.
    + rewrite timestamp_step_no_date by done.
      replace (match fault with ExtractFault => None | _ => None end)
        with (@None str) by (by destruct fault).
      change (start_checking (count_line n line st)) with (start_checking st).
      destruct (start_checking st) eqn:Hs; [|by cbn [count_line start_checking]].
      destruct fault; try done; by destruct (matches line pattern).
  - rewrite timestamp_step_no_marker by done.
    change (start_checking (count_line n line st)) with (start_checking st).
    destruct (start_checking st) eqn:Hs; [|by cbn [count_line start_checking]].
    destruct fault; try done; by destruct (matches line pattern).
Qed.

Lemma matched_lines_app a b :
  matched_lines (a ++ b) = matched_lines a ++ matched_lines b.
Proof. apply omap_app. Qed.

Lemma alerts_app a b : alerts (a ++ b) = alerts a ++ alerts b.
Proof. apply List.filter_app. Qed.

Lemma send_each_matched_lines E subject body recipients :
  ∀ w, matched_lines (trace (snd (send_each E recipients subject body w)))
       = matched_lines (trace w).
Proof.
  induction recipients as [|r rs IH]; intros w; [done|].
  cbn [send_each]. destruct (smtp E _).
  - cbn. rewrite matched_lines_app. apply app_nil_r.
  - rewrite (bind_returned _ _ tt) by done.
    rewrite (bind_returned _ _ tt) by done.
    rewrite IH. unfold print, emit. cbn [snd trace].
    rewrite !matched_lines_app. simpl. by rewrite !app_nil_r.
Qed.

Lemma send_email_matched_lines E recipients subject body w :
  matched_lines (trace (snd (send_email E recipients subject body w)))
  = matched_lines (trace w).
Proof.
  unfold send_email, try_except.
  pose proof (send_each_matched_lines E subject body recipients w) as H.
  destruct (send_each _ _ _ _ _) as [[[]|[e|c]] w']; try done.
  cbn in *. rewrite matched_lines_app, H. apply app_nil_r.
Qed.

Lemma check_pattern_matched_lines self E line n d pattern inst w :
  matched_lines (trace (snd (_check_pattern self E line n d pattern inst w)))
  = matched_lines (trace w) ++ (if matches line pattern then [line] else []).
Proof.
  unfold _check_pattern. destruct (matches line pattern).
  - rewrite (bind_returned _ _ tt) by apply handle_pattern_match_returns.
    cbn [ret snd]. unfold _handle_pattern_match.
    rewrite (bind_returned _ _ tt) by done.
    rewrite send_email_matched_lines. unfold print, emit. cbn [snd trace].
    by rewrite matched_lines_app.
  - cbn. by rewrite app_nil_r.
Qed.

End ScannerLine.

(** ** The gate of the scanner *)

Section Gate.
Import PyStr SpecWords.

#[local] Arguments contains : simpl never.
#[local] Arguments _extract_date : simpl never.
#[local] Arguments matches : simpl never.
#[local] Arguments gt : simpl never.

Lemma timestamp_step_active fault cp line st :
  start_checking st = true → fault ≠ ExtractFault →
  ∃ st1, timestamp_step fault cp line st = (st1, false)
         ∧ start_checking st1 = true.
Proof.
  intros Hs Hf.
  destruct (contains INFO line) eqn:Hm.
  - destruct (_extract_date line) as [d|] eqn:Hd.
    + rewrite (timestamp_step_date _ _ _ _ d), Hs by done. by eexists.
    + rewrite timestamp_step_no_date by done. by eexists.
  - rewrite timestamp_step_no_marker by done. by eexists.
Qed.

Lemma scan_line_active_matched_lines self E cp pattern inst n line st w :
  start_checking st = true → truthy line = true →
  line_faults E (app_name pattern) inst n = NoFault →
  matched_lines (trace (snd (scan_line self E cp pattern inst n line st w)))
  = matched_lines (trace w) ++ (if matches line pattern then [line] else []).
Proof.
  intros Hs Hl Hf. unfold scan_line. rewrite Hl, Hf. cbn [negb].
  destruct (timestamp_step_active NoFault cp line (count_line n line st))
    as (st1 & -> & ->); [done|done|].
  rewrite (bind_returned _ _ _ _ (check_pattern_returns _ _ _ _ _ _ _ _)).
  cbn [ret snd]. apply check_pattern_matched_lines.
Qed.

End Gate.

(** ** The scanner: a whole stream *)

Section ScannerStream.
Import PyStr SpecWords.

#[local] Arguments _extract_date : simpl never.
#[local] Arguments matches : simpl never.

Lemma timestamps_truthy faults lines :
  ∀ n, Forall (λ d, truthy d = true) (timestamps faults n lines).
Proof.
  induction lines as [|line rest IH]; intros n; cbn [timestamps]; [done|].
  destruct (line_timestamp (faults n) line) as [d|] eqn:Hd; [|apply IH].
  constructor; [|apply IH].
  unfold line_timestamp in Hd.
  destruct (_ && _); [|done].
  destruct (faults n); try done; by eapply extract_date_truthy.
Qed.

Lemma lines_locals_last_date faults cp pattern lines :
  ∀ n st,
    last_date (lines_locals faults cp pattern n lines st)
    = match last (timestamps faults n lines) with
      | Some d => Some d
      | None => last_date st
      end.
Proof.
  induction lines as [|line rest IH]; intros n st; cbn [lines_locals timestamps];
    [done|].
  rewrite IH, line_locals_last_date.
  destruct (line_timestamp (faults n) line) as [d|]; [|done].
  rewrite last_cons. by destruct (last _).
Qed.

Lemma maximum_last ts d :
  last ts = Some d → (∀ t, t ∈ ts → le t d = true) → maximum ts = Some d.
Proof.
  induction ts as [|x l IH]; [done|]. intros Hlast Hle.
  cbn [maximum]. destruct l as [|y l'].
  - by injection Hlast as ->.
  - rewrite last_cons in Hlast.
    assert (last (y :: l') = Some d) as Hl.
    { destruct (last (y :: l')) eqn:E; [done|]. by apply last_None in E. }
    rewrite (IH Hl) by (intros t Ht; apply Hle; by constructor).
    f_equal. destruct (lt x d) eqn:Hxd; [done|].
    apply lt_total; [done|].
    specialize (Hle x). unfold le in Hle.
    apply negb_true_iff, Hle. set_solver.
Qed.

(** The run of [_process_log_stream] on a stream that ends normally: the
    loop, then the checkpoint write when a timestamp was recorded. *)
Lemma process_log_stream_normal self E lines cp pattern inst w :
  _process_log_stream self E lines None cp pattern inst w
  = let st := lines_locals (line_faults E (app_name pattern) inst) cp pattern
                           1 lines (initial cp) in
    let w1 := snd (scan_lines self E cp pattern inst 1 lines (initial cp) w) in
    (Ret (pattern_found st),
     match last (timestamps (line_faults E (app_name pattern) inst) 1 lines) with
     | Some d => snd (_save_last_check_date (app_name pattern) inst d w1)
     | None => w1
     end).
Proof.
  unfold _process_log_stream.
  rewrite (bind_returned _ _ _ _ (scan_lines_returns _ _ _ _ _ _ _ _ _)).
  cbn zeta.
  rewrite lines_locals_last_date. cbn [initial last_date].
  pose proof (timestamps_truthy (line_faults E (app_name pattern) inst) lines 1)
    as Htr.
  destruct (last (timestamps _ _ _)) as [d|] eqn:Hl.
  - apply last_Some_elem_of in Hl.
    rewrite Forall_forall in Htr. rewrite (Htr d Hl).
    by rewrite (bind_returned _ _ tt) by done.
  - by rewrite (bind_returned _ _ tt) by done.
Qed.

(** A stream that faults is scanned up to the fault and nothing is saved. *)
Lemma process_log_stream_fault self E lines e cp pattern inst w :
  _process_log_stream self E lines (Some e) cp pattern inst w
  = (Raise (Exc e),
     snd (scan_lines self E cp pattern inst 1 lines (initial cp) w)).
Proof.
  unfold _process_log_stream.
  by rewrite (bind_returned _ _ _ _ (scan_lines_returns _ _ _ _ _ _ _ _ _)).
Qed.

Lemma scan_lines_last_check self E cp pattern inst n lines st w :
  last_check (snd (scan_lines self E cp pattern inst n lines st w))
  = last_check w.
Proof. by rewrite (framed_scan_lines self E cp pattern inst lines n st w). Qed.

(** The checkpoint written after a stream that ends normally. *)
Lemma checkpoint_is_last_line_timestamp self E lines cp pattern inst w d :
  last (timestamps (line_faults E (app_name pattern) inst) 1 lines) = Some d →
  last_check (snd (_process_log_stream self E lines None cp pattern inst w))
    !! checkpoint_file (app_name pattern) inst = Some d.
Proof.
  intros Hl. rewrite process_log_stream_normal. cbn zeta. rewrite Hl.
  cbn [_save_last_check_date snd last_check]. apply lookup_insert_eq.
Qed.

(** C4, as the code has it. After a scan whose stream ends normally and in
    which a timestamp was recorded, the checkpoint file of the instance
    holds the timestamp recorded last, in stream order. That timestamp is
    the lexicographically greatest of the scan when no recorded timestamp
    exceeds it, and then it is not below a prior checkpoint that some
    recorded timestamp reaches. When no timestamp was recorded the
    checkpoints are left as they were. *)
Theorem checkpoint_is_last_timestamp self E lines cp pattern inst w :
  (∀ d,
     last (timestamps (line_faults E (app_name pattern) inst) 1 lines) = Some d →
     (∃ found, fst (_process_log_stream self E lines None cp pattern inst w)
               = Ret found)
     ∧ last_check (snd (_process_log_stream self E lines None cp pattern inst w))
         !! checkpoint_file (app_name pattern) inst = Some d
     ∧ ((∀ t, t ∈ timestamps (line_faults E (app_name pattern) inst) 1 lines →
              le t d = true) →
        maximum (timestamps (line_faults E (app_name pattern) inst) 1 lines)
          = Some d
        ∧ ∀ c t, cp = Some c →
                 t ∈ timestamps (line_faults E (app_name pattern) inst) 1 lines →
                 le c t = true → le c d = true))
  ∧ (timestamps (line_faults E (app_name pattern) inst) 1 lines = [] →
     last_check (snd (_process_log_stream self E lines None cp pattern inst w))
     = last_check w).
Proof.
  rewrite process_log_stream_normal. cbn zeta. split.
  - intros d Hl. rewrite Hl. split; [by eexists|]. split.
    + cbn [_save_last_check_date snd last_check]. apply lookup_insert_eq.
    + intros Hmax. split; [by apply maximum_last|].
      intros c t _ Ht Hct. eapply le_trans; [done|]. by apply Hmax.
  - intros ->. cbn [last snd]. apply scan_lines_last_check.
Qed.

Lemma checkpoint_is_last_timestamp_witness :
  last_check (snd (_process_log_stream monitor env_unordered unordered_stream
                     None None orders_pattern worker nothing_done))
    !! checkpoint_file (app_name orders_pattern) worker
  = Some (py "2024-01-01T09:00:00").
Proof.
  refine (proj1 (proj2 (proj1 (checkpoint_is_last_timestamp monitor env_unordered
            unordered_stream None orders_pattern worker nothing_done)
          (py "2024-01-01T09:00:00") _))).
  reflexivity.
Defined.

(** A scan that ends normally and saw two marker lines stores the older of
    their timestamps, below the greatest one it observed and below the
    checkpoint it started from. *)
Lemma checkpoint_can_decrease :
  fst (scan_instance monitor env_unordered orders_pattern worker
         (checkpointed (py "2024-01-03T00:00:00"))) = Ret false
  ∧ last_check (snd (scan_instance monitor env_unordered orders_pattern worker
                       (checkpointed (py "2024-01-03T00:00:00"))))
      !! checkpoint_file (py "orders-api") worker
    = Some (py "2024-01-01T09:00:00")
  ∧ maximum (timestamps no_fault 1 unordered_stream)
    = Some (py "2024-01-02T10:00:00")
  ∧ lt (py "2024-01-01T09:00:00") (py "2024-01-02T10:00:00") = true
  ∧ lt (py "2024-01-01T09:00:00") (py "2024-01-03T00:00:00") = true.
Proof. repeat split; vm_compute; reflexivity. Qed.

End ScannerStream.

(** ** Scanning the same stream again *)

Section Rescan.
Import PyStr SpecWords.

#[local] Arguments is_space : simpl never.
#[local] Arguments _extract_date : simpl never.
#[local] Arguments matches : simpl never.
#[local] Arguments contains : simpl never.
#[local] Arguments gt : simpl never.

Lemma rstrip_cons c s :
  rstrip (c :: s) = match rstrip s with
                    | [] => if is_space c then [] else [c]
                    | r => c :: r
                    end.
Proof. done. Qed.

Lemma rstrip_rstrip z : rstrip (rstrip z) = rstrip z.
Proof.
  induction z as [|c z IH]; [done|]. rewrite rstrip_cons.
  destruct (rstrip z) as [|x r] eqn:E.
  - destruct (is_space c) eqn:Hc; [done|]. simpl. by rewrite Hc.
  - by rewrite rstrip_cons, IH.
Qed.

Lemma strip_strip x : strip (strip x) = strip x.
Proof.
  unfold strip.
  destruct (lstrip_head x) as [->|(d & r & -> & Hd)]; [done|].
  rewrite rstrip_cons_nonspace by done. cbn [lstrip]. rewrite Hd.
  rewrite <- (rstrip_cons_nonspace d r) by done. apply rstrip_rstrip.
Qed.

Lemma extract_date_stripped line d : _extract_date line = Some d → strip d = d.
Proof.
  unfold _extract_date. destruct (Nat.leb _ _); [|done].
  intros [= <-]. apply strip_strip.
Qed.

Lemma timestamps_stripped faults lines :
  ∀ n, Forall (λ d, strip d = d) (timestamps faults n lines).
Proof.
  induction lines as [|line rest IH]; intros n; cbn [timestamps]; [done|].
  destruct (line_timestamp (faults n) line) as [d|] eqn:Hd; [|apply IH].
  constructor; [|apply IH].
  unfold line_timestamp in Hd.
  destruct (_ && _); [|done].
  destruct (faults n); try done; by eapply extract_date_stripped.
Qed.

(** The world after one iteration of the loop. *)
Lemma scan_line_world self E cp pattern inst n line st w :
  snd (scan_line self E cp pattern inst n line st w)
  = if negb (truthy line) then w
    else
      match timestamp_step (line_faults E (app_name pattern) inst n) cp line
                           (count_line n line st) with
      | (st1, true) => snd (_verbose_log self (MsgLineError n) w)
      | (st1, false) =>
          if start_checking st1 then
            match line_faults E (app_name pattern) inst n with
            | CheckFault => snd (_verbose_log self (MsgLineError n) w)
            | _ => snd (_check_pattern self E line n (last_date st1) pattern inst w)
            end
          else w
      end.
Proof.
  unfold scan_line. destruct (negb _); [done|].
  destruct (timestamp_step _ _ _ _) as [st1 []].
  - unfold bind, _verbose_log. by destruct (verbose_logging self).
  - destruct (start_checking st1); [|done].
    assert (snd ((let* m := _check_pattern self E line n (last_date st1) pattern inst
                  in ret (if m then set_pattern_found st1 else st1)) w)
            = snd (_check_pattern self E line n (last_date st1) pattern inst w))
      as Hm.
    { by rewrite (bind_returned _ _ _ _ (check_pattern_returns _ _ _ _ _ _ _ _)). }
    destruct (line_faults E _ _ _); [done|done|].
    unfold bind, _verbose_log. by destruct (verbose_logging self).
Qed.

Lemma timestamp_step_pattern_found fault cp line st :
  pattern_found (fst (timestamp_step fault cp line st)) = pattern_found st.
Proof.
  unfold timestamp_step.
  repeat case_match; done.
Qed.

Lemma verbose_log_alerts self m w :
  (∀ ty line, m ≠ MsgMatchFound ty line) →
  alerts (trace (snd (_verbose_log self m w))) = alerts (trace w).
Proof.
  intros Hm. unfold _verbose_log. destruct (verbose_logging self); [|done].
  cbn. rewrite alerts_app. cbn.
  destruct m; try (by rewrite app_nil_r). by destruct (Hm ty line).
Qed.

(** A line that leaves the scanner gated finds nothing and alerts nobody. *)
Lemma scan_line_gated self E cp pattern inst n line st w :
  start_checking
    (line_locals (line_faults E (app_name pattern) inst n) cp pattern n line st)
  = false →
  pattern_found
    (line_locals (line_faults E (app_name pattern) inst n) cp pattern n line st)
  = pattern_found st
  ∧ alerts (trace (snd (scan_line self E cp pattern inst n line st w)))
    = alerts (trace w).
Proof.
  rewrite scan_line_world. unfold line_locals.
  destruct (negb (truthy line)); [done|].
  pose proof (timestamp_step_pattern_found (line_faults E (app_name pattern) inst n)
                cp line (count_line n line st)) as Hpf.
  destruct (timestamp_step _ _ _ _) as [st1 raised]. cbn [fst] in Hpf.
  destruct raised.
  - intros _. split; [done|]. by apply verbose_log_alerts.
  - destruct (start_checking st1) eqn:Hs1; [|done].
    destruct (line_faults E _ _ _).
    + destruct (matches line pattern); cbn; congruence.
    + destruct (matches line pattern); cbn; congruence.
    + intros _. split; [done|]. by apply verbose_log_alerts.
Qed.

(** A stream none of whose timestamps exceeds the checkpoint is read to the
    end with the gate closed. *)
Lemma scan_lines_gated self E c pattern inst lines :
  ∀ n st w,
    start_checking st = false →
    (∀ t, t ∈ timestamps (line_faults E (app_name pattern) inst) n lines →
          le t c = true) →
    start_checking
      (lines_locals (line_faults E (app_name pattern) inst) (Some c) pattern
                    n lines st) = false
    ∧ pattern_found
        (lines_locals (line_faults E (app_name pattern) inst) (Some c) pattern
                      n lines st) = pattern_found st
    ∧ alerts (trace (snd (scan_lines self E (Some c) pattern inst n lines st w)))
      = alerts (trace w).
Proof.
  induction lines as [|line rest IH]; intros n st w Hs Hle; [done|].
  cbn [lines_locals scan_lines].
  rewrite (bind_returned _ _ _ _ (scan_line_returns _ _ _ _ _ _ _ _ _)).
  assert (start_checking
            (line_locals (line_faults E (app_name pattern) inst n) (Some c)
                         pattern n line st) = false) as Hs'.
  { rewrite line_locals_start_checking, Hs. cbn [orb].
    destruct (line_timestamp _ line) as [d|] eqn:Hd; [|done].
    specialize (Hle d). cbn [timestamps] in Hle. rewrite Hd in Hle.
    unfold le, gt in *. apply negb_true_iff, Hle. by left. }
  destruct (scan_line_gated self E (Some c) pattern inst n line st w Hs')
    as [Hpf Hal].
  destruct (IH (S n) _ (snd (scan_line self E (Some c) pattern inst n line st w)) Hs')
    as (H1 & H2 & H3).
  { intros t Ht. apply Hle. cbn [timestamps].
    destruct (line_timestamp _ line); [by right|done]. }
  split; [done|]. split; congruence.
Qed.

End Rescan.

Section RescanInstance.
Import PyStr SpecWords.

#[local] Arguments _extract_date : simpl never.
#[local] Arguments matches : simpl never.
#[local] Arguments timestamps : simpl never.
#[local] Arguments lines_locals : simpl never.
#[local] Arguments scan_lines : simpl never.
#[local] Arguments checkpoint_file : simpl never.

(** The scan of one instance whose log is delivered to the end. *)
Lemma scan_instance_normal self E pattern inst lines w :
  log E (app_name pattern) inst = LogStream lines None →
  scan_instance self E pattern inst w
  = let file := checkpoint_file (app_name pattern) inst in
    let cp := strip <$> last_check w !! file in
    let st := lines_locals (line_faults E (app_name pattern) inst) cp pattern
                           1 lines (initial cp) in
    let w1 := snd (scan_lines self E cp pattern inst 1 lines (initial cp)
                     (add_events w [ReadCheckpoint file;
                                    HttpLog (app_name pattern) inst])) in
    let w2 := match last (timestamps (line_faults E (app_name pattern) inst)
                                     1 lines) with
              | Some d => snd (_save_last_check_date (app_name pattern) inst d w1)
              | None => w1
              end in
    (Ret (pattern_found st),
     add_events w2 [Print (MsgWorker inst cp (pattern_found st))]).
Proof.
  intros Hlog. unfold scan_instance.
  unfold bind at 1. unfold _get_last_check_date at 1.
  unfold bind at 1. unfold emit at 1. cbn [last_check trace].
  rewrite Hlog. unfold bind at 1.
  rewrite process_log_stream_normal. cbn zeta.
  unfold bind, print, emit, ret, add_events. cbn [last_check trace].
  by rewrite <- app_assoc.
Qed.

(** C6, as the code has it. When the scan of a stream records at least one
    timestamp and none of them exceeds the one recorded last, scanning the
    same stream again from the checkpoint left by the first scan finds no
    match, alerts nobody and leaves every checkpoint as the first scan
    left it. *)
Theorem rescan_is_silent self E pattern inst lines d w :
  log E (app_name pattern) inst = LogStream lines None →
  last (timestamps (line_faults E (app_name pattern) inst) 1 lines) = Some d →
  (∀ t, t ∈ timestamps (line_faults E (app_name pattern) inst) 1 lines →
        le t d = true) →
  fst (scan_instance self E pattern inst
         (snd (scan_instance self E pattern inst w))) = Ret false
  ∧ last_check (snd (scan_instance self E pattern inst
                       (snd (scan_instance self E pattern inst w))))
    = last_check (snd (scan_instance self E pattern inst w))
  ∧ alerts (trace (snd (scan_instance self E pattern inst
                          (snd (scan_instance self E pattern inst w)))))
    = alerts (trace (snd (scan_instance self E pattern inst w))).
Proof.
  intros Hlog Hl Hle.
  assert (last_check (snd (scan_instance self E pattern inst w))
          = <[checkpoint_file (app_name pattern) inst := d]> (last_check w))
    as Hstore.
  { rewrite (scan_instance_normal self E pattern inst lines w) by done.
    cbn zeta. rewrite Hl.
    cbn [snd add_events last_check _save_last_check_date].
    by rewrite scan_lines_last_check. }
  set (w1 := snd (scan_instance self E pattern inst w)) in *.
  assert (strip <$> last_check w1 !! checkpoint_file (app_name pattern) inst
          = Some d) as Hcp.
  { rewrite Hstore, lookup_insert_eq. cbn. f_equal.
    pose proof (timestamps_stripped (line_faults E (app_name pattern) inst)
                  lines 1) as Hst.
    rewrite Forall_forall in Hst. apply Hst. by apply last_Some_elem_of. }
  rewrite (scan_instance_normal self E pattern inst lines w1) by done.
  cbn zeta. rewrite Hcp, Hl.
  destruct (scan_lines_gated self E d pattern inst lines 1 (initial (Some d))
              (add_events w1 [ReadCheckpoint (checkpoint_file (app_name pattern) inst);
                              HttpLog (app_name pattern) inst]))
    as (_ & Hpf & Hal); [done|done|].
  cbn [fst snd]. rewrite Hpf. split; [done|]. split.
  - cbn [add_events last_check _save_last_check_date snd].
    rewrite scan_lines_last_check. cbn [add_events last_check].
    rewrite Hstore. apply insert_insert_eq.
  - cbn [add_events trace _save_last_check_date snd].
    rewrite !alerts_app, Hal. cbn [add_events trace].
    rewrite alerts_app. cbn. by rewrite !app_nil_r.
Qed.

Lemma rescan_is_silent_witness :
  fst (scan_instance monitor env_scenario orders_pattern worker
         (snd (scan_instance monitor env_scenario orders_pattern worker
                 nothing_done))) = Ret false.
Proof.
  refine (proj1 (rescan_is_silent monitor env_scenario orders_pattern worker
                   scenario_stream (py "2024-01-01T10:00:05") nothing_done
                   _ _ _)).
  - reflexivity.
  - reflexivity.
  - intros t Ht. vm_compute in Ht.
    repeat (apply elem_of_cons in Ht as [->|Ht]; [reflexivity|]).
    by apply elem_of_nil in Ht.
Defined.

(** A log without marker lines leaves no checkpoint, so scanning it again
    reports its matching line again. *)
Lemma rescan_repeats_matches_without_marker :
  last_check (snd (scan_instance monitor env_errors_only orders_pattern worker
                     nothing_done))
    !! checkpoint_file (py "orders-api") worker = None
  ∧ fst (scan_instance monitor env_errors_only orders_pattern worker
           (snd (scan_instance monitor env_errors_only orders_pattern worker
                   nothing_done))) = Ret true
  ∧ matched_lines
      (trace (snd (scan_instance monitor env_errors_only orders_pattern worker
                     (snd (scan_instance monitor env_errors_only orders_pattern
                             worker nothing_done)))))
    = errors_only_stream ++ errors_only_stream.
Proof. repeat split; vm_compute; reflexivity. Qed.

End RescanInstance.

(** ** Faults inside one line *)

Section LineFaults.
Import PyStr SpecWords.

#[local] Arguments _extract_date : simpl never.
#[local] Arguments matches : simpl never.
#[local] Arguments contains : simpl never.
#[local] Arguments timestamps : simpl never.
#[local] Arguments checkpoint_file : simpl never.

(** C8, as the code has it. An exception raised inside the [try] of one
    line is caught: the iteration returns, the line reports no match, and
    the loop goes on with the next line from the locals left behind.
    What was assigned before the exception stands: a line that faults in
    [_extract_date] leaves no timestamp, a line that faults in the matcher
    has already recorded its timestamp and may have opened the gate. The
    checkpoint written at the end is the timestamp recorded last, which
    can be that of a line faulted in the matcher. In a stream of ten
    matching lines whose fifth line faults, the nine others are reported. *)
Theorem line_fault_skips_only_the_match self E cp pattern inst :
  (∀ n line st w,
     ∃ st', fst (scan_line self E cp pattern inst n line st w) = Ret st')
  ∧ (∀ n pre line post st w,
       scan_lines self E cp pattern inst n (pre ++ line :: post) st w
       = (let* st1 := scan_lines self E cp pattern inst n pre st in
          let* st2 := scan_line self E cp pattern inst (n + length pre) line st1 in
          scan_lines self E cp pattern inst (S (n + length pre)) post st2) w)
  ∧ (∀ n line st w,
       line_faults E (app_name pattern) inst n = ExtractFault →
       contains INFO line = true →
       fst (scan_line self E cp pattern inst n line st w)
         = Ret (count_line n line st)
       ∧ alerts (trace (snd (scan_line self E cp pattern inst n line st w)))
         = alerts (trace w)
       ∧ line_timestamp ExtractFault line = None)
  ∧ (∀ n line st w,
       line_faults E (app_name pattern) inst n = CheckFault →
       truthy line = true →
       fst (scan_line self E cp pattern inst n line st w)
         = Ret (fst (timestamp_step CheckFault cp line (count_line n line st)))
       ∧ alerts (trace (snd (scan_line self E cp pattern inst n line st w)))
         = alerts (trace w)
       ∧ line_timestamp CheckFault line = line_timestamp NoFault line)
  ∧ (∀ lines w d,
       last (timestamps (line_faults E (app_name pattern) inst) 1 lines) = Some d →
       last_check (snd (_process_log_stream self E lines None cp pattern inst w))
         !! checkpoint_file (app_name pattern) inst = Some d)
  ∧ (∀ f, f ≠ NoFault →
       matched_lines
         (trace (snd (scan_instance monitor (env_ten_lines f) orders_pattern
                        worker nothing_done)))
       = take 4 ten_lines ++ drop 5 ten_lines
       ∧ fst (scan_instance monitor (env_ten_lines f) orders_pattern worker
                nothing_done) = Ret true
       ∧ last_check (snd (scan_instance monitor (env_ten_lines f) orders_pattern
                            worker nothing_done))
           !! checkpoint_file (py "orders-api") worker
         = Some (py "2024-01-01T10:00:09")).
Proof.
  split; [|split; [|split; [|split; [|split]]]].
  - intros. eexists. apply scan_line_returns.
  - intros. rewrite scan_lines_app. unfold bind.
    destruct (scan_lines self E cp pattern inst n pre st w) as [[st1|e] w1];
      [|done].
    done.
  - intros n line st w Hf Hm.
    rewrite scan_line_returns, scan_line_world. unfold line_locals, line_timestamp.
    rewrite Hf, (contains_truthy INFO line), Hm by done. cbn [negb andb].
    rewrite timestamp_step_extract_fault by done.
    split; [done|]. split; [|done]. by apply verbose_log_alerts.
  - intros n line st w Hf Hl.
    rewrite scan_line_returns, scan_line_world. unfold line_locals, line_timestamp.
    rewrite Hf, Hl. cbn [negb andb].
    destruct (timestamp_step CheckFault cp line (count_line n line st))
      as [st1 raised].
    split; [|split; [|done]].
    + destruct raised; [done|]. by destruct (start_checking st1).
    + destruct raised; [by apply verbose_log_alerts|].
      destruct (start_checking st1); [|done]. by apply verbose_log_alerts.
  - intros lines w d Hl.
    by apply (checkpoint_is_last_line_timestamp self E lines cp pattern inst w).
  - intros f Hf. destruct f; [done| |]; repeat split; vm_compute; reflexivity.
Qed.

Lemma line_fault_witness :
  fst (scan_line monitor env_refused_faulted None orders_pattern worker 2
         (py "2024-01-01T10:00:09 INFO Connection refused")
         (initial None) nothing_done)
  = Ret (fst (timestamp_step CheckFault None
                (py "2024-01-01T10:00:09 INFO Connection refused")
                (count_line 2 (py "2024-01-01T10:00:09 INFO Connection refused")
                            (initial None)))).
Proof.
  refine (proj1 (proj1 (proj2 (proj2 (proj2
            (line_fault_skips_only_the_match monitor env_refused_faulted None
               orders_pattern worker))))
          2%nat (py "2024-01-01T10:00:09 INFO Connection refused")
          (initial None) nothing_done _ _)); reflexivity.
Defined.

(** The second line matches and faults in the matcher: it is not reported,
    yet the checkpoint written is its timestamp, not that of the first
    line, the only one processed to the end. *)
Lemma faulted_line_moves_checkpoint :
  line_faults env_refused_faulted (py "orders-api") worker 2 = CheckFault
  ∧ matches (py "2024-01-01T10:00:09 INFO Connection refused") orders_pattern
    = true
  ∧ fst (scan_instance monitor env_refused_faulted orders_pattern worker
           nothing_done) = Ret false
  ∧ matched_lines
      (trace (snd (scan_instance monitor env_refused_faulted orders_pattern
                     worker nothing_done))) = []
  ∧ last_check (snd (scan_instance monitor env_refused_faulted orders_pattern
                       worker nothing_done))
      !! checkpoint_file (py "orders-api") worker
    = Some (py "2024-01-01T10:00:09")
  ∧ last_check (snd (scan_instance monitor env_refused_cut orders_pattern
                       worker nothing_done))
      !! checkpoint_file (py "orders-api") worker
    = Some (py "2024-01-01T10:00:00").
Proof. repeat split; vm_compute; reflexivity. Qed.

End LineFaults.

(** ** The orchestrator *)

Section Orchestrator.
Import PyStr SpecWords.

#[local] Arguments checkpoint_file : simpl never.
#[local] Arguments scan_lines : simpl never.
#[local] Arguments lines_locals : simpl never.

Lemma framed_get_instance_ids E app : framed (get_instance_ids E app).
Proof.
  unfold get_instance_ids.
  apply framed_bind; [apply framed_emit|]. intros _.
  destruct (deployments E app) as [data|e].
  - destruct (last data); [apply framed_ret|].
    apply framed_bind; [apply framed_print|]. intros _. apply framed_ret.
  - apply framed_bind; [apply framed_print|]. intros _. apply framed_ret.
Qed.

(** Discovery always returns, and only lists: it downloads no log and
    touches no checkpoint. *)
Lemma get_instance_ids_spec E app w :
  ∃ evs, get_instance_ids E app w = (Ret (discovered E app), add_events w evs)
         ∧ (evs = [HttpDeployments app]
            ∨ evs = [HttpDeployments app; Print (MsgDiscoveryError app)]).
Proof.
  unfold discovered, get_instance_ids.
  destruct (deployments E app) as [data|e]; [destruct (last data)|].
  - exists [HttpDeployments app]. split; [reflexivity|by left].
  - exists [HttpDeployments app; Print (MsgDiscoveryError app)].
    split; [|by right].
    unfold bind, print, emit, ret, add_events. cbn. by rewrite <- app_assoc.
  - exists [HttpDeployments app; Print (MsgDiscoveryError app)].
    split; [|by right].
    unfold bind, print, emit, ret, add_events. cbn. by rewrite <- app_assoc.
Qed.

Lemma get_instance_ids_returns E app w :
  fst (get_instance_ids E app w) = Ret (discovered E app).
Proof. by destruct (get_instance_ids_spec E app w) as (evs & -> & _). Qed.

Lemma get_instance_ids_quiet E app w :
  last_check (snd (get_instance_ids E app w)) = last_check w
  ∧ List.filter is_stream_or_checkpoint (trace (snd (get_instance_ids E app w)))
    = List.filter is_stream_or_checkpoint (trace w)
  ∧ downloads (trace (snd (get_instance_ids E app w))) = downloads (trace w).
Proof.
  destruct (get_instance_ids_spec E app w) as (evs & -> & Hevs).
  cbn [snd add_events last_check trace]. split; [done|].
  unfold downloads. rewrite List.filter_app, omap_app.
  destruct Hevs as [-> | ->]; cbn; by rewrite !app_nil_r.
Qed.

(** What [check_files] does with the result of one pattern. *)
Lemma check_patterns_step self E token total index pattern rest found w :
  check_patterns self E token total index (pattern :: rest) found w
  = match analyze_file self E token pattern
            (snd (print (MsgPattern index total (app_name pattern)
                                     (length (discovered E (app_name pattern))))
                        (snd (get_instance_ids E (app_name pattern) w)))) with
    | (Ret m, w') =>
        check_patterns self E token total (S index) rest
                       (if m then true else found) w'
    | (Raise e, w') => (Raise e, w')
    end.
Proof.
  cbn [check_patterns].
  rewrite (bind_returned _ _ _ _ (get_instance_ids_returns _ _ _)).
  rewrite (bind_returned _ _ tt) by done.
  unfold bind at 1. by destruct (analyze_file _ _ _ _ _) as [[m|e] w'].
Qed.



End Orchestrator.

(** ** The scanner only prints and sends mail *)

Section Quiet.

#[local] Arguments scan_lines : simpl never.

Lemma quiet_ret {A} (a : A) : quiet (ret a).
Proof. split; [apply framed_ret|constructor]. Qed.

Lemma quiet_raise {A} e : quiet (@raise A e).
Proof. split; [apply framed_raise|constructor]. Qed.

Lemma quiet_emit e : is_local e = true → quiet (emit e).
Proof. intros He. split; [apply framed_emit|]. by repeat constructor. Qed.

Lemma quiet_bind {A B} (m : M A) (k : A → M B) :
  quiet m → (∀ a, quiet (k a)) → quiet (bind m k).
Proof.
  intros [Hm Hlm] Hk. split.
  - apply framed_bind; [done|]. intros a. apply Hk.
  - destruct (framed_start m Hm) as (r & t & E0 & Hw).
    rewrite E0 in Hlm. cbn [snd trace] in Hlm.
    unfold bind. rewrite E0. destruct r as [a|e]; [|done].
    destruct (Hk a) as [Hka Hlk].
    destruct (framed_start (k a) Hka) as (r' & t' & E1 & Hw').
    rewrite E1 in Hlk. cbn [snd trace] in Hlk.
    rewrite (Hw' {| last_check := ∅; trace := t |}).
    cbn [snd add_events trace]. by apply Forall_app.
Qed.

Lemma quiet_try_except {A} (m : M A) h :
  quiet m → (∀ e, quiet (h e)) → quiet (try_except m h).
Proof.
  intros [Hm Hlm] Hh. split.
  - apply framed_try_except; [done|]. intros e. apply Hh.
  - destruct (framed_start m Hm) as (r & t & E0 & Hw).
    rewrite E0 in Hlm. cbn [snd trace] in Hlm.
    unfold try_except. rewrite E0. destruct r as [a|[e|c]]; try done.
    destruct (Hh e) as [Hhe Hlh].
    destruct (framed_start (h e) Hhe) as (r' & t' & E1 & Hw').
    rewrite E1 in Hlh. cbn [snd trace] in Hlh.
    rewrite (Hw' {| last_check := ∅; trace := t |}).
    cbn [snd add_events trace]. by apply Forall_app.
Qed.

Lemma quiet_verbose_log self m : quiet (_verbose_log self m).
Proof.
  unfold _verbose_log. destruct (verbose_logging self);
    [by apply quiet_emit|apply quiet_ret].
Qed.

Lemma quiet_send_email E rs subject body : quiet (send_email E rs subject body).
Proof.
  apply quiet_try_except; [|intros _; by apply quiet_emit].
  induction rs as [|r rs IH]; cbn [send_each]; [apply quiet_ret|].
  destruct (smtp E _).
  - apply quiet_bind; [by apply quiet_emit|]. intros _. apply quiet_raise.
  - apply quiet_bind; [by apply quiet_emit|]. intros _.
    apply quiet_bind; [by apply quiet_emit|]. by intros _.
Qed.

Lemma quiet_check_pattern self E line n d pattern inst :
  quiet (_check_pattern self E line n d pattern inst).
Proof.
  unfold _check_pattern. destruct (matches line pattern); [|apply quiet_ret].
  apply quiet_bind; [|intros _; apply quiet_ret].
  apply quiet_bind; [by apply quiet_emit|]. intros _. apply quiet_send_email.
Qed.

Lemma quiet_scan_line self E cp pattern inst n line st :
  quiet (scan_line self E cp pattern inst n line st).
Proof.
  unfold scan_line. destruct (negb _); [apply quiet_ret|].
  destruct (timestamp_step _ _ _ _) as [st1 []].
  - apply quiet_bind; [apply quiet_verbose_log|]. intros _. apply quiet_ret.
  - destruct (start_checking st1); [|apply quiet_ret].
    destruct (line_faults E _ _ _).
    + apply quiet_bind; [apply quiet_check_pattern|]. intros m. apply quiet_ret.
    + apply quiet_bind; [apply quiet_check_pattern|]. intros m. apply quiet_ret.
    + apply quiet_bind; [apply quiet_verbose_log|]. intros _. apply quiet_ret.
Qed.

Lemma quiet_scan_lines self E cp pattern inst lines :
  ∀ n st, quiet (scan_lines self E cp pattern inst n lines st).
Proof.
  induction lines as [|line rest IH]; intros n st; cbn [scan_lines];
    [apply quiet_ret|].
  apply quiet_bind; [apply quiet_scan_line|]. intros st'. apply IH.
Qed.

Lemma local_events_projections evs :
  Forall (λ e, is_local e = true) evs →
  List.filter is_save evs = [] ∧ downloads evs = []
  ∧ List.filter is_stream_or_checkpoint evs = [].
Proof.
  induction 1 as [|e evs He _ (H1 & H2 & H3)]; [done|].
  unfold downloads in *. by destruct e; cbn; rewrite ?H1, ?H2, ?H3.
Qed.

(** The loop of the scanner downloads nothing and writes no checkpoint. *)
Lemma scan_lines_quiet self E cp pattern inst n lines st w :
  last_check (snd (scan_lines self E cp pattern inst n lines st w)) = last_check w
  ∧ List.filter is_save (trace (snd (scan_lines self E cp pattern inst n lines st w)))
    = List.filter is_save (trace w)
  ∧ downloads (trace (snd (scan_lines self E cp pattern inst n lines st w)))
    = downloads (trace w).
Proof.
  destruct (quiet_scan_lines self E cp pattern inst lines n st) as [Hf Hl].
  rewrite (Hf w). cbn [snd add_events last_check trace].
  destruct (local_events_projections _ Hl) as (H1 & H2 & _).
  unfold downloads in *.
  by rewrite List.filter_app, omap_app, H1, H2, !app_nil_r.
Qed.

End Quiet.

(** ** Faults of a log download *)

Section StreamFaults.
Import PyStr.

#[local] Arguments checkpoint_file : simpl never.
#[local] Arguments scan_lines : simpl never.
#[local] Arguments lines_locals : simpl never.
#[local] Arguments timestamps : simpl never.

Lemma scan_instances_app self E pattern pre rest :
  ∀ found w,
    scan_instances self E pattern (pre ++ rest) found w
    = match scan_instances self E pattern pre found w with
      | (Ret found', w') => scan_instances self E pattern rest found' w'
      | (Raise e, w') => (Raise e, w')
      end.
Proof.
  induction pre as [|i pre IH]; intros found w; [done|].
  change ((i :: pre) ++ rest) with (i :: (pre ++ rest)). cbn [scan_instances].
  unfold bind. destruct (scan_instance self E pattern i w) as [[m|e] w']; [|done].
  apply IH.
Qed.

(** The scan of an instance whose download raises, at once or after some
    lines. *)
Lemma scan_instance_faulted self E pattern inst e w :
  (log E (app_name pattern) inst = LogError e
   ∨ ∃ lines, log E (app_name pattern) inst = LogStream lines (Some e)) →
  ∃ w', scan_instance self E pattern inst w = (Raise (Exc e), w')
        ∧ last_check w' = last_check w
        ∧ List.filter is_save (trace w') = List.filter is_save (trace w)
        ∧ downloads (trace w') = downloads (trace w) ++ [inst]
        ∧ ∀ lines,
            log E (app_name pattern) inst = LogStream lines (Some e) →
            w' = snd (scan_lines self E
                        (strip <$> last_check w
                                     !! checkpoint_file (app_name pattern) inst)
                        pattern inst 1 lines
                        (initial (strip <$> last_check w
                                   !! checkpoint_file (app_name pattern) inst))
                        (add_events w
                           [ReadCheckpoint (checkpoint_file (app_name pattern) inst);
                            HttpLog (app_name pattern) inst])).
Proof.
  intros Hlog. unfold scan_instance.
  unfold bind at 1. unfold _get_last_check_date at 1.
  unfold bind at 1. unfold emit at 1. cbn [last_check trace].
  rewrite <- app_assoc. cbn [app].
  change {| last_check := last_check w;
            trace := trace w ++ [ReadCheckpoint (checkpoint_file (app_name pattern) inst);
                                 HttpLog (app_name pattern) inst] |}
    with (add_events w [ReadCheckpoint (checkpoint_file (app_name pattern) inst);
                        HttpLog (app_name pattern) inst]).
  destruct Hlog as [Hlog|[lines Hlog]]; rewrite Hlog.
  - eexists. split; [reflexivity|]. cbn [add_events last_check trace].
    split; [done|]. unfold downloads. rewrite List.filter_app, omap_app. cbn.
    split; [by rewrite app_nil_r|]. split; [done|]. intros lines [=].
  - unfold bind at 1. rewrite process_log_stream_fault.
    eexists. split; [reflexivity|].
    destruct (scan_lines_quiet self E
                (strip <$> last_check w !! checkpoint_file (app_name pattern) inst)
                pattern inst 1 lines
                (initial (strip <$> last_check w
                           !! checkpoint_file (app_name pattern) inst))
                (add_events w [ReadCheckpoint (checkpoint_file (app_name pattern) inst);
                               HttpLog (app_name pattern) inst]))
      as (H1 & H2 & H3).
    rewrite H1, H2, H3. cbn [add_events last_check trace].
    unfold downloads. rewrite List.filter_app, omap_app. cbn.
    split; [done|]. split; [by rewrite app_nil_r|]. split; [done|].
    by intros lines' [= ->].
Qed.

(** C2, as the code has it. When the log download of one instance raises a
    request error, at once or after some lines, the scan of that instance
    stops there: the lines read before the fault have been processed and no
    checkpoint is written for the instance. The exception leaves the
    instance loop of [analyze_file]: the instances listed after the faulted
    one are not downloaded in this cycle, by the loop or by [analyze_file].
    When verbose logging is off, or the request error carries a response,
    the pattern reports no match and [check_files] goes on with the next
    pattern. *)
Theorem stream_fault_ends_the_pattern
  self E token pattern pre inst post r w found1 w1 :
  fst (get_instance_ids E (app_name pattern) w) = Ret (pre ++ inst :: post) →
  scan_instances self E pattern pre false
                 (snd (get_instance_ids E (app_name pattern) w))
    = (Ret found1, w1) →
  (log E (app_name pattern) inst = LogError (RequestException r)
   ∨ ∃ lines, log E (app_name pattern) inst
              = LogStream lines (Some (RequestException r))) →
  ∃ w2,
    scan_instance self E pattern inst w1 = (Raise (Exc (RequestException r)), w2)
    ∧ last_check w2 = last_check w1
    ∧ List.filter is_save (trace w2) = List.filter is_save (trace w1)
    ∧ downloads (trace w2) = downloads (trace w1) ++ [inst]
    ∧ (∀ lines,
         log E (app_name pattern) inst
           = LogStream lines (Some (RequestException r)) →
         w2 = snd (scan_lines self E
                     (strip <$> last_check w1
                                  !! checkpoint_file (app_name pattern) inst)
                     pattern inst 1 lines
                     (initial (strip <$> last_check w1
                                !! checkpoint_file (app_name pattern) inst))
                     (add_events w1
                        [ReadCheckpoint (checkpoint_file (app_name pattern) inst);
                         HttpLog (app_name pattern) inst])))
    ∧ scan_instances self E pattern (pre ++ inst :: post) false
                     (snd (get_instance_ids E (app_name pattern) w))
      = (Raise (Exc (RequestException r)), w2)
    ∧ last_check (snd (analyze_file self E token pattern w)) = last_check w2
    ∧ List.filter is_save (trace (snd (analyze_file self E token pattern w)))
      = List.filter is_save (trace w2)
    ∧ downloads (trace (snd (analyze_file self E token pattern w)))
      = downloads (trace w1) ++ [inst]
    ∧ (verbose_logging self = false ∨ is_Some r →
       fst (analyze_file self E token pattern w) = Ret false
       ∧ ∀ total index rest found wc,
           snd (print (MsgPattern index total (app_name pattern)
                                  (length (discovered E (app_name pattern))))
                      (snd (get_instance_ids E (app_name pattern) wc))) = w →
           check_patterns self E token total index (pattern :: rest) found wc
           = check_patterns self E token total (S index) rest found
                            (snd (analyze_file self E token pattern w))).
Proof.
  intros Hids Hpre Hlog.
  destruct (scan_instance_faulted self E pattern inst (RequestException r) w1 Hlog)
    as (w2 & Hrun & Hs & Hsv & Hdl & Hlines).
  assert (scan_instances self E pattern (pre ++ inst :: post) false
                         (snd (get_instance_ids E (app_name pattern) w))
          = (Raise (Exc (RequestException r)), w2)) as Hloop.
  { rewrite scan_instances_app, Hpre. cbn [scan_instances].
    unfold bind at 1. by rewrite Hrun. }
  assert (analyze_file self E token pattern w
          = request_error self pattern r w2) as Hana.
  { unfold analyze_file, try_except_request.
    rewrite (bind_returned _ _ _ _ Hids).
    destruct (pre ++ inst :: post) as [|i l] eqn:Hl; [by destruct pre|].
    by rewrite Hloop. }
  assert (last_check (snd (request_error self pattern r w2)) = last_check w2
          ∧ List.filter is_save (trace (snd (request_error self pattern r w2)))
            = List.filter is_save (trace w2)
          ∧ downloads (trace (snd (request_error self pattern r w2)))
            = downloads (trace w2)) as (Hs3 & Hsv3 & Hdl3).
  { unfold request_error, bind, print, emit, raise, ret.
    cbn [last_check trace].
    destruct (verbose_logging self); [destruct r|];
      cbn [snd last_check trace]; (split; [done|]);
      unfold downloads; rewrite !List.filter_app, !omap_app; cbn;
      by rewrite !app_nil_r. }
  exists w2. repeat (split; [done|]).
  rewrite Hana. split; [done|]. split; [done|]. split; [congruence|].
  intros Hverb.
  assert (fst (request_error self pattern r w2) = Ret false) as Hret.
  { unfold request_error, bind, print, emit, raise, ret. cbn [last_check trace].
    destruct (verbose_logging self) eqn:Hv; [|done].
    by destruct Hverb as [?|[status ->]]. }
  split; [done|].
  intros total index rest found wc Hwc.
  rewrite check_patterns_step, Hwc, Hana.
  by destruct (request_error self pattern r w2) as [[[]|e] w3].
Qed.

Lemma stream_fault_witness :
  ∃ w2,
    scan_instances monitor env_first_stream_breaks orders_pattern
                   ([] ++ worker :: [second_worker]) false
                   (snd (get_instance_ids env_first_stream_breaks
                           (app_name orders_pattern) nothing_done))
    = (Raise (Exc (RequestException None)), w2)
    ∧ fst (analyze_file monitor env_first_stream_breaks (py "token")
             orders_pattern nothing_done) = Ret false
    ∧ downloads (trace (snd (analyze_file monitor env_first_stream_breaks
                               (py "token") orders_pattern nothing_done)))
      = [worker].
Proof.
  destruct (stream_fault_ends_the_pattern monitor env_first_stream_breaks
              (py "token") orders_pattern [] worker [second_worker] None
              nothing_done false
              (snd (get_instance_ids env_first_stream_breaks (py "orders-api")
                      nothing_done)))
    as (w2 & _ & _ & _ & _ & _ & Hloop & _ & _ & Hdl & Hquiet).
  - reflexivity.
  - reflexivity.
  - right. by exists scenario_stream.
  - exists w2. split; [exact Hloop|]. split; [|exact Hdl].
    apply Hquiet. by left.
Defined.

(** The download of the first instance breaks after its two lines: its
    matching line has been reported, no checkpoint is written, the pattern
    returns false, and the second instance is never downloaded. *)
Lemma stream_fault_skips_remaining_instances :
  discovered env_first_stream_breaks (py "orders-api") = [worker; second_worker]
  ∧ fst (analyze_file monitor env_first_stream_breaks (py "token")
           orders_pattern nothing_done) = Ret false
  ∧ downloads (trace (snd (analyze_file monitor env_first_stream_breaks
                             (py "token") orders_pattern nothing_done)))
    = [worker]
  ∧ (second_worker ∉
       downloads (trace (snd (analyze_file monitor env_first_stream_breaks
                                (py "token") orders_pattern nothing_done))))
  ∧ matched_lines (trace (snd (analyze_file monitor env_first_stream_breaks
                                 (py "token") orders_pattern nothing_done)))
    = drop 1 scenario_stream.
Proof.
  repeat split; try (vm_compute; reflexivity).
  intros Hin. vm_compute in Hin.
  apply list_elem_of_singleton in Hin. discriminate.
Qed.

End StreamFaults.

(** ** Authentication *)

Section Authentication.

(** C1, as the code has it. A cycle whose token request does not yield a
    token checks no pattern and prints the failure: after the request the
    cycle only prints, and what it prints is the authentication error, the
    status of the answer or the error of the check; the checkpoints are
    left as they were. When the token request is answered with an error
    status, [sys.exit(1)] ends the process: [check_files] does not catch
    [SystemExit], nor does the loop of [run], nor [main], so no later
    trigger runs. When authentication fails in another way than a request
    error (the answer carries no token), the cycle ends and the loop goes on
    with the next trigger. *)
Theorem authentication_failure self E :
  (∀ w,
     (∀ token, auth E ≠ AuthToken token) →
     ∃ evs,
       trace (snd (check_files self E w)) = trace w ++ HttpAuth :: evs
       ∧ (Print MsgAuthError ∈ evs ∨ Print MsgCheckError ∈ evs)
       ∧ Forall (λ e, e = Print MsgAuthError
                      ∨ (∃ status, e = Print (MsgResponseStatus status))
                      ∨ e = Print MsgCheckError) evs
       ∧ last_check (snd (check_files self E w)) = last_check w)
  ∧ (∀ status w,
     auth E = AuthRequestError (Some status) →
     check_files self E w
     = (Raise (SystemExit 1),
        add_events w [HttpAuth; Print MsgAuthError;
                      Print (MsgResponseStatus status)])
     ∧ (∀ rest,
          main_loop self (Trigger E :: rest) w
          = (Raise (SystemExit 1),
             add_events w [HttpAuth; Print MsgAuthError;
                           Print (MsgResponseStatus status)]))
     ∧ (∀ ticks,
          main self E ticks w
          = (Exited 1,
             add_events w [Print MsgStarted; HttpAuth; Print MsgAuthError;
                           Print (MsgResponseStatus status)])))
  ∧ (∀ w,
       auth E = AuthOtherError →
       check_files self E w
       = (Ret tt, add_events w [HttpAuth; Print MsgCheckError])
       ∧ (∀ rest,
            main_loop self (Trigger E :: rest) w
            = main_loop self rest
                (add_events w [HttpAuth; Print MsgCheckError]))
       ∧ (∀ ticks,
            run self E ticks w
            = main_loop self ticks
                (add_events w [Print MsgStarted; HttpAuth; Print MsgCheckError]))).
Proof.
  split; [|split].
  - intros w Hfail. unfold check_files, try_except, get_auth_token.
    destruct (auth E) as [token|[status|]|] eqn:Hauth.
    + by destruct (Hfail token).
    + exists [Print MsgAuthError; Print (MsgResponseStatus status)].
      unfold bind, print, emit, raise. cbn [snd last_check trace].
      split; [by rewrite <- !app_assoc|]. split; [left; by left|].
      split; [|done].
      constructor; [by left|]. constructor; [right; left; by eexists|].
      constructor.
    + exists [Print MsgAuthError; Print MsgCheckError].
      unfold bind, print, emit, raise. cbn [snd last_check trace].
      split; [by rewrite <- !app_assoc|]. split; [left; by left|].
      split; [|done].
      constructor; [by left|]. constructor; [by right; right|]. constructor.
    + exists [Print MsgCheckError].
      unfold bind, print, emit, raise. cbn [snd last_check trace].
      split; [by rewrite <- !app_assoc|]. split; [right; by left|].
      split; [|done].
      constructor; [by right; right|]. constructor.
  - intros status w Hauth.
    assert (∀ w, check_files self E w
                 = (Raise (SystemExit 1),
                    add_events w [HttpAuth; Print MsgAuthError;
                                  Print (MsgResponseStatus status)])) as Hcheck.
    { intros w'. unfold check_files, try_except, get_auth_token.
      rewrite Hauth. unfold bind, print, emit, raise, add_events.
      cbn [last_check trace]. by rewrite <- !app_assoc. }
    split; [apply Hcheck|]. split.
    + intros rest. cbn [main_loop]. unfold bind, try_except.
      by rewrite Hcheck.
    + intros ticks. unfold main, try_except, run, bind, print, emit.
      rewrite Hcheck. unfold add_events. cbn [last_check trace].
      by rewrite <- !app_assoc.
  - intros w Hauth.
    assert (∀ w, check_files self E w
                 = (Ret tt, add_events w [HttpAuth; Print MsgCheckError]))
      as Hcheck.
    { intros w'. unfold check_files, try_except, get_auth_token.
      rewrite Hauth. unfold bind, print, emit, raise, add_events.
      cbn [last_check trace]. by rewrite <- !app_assoc. }
    split; [apply Hcheck|]. split.
    + intros rest. cbn [main_loop]. unfold bind, try_except.
      by rewrite Hcheck.
    + intros ticks. unfold run, bind, print, emit.
      rewrite Hcheck. unfold add_events. cbn [last_check trace].
      by rewrite <- !app_assoc.
Qed.

Lemma authentication_failure_witness :
  check_files monitor env_auth_rejected nothing_done
  = (Raise (SystemExit 1),
     add_events nothing_done [HttpAuth; Print MsgAuthError;
                              Print (MsgResponseStatus 401)])
  ∧ ∃ evs,
      trace (snd (check_files monitor env_auth_unanswered nothing_done))
      = trace nothing_done ++ HttpAuth :: evs
      ∧ (Print MsgAuthError ∈ evs ∨ Print MsgCheckError ∈ evs)
      ∧ Forall (λ e, e = Print MsgAuthError
                     ∨ (∃ status, e = Print (MsgResponseStatus status))
                     ∨ e = Print MsgCheckError) evs
      ∧ last_check (snd (check_files monitor env_auth_unanswered nothing_done))
        = last_check nothing_done.
Proof.
  split.
  - refine (proj1 (proj1 (proj2 (authentication_failure monitor
                                   env_auth_rejected))
                     401 nothing_done _)).
    reflexivity.
  - refine (proj1 (authentication_failure monitor env_auth_unanswered)
              nothing_done _).
    intros token. discriminate.
Defined.

(** The token endpoint answers 401 at the first cycle: the process exits
    with status 1 and the trigger that follows never runs. *)
Lemma authentication_failure_ends_process :
  main monitor env_auth_rejected [Trigger env_scenario] nothing_done
  = (Exited 1,
     {| last_check := ∅;
        trace := [Print MsgStarted; HttpAuth; Print MsgAuthError;
                  Print (MsgResponseStatus 401)] |})
  ∧ fst (main monitor env_auth_rejected [Trigger env_scenario] nothing_done)
    ≠ Running.
Proof. split; [reflexivity|discriminate]. Qed.

End Authentication.


(** * Further properties of the code *)

(** ** Normalisation and the matcher *)

Section Normalisation.
Import PyStr SpecWords.

#[local] Arguments is_space : simpl never.

Lemma split_from_words s :
  ∀ cur, Forall (λ c, is_space c = false) cur →
         Forall is_word (split_from cur s).
Proof.
  induction s as [|c s IH]; intros cur Hcur; cbn [split_from].
  - destruct cur; [constructor|]. constructor; [by split|constructor].
  - destruct (is_space c) eqn:Hc.
    + destruct cur as [|x cur]; [by apply IH|].
      constructor; [by split|]. by apply IH.
    + apply IH. apply Forall_app. split; [done|]. by repeat constructor.
Qed.

Lemma split_join ws : Forall is_word ws → split (join [SP] ws) = ws.
Proof.
  induction 1 as [|w ws [Hne Hw] _ IH]; [done|].
  rewrite join_cons. unfold split in *.
  rewrite split_from_word by done. rewrite app_nil_l.
  destruct ws as [|w' ws].
  - by destruct w.
  - change ([SP] ++ join [SP] (w' :: ws)) with (SP :: join [SP] (w' :: ws)).
    cbn [split_from]. change (is_space SP) with true. cbn iota.
    rewrite IH. by destruct w.
Qed.

Lemma normalized_idempotent s : normalized (normalized s) = normalized s.
Proof.
  unfold normalized. rewrite split_join; [done|]. by apply split_from_words.
Qed.

(** X1. [str.split()] returns non-empty runs free of whitespace, and
    splitting what [' '.join] made of such runs gives them back; so the
    normalisation of the matcher is idempotent. *)
Theorem split_join_round_trip :
  (∀ s, Forall is_word (split s))
  ∧ (∀ ws, Forall is_word ws → split (join [SP] ws) = ws)
  ∧ (∀ s, normalized (normalized s) = normalized s).
Proof.
  split; [|split].
  - intros s. by apply split_from_words.
  - apply split_join.
  - apply normalized_idempotent.
Qed.

Lemma split_join_round_trip_witness :
  split (join [SP] [py "Connection"; py "refused"])
  = [py "Connection"; py "refused"].
Proof.
  refine (proj1 (proj2 split_join_round_trip) [py "Connection"; py "refused"] _).
  repeat constructor; done.
Defined.

(** X2. The matcher sees a line and a search string only through their
    normalisation: normalising either beforehand changes no verdict. *)
Theorem matches_up_to_normalisation line pattern :
  matches (normalized line) pattern = matches line pattern
  ∧ matches line
      {| type := type pattern;
         search_string := normalized (search_string pattern);
         mail := mail pattern; app_name := app_name pattern |}
    = matches line pattern.
Proof.
  unfold matches. cbn [search_string].
  by rewrite !normalized_idempotent.
Qed.

Lemma split_blank s : Forall (λ c, is_space c = true) s → split s = [].
Proof.
  intros Hs. unfold split.
  rewrite <- (app_nil_r s). by rewrite split_from_blank.
Qed.

(** X3. A search string made of whitespace only (the empty one included)
    matches every line: the scanner then reports every line it reads while
    active. *)
Theorem blank_search_string_matches_everything line pattern :
  Forall (λ c, is_space c = true) (search_string pattern) →
  matches line pattern = true
  ∧ ∀ self E n d inst w,
      fst (_check_pattern self E line n d pattern inst w) = Ret true
      ∧ matched_lines
          (trace (snd (_check_pattern self E line n d pattern inst w)))
        = matched_lines (trace w) ++ [line].
Proof.
  intros Hblank.
  assert (matches line pattern = true) as Hm.
  { unfold matches, normalized. rewrite (split_blank _ Hblank). cbn [join].
    by destruct (join [SP] (split line)). }
  split; [done|]. intros.
  rewrite check_pattern_returns, check_pattern_matched_lines. by rewrite Hm.
Qed.

Lemma blank_search_string_witness :
  matches (py "anything at all")
    {| type := py "T"; search_string := py "  "; mail := []; app_name := py "a" |}
  = true.
Proof.
  refine (proj1 (blank_search_string_matches_everything _ _ _)).
  by repeat constructor.
Defined.

End Normalisation.

(** ** What [_extract_date] returns *)

Section ExtractedDates.
Import PyStr SpecWords.

#[local] Arguments is_space : simpl never.

Lemma startswith_app_l p a b : startswith p a = true → startswith p (a ++ b) = true.
Proof.
  intros H. destruct (startswith_inv _ _ H) as [t ->].
  rewrite <- app_assoc. apply startswith_app.
Qed.

Lemma before_first_prefix sep s : ∃ rest, s = before_first sep s ++ rest.
Proof.
  induction s as [|c s [rest IH]]; cbn [before_first].
  - exists []. by destruct (startswith sep []).
  - destruct (startswith sep (c :: s)); [by exists (c :: s)|].
    exists rest. cbn [app]. by rewrite <- IH.
Qed.

Lemma before_first_free sep s :
  sep ≠ [] → contains sep (before_first sep s) = false.
Proof.
  intros Hsep.
  assert (contains sep [] = false) as Hnil by (by destruct sep).
  induction s as [|c s IH]; cbn [before_first].
  - by destruct (startswith sep []).
  - destruct (startswith sep (c :: s)) eqn:Hst; [done|].
    cbn [contains]. rewrite IH, orb_false_r.
    destruct (startswith sep (c :: before_first sep s)) eqn:Hp; [|done].
    destruct (before_first_prefix sep s) as [rest Hrest].
    apply (startswith_app_l _ _ rest) in Hp.
    cbn [app] in Hp. rewrite <- Hrest in Hp. congruence.
Qed.

Lemma lstrip_suffix s : ∃ a, s = a ++ lstrip s.
Proof.
  induction s as [|c s [a IH]]; [by exists []|]. cbn [lstrip].
  destruct (is_space c); [|by exists []].
  exists (c :: a). cbn [app]. by rewrite <- IH.
Qed.

Lemma rstrip_prefix s : ∃ b, s = rstrip s ++ b.
Proof.
  induction s as [|c s [b IH]]; [by exists []|]. rewrite rstrip_cons.
  destruct (rstrip s) as [|x r] eqn:E.
  - destruct (is_space c); [by exists (c :: s)|by exists s].
  - exists b. cbn [app]. f_equal. exact IH.
Qed.

Lemma strip_substring s : substring (strip s) s.
Proof.
  unfold strip. destruct (lstrip_suffix s) as [a Ha].
  destruct (rstrip_prefix (lstrip s)) as [b Hb].
  exists a, b. by rewrite <- Hb.
Qed.

Lemma substring_trans a b c : substring a b → substring b c → substring a c.
Proof.
  intros (p1 & q1 & ->) (p2 & q2 & ->).
  exists (p2 ++ p1), (q1 ++ q2). by rewrite <- !app_assoc.
Qed.

Lemma contains_false_substring sub y x :
  contains sub x = false → substring y x → contains sub y = false.
Proof.
  intros Hx Hyx. destruct (contains sub y) eqn:Hy; [|done].
  apply contains_substring in Hy.
  assert (contains sub x = true) as H
    by (apply contains_substring; by eapply substring_trans).
  congruence.
Qed.

(** X4. A timestamp returned by [_extract_date] is never empty, carries no
    whitespace at its ends, does not contain the marker "INFO", and is a
    contiguous part of the line it was taken from. *)
Theorem extracted_date_is_trimmed_marker_free line d :
  _extract_date line = Some d →
  d ≠ [] ∧ strip d = d ∧ contains INFO d = false ∧ substring d line.
Proof.
  intros Hd. split; [|split; [|split]].
  - apply extract_date_truthy in Hd. by destruct d.
  - by eapply extract_date_stripped.
  - unfold _extract_date in Hd. destruct (Nat.leb _ _); [|done].
    injection Hd as <-.
    eapply contains_false_substring; [|apply strip_substring].
    by apply before_first_free.
  - unfold _extract_date in Hd. destruct (Nat.leb _ _); [|done].
    injection Hd as <-.
    eapply substring_trans; [apply strip_substring|].
    destruct (before_first_prefix INFO line) as [rest Hrest].
    exists [], rest. by rewrite <- Hrest.
Qed.

Lemma extracted_date_witness :
  contains INFO (py "2024-01-01T10:00:05") = false.
Proof.
  refine (proj1 (proj2 (proj2 (extracted_date_is_trimmed_marker_free
            (py "2024-01-01T10:00:05 INFO Connection refused")
            (py "2024-01-01T10:00:05") _)))).
  reflexivity.
Defined.

Lemma startswith_INFO_other c s : c ≠ 73 → startswith INFO (c :: s) = false.
Proof.
  intros Hc. change INFO with [73; 78; 70; 79]. cbn [startswith].
  by destruct (N.eqb_spec 73 c).
Qed.

Lemma before_first_without_I pre rest :
  Forall (λ c, c ≠ 73) pre → before_first INFO (pre ++ INFO ++ rest) = pre.
Proof.
  induction 1 as [|c pre Hc _ IH]; [reflexivity|].
  change ((c :: pre) ++ INFO ++ rest) with (c :: (pre ++ INFO ++ rest)).
  cbn [before_first]. rewrite startswith_INFO_other by done. by rewrite IH.
Qed.

Lemma length_lstrip s : (length (lstrip s) ≤ length s)%nat.
Proof.
  induction s as [|c s IH]; cbn [lstrip]; [done|].
  destruct (is_space c); cbn [length]; lia.
Qed.

Lemma length_rstrip s : (length (rstrip s) ≤ length s)%nat.
Proof.
  induction s as [|c s IH]; [done|]. rewrite rstrip_cons.
  destruct (rstrip s); [destruct (is_space c)|]; cbn [length] in *; lia.
Qed.

(** A string that [strip] leaves alone starts and ends without whitespace. *)
Lemma stripped_ends t :
  strip t = t → t ≠ [] →
  rstrip t = t ∧ ∃ c r, t = c :: r ∧ is_space c = false.
Proof.
  intros Hs Hne. destruct t as [|c r]; [done|].
  destruct (is_space c) eqn:Hc.
  - exfalso. unfold strip in Hs. cbn [lstrip] in Hs. rewrite Hc in Hs.
    pose proof (length_rstrip (lstrip r)). pose proof (length_lstrip r).
    rewrite Hs in H. cbn [length] in H. lia.
  - unfold strip in Hs. cbn [lstrip] in Hs. rewrite Hc in Hs.
    split; [done|]. by exists c, r.
Qed.

Lemma rstrip_blank ws : Forall (λ c, is_space c = true) ws → rstrip ws = [].
Proof.
  induction 1 as [|c ws Hc _ IH]; [done|]. by rewrite rstrip_cons, IH, Hc.
Qed.

Lemma rstrip_app_blank t ws :
  Forall (λ c, is_space c = true) ws → rstrip (t ++ ws) = rstrip t.
Proof.
  intros Hws. induction t as [|c t IH]; [by apply rstrip_blank|].
  change ((c :: t) ++ ws) with (c :: (t ++ ws)).
  by rewrite !rstrip_cons, IH.
Qed.

(** X5. A line made of a timestamp, some whitespace, the marker and
    anything after it gives the timestamp back, provided the timestamp is
    not empty, has no whitespace at its ends and contains no capital I. *)
Theorem extract_date_of_marker_line t ws rest :
  t ≠ [] → strip t = t → Forall (λ c, c ≠ 73) t →
  Forall (λ c, is_space c = true) ws →
  _extract_date (t ++ ws ++ INFO ++ rest) = Some t
  ∧ line_timestamp NoFault (t ++ ws ++ INFO ++ rest) = Some t.
Proof.
  intros Hne Hs HI Hws.
  assert (_extract_date (t ++ ws ++ INFO ++ rest) = Some t) as Hd.
  { unfold _extract_date.
    rewrite (app_assoc t ws), before_first_without_I.
    2:{ apply Forall_app. split; [done|].
        eapply Forall_impl; [exact Hws|]. intros c Hc ->. by vm_compute in Hc. }
    destruct (stripped_ends t Hs Hne) as (Hr & c & r & -> & Hc).
    assert (strip ((c :: r) ++ ws) = c :: r) as ->.
    { unfold strip. cbn [app lstrip]. rewrite Hc.
      change (c :: r ++ ws) with ((c :: r) ++ ws).
      by rewrite rstrip_app_blank. }
    unfold split. cbn [split_from]. rewrite Hc. cbn [app].
    by destruct (split_from_head r [c]) as (x & l & ->). }
  split; [done|]. unfold line_timestamp.
  rewrite (app_assoc t ws), contains_app_r, <- app_assoc, Hd.
  by destruct t.
Qed.

Lemma extract_date_of_marker_line_witness :
  _extract_date (py "2024-01-01T10:00:05" ++ py " " ++ INFO ++ py " boot")
  = Some (py "2024-01-01T10:00:05").
Proof.
  refine (proj1 (extract_date_of_marker_line (py "2024-01-01T10:00:05") (py " ")
                   (py " boot") _ _ _ _)).
  - discriminate.
  - reflexivity.
  - repeat constructor; discriminate.
  - by repeat constructor.
Defined.

End ExtractedDates.

(** ** The checkpoint files *)

Section CheckpointFiles.
Import PyStr.




End CheckpointFiles.

(** ** What a cycle does to the checkpoint directory *)

Section StoreSteps.
Context (R : relation (gmap str str)) `{!PreOrder R}.

#[local] Arguments checkpoint_file : simpl never.

Lemma store_step_framed {A} (m : M A) : framed m → store_step R m.
Proof. intros Hm w. rewrite (Hm w). cbn [snd add_events last_check]. done. Qed.

Lemma store_step_bind {A B} (m : M A) (k : A → M B) :
  store_step R m → (∀ a, store_step R (k a)) → store_step R (bind m k).
Proof.
  intros Hm Hk w. unfold bind. specialize (Hm w).
  destruct (m w) as [[a|e] w']; [|done].
  cbn [snd] in Hm. etrans; [exact Hm|]. apply Hk.
Qed.

Lemma store_step_bind_returned {A B} (m : M A) (k : A → M B) a :
  store_step R m → (∀ w, fst (m w) = Ret a) → store_step R (k a) →
  store_step R (bind m k).
Proof.
  intros Hm Hret Hk w. rewrite (bind_returned _ _ _ _ (Hret w)).
  etrans; [apply Hm|]. apply Hk.
Qed.

Lemma store_step_try_except {A} (m : M A) h :
  store_step R m → (∀ e, store_step R (h e)) → store_step R (try_except m h).
Proof.
  intros Hm Hh w. unfold try_except. specialize (Hm w).
  destruct (m w) as [[a|[e|c]] w']; try done.
  cbn [snd] in Hm. etrans; [exact Hm|]. apply Hh.
Qed.

Lemma store_step_try_except_request {A} (m : M A) h :
  store_step R m → (∀ r, store_step R (h r)) →
  store_step R (try_except_request m h).
Proof.
  intros Hm Hh w. unfold try_except_request. specialize (Hm w).
  destruct (m w) as [[a|[[r|]|c]] w']; try done.
  cbn [snd] in Hm. etrans; [exact Hm|]. apply Hh.
Qed.

Lemma store_step_scan_instance self E pattern inst :
  (∀ s d, R s (<[checkpoint_file (app_name pattern) inst := d]> s)) →
  store_step R (scan_instance self E pattern inst).
Proof.
  intros Hsave. unfold scan_instance.
  apply store_step_bind; [by intros w|]. intros cp.
  apply store_step_bind; [apply store_step_framed, framed_emit|]. intros _.
  destruct (log E (app_name pattern) inst) as [e|lines fault];
    [apply store_step_framed, framed_raise|].
  apply store_step_bind;
    [|intros m; apply store_step_bind;
      [apply store_step_framed, framed_print
      |intros _; apply store_step_framed, framed_ret]].
  unfold _process_log_stream.
  apply store_step_bind; [apply store_step_framed, framed_scan_lines|].
  intros st. destruct fault; [apply store_step_framed, framed_raise|].
  apply store_step_bind; [|intros _; apply store_step_framed, framed_ret].
  destruct (last_date st) as [d|]; [|apply store_step_framed, framed_ret].
  destruct (PyStr.truthy d); [|apply store_step_framed, framed_ret].
  intros w. apply Hsave.
Qed.

Lemma store_step_scan_instances self E pattern ids :
  (∀ i, i ∈ ids →
        ∀ s d, R s (<[checkpoint_file (app_name pattern) i := d]> s)) →
  ∀ found, store_step R (scan_instances self E pattern ids found).
Proof.
  induction ids as [|i ids IH]; intros Hsave found; cbn [scan_instances];
    [apply store_step_framed, framed_ret|].
  apply store_step_bind.
  - apply store_step_scan_instance. apply Hsave. by left.
  - intros m. apply IH. intros j Hj. apply Hsave. by right.
Qed.

Lemma store_step_get_instance_ids E app : store_step R (get_instance_ids E app).
Proof. apply store_step_framed, framed_get_instance_ids. Qed.

Lemma store_step_analyze_file self E token pattern :
  (∀ i, i ∈ discovered E (app_name pattern) →
        ∀ s d, R s (<[checkpoint_file (app_name pattern) i := d]> s)) →
  store_step R (analyze_file self E token pattern).
Proof.
  intros Hsave. unfold analyze_file.
  apply store_step_try_except_request.
  - eapply store_step_bind_returned;
      [apply store_step_get_instance_ids
      |intros w; apply get_instance_ids_returns|].
    destruct (discovered E (app_name pattern)) as [|i ids] eqn:Hd.
    + apply store_step_bind; [apply store_step_framed, framed_print|].
      intros _. apply store_step_framed, framed_ret.
    + by apply store_step_scan_instances.
  - intros r. unfold request_error.
    apply store_step_bind; [apply store_step_framed, framed_print|]. intros _.
    destruct (verbose_logging self); [|apply store_step_framed, framed_ret].
    destruct r; [|apply store_step_framed, framed_raise].
    apply store_step_bind; [apply store_step_framed, framed_print|].
    intros _. apply store_step_framed, framed_ret.
Qed.

Lemma store_step_check_patterns self E token total patterns :
  (∀ p i, p ∈ patterns → i ∈ discovered E (app_name p) →
          ∀ s d, R s (<[checkpoint_file (app_name p) i := d]> s)) →
  ∀ index found,
    store_step R (check_patterns self E token total index patterns found).
Proof.
  induction patterns as [|p ps IH]; intros Hsave index found;
    cbn [check_patterns]; [apply store_step_framed, framed_ret|].
  apply store_step_bind; [apply store_step_get_instance_ids|]. intros ids.
  apply store_step_bind; [apply store_step_framed, framed_print|]. intros _.
  apply store_step_bind.
  - apply store_step_analyze_file. intros i Hi. apply (Hsave p i); [by left|done].
  - intros m. apply IH. intros q i Hq. apply Hsave. by right.
Qed.

Lemma store_step_check_files self E :
  (∀ p i, p ∈ search_patterns self → i ∈ discovered E (app_name p) →
          ∀ s d, R s (<[checkpoint_file (app_name p) i := d]> s)) →
  store_step R (check_files self E).
Proof.
  intros Hsave. unfold check_files.
  apply store_step_try_except;
    [|intros _; apply store_step_framed, framed_print].
  apply store_step_bind.
  - unfold get_auth_token.
    apply store_step_bind; [apply store_step_framed, framed_emit|]. intros _.
    destruct (auth E) as [t|[st|]|].
    + apply store_step_framed, framed_ret.
    + apply store_step_bind; [apply store_step_framed, framed_print|]. intros _.
      apply store_step_bind; [apply store_step_framed, framed_print|]. intros _.
      apply store_step_framed, framed_raise.
    + apply store_step_bind; [apply store_step_framed, framed_print|]. intros _.
      apply store_step_framed, framed_raise.
    + apply store_step_framed, framed_raise.
  - intros token.
    apply store_step_bind; [by apply store_step_check_patterns|].
    intros found. apply store_step_framed, framed_print.
Qed.

End StoreSteps.

Section CycleAndCheckpoints.

#[local] Arguments checkpoint_file : simpl never.

#[local] Instance same_file_preorder f : PreOrder (same_file f).
Proof.
  split; [by intros s|]. intros s1 s2 s3 H12 H23. unfold same_file in *.
  congruence.
Qed.

#[local] Instance no_file_lost_preorder : PreOrder no_file_lost.
Proof.
  split; [by intros s f|]. intros s1 s2 s3 H12 H23 f Hf. by apply H23, H12.
Qed.

(** X8. A cycle never removes a checkpoint file, and the only files it can
    change are those of the instances that discovery returned for the
    configured applications. *)
Theorem cycle_touches_only_discovered_checkpoints self E w :
  (∀ f, is_Some (last_check w !! f) →
        is_Some (last_check (snd (check_files self E w)) !! f))
  ∧ (∀ f,
       (∀ p i, p ∈ search_patterns self → i ∈ discovered E (app_name p) →
               f ≠ checkpoint_file (app_name p) i) →
       last_check (snd (check_files self E w)) !! f = last_check w !! f).
Proof.
  split.
  - apply (store_step_check_files no_file_lost).
    intros p i _ _ s d f Hf.
    destruct (decide (checkpoint_file (app_name p) i = f)) as [->|Hne].
    + by rewrite lookup_insert_eq.
    + by rewrite lookup_insert_ne.
  - intros f Hf. apply (store_step_check_files (same_file f)).
    intros p i Hp Hi s d. unfold same_file.
    apply lookup_insert_ne. intros Heq. by apply (Hf p i Hp Hi).
Qed.

Lemma cycle_touches_only_discovered_witness :
  last_check (snd (check_files monitor env_scenario nothing_done))
    !! py "last_check/other.txt"
  = last_check nothing_done !! py "last_check/other.txt".
Proof.
  refine (proj2 (cycle_touches_only_discovered_checkpoints monitor env_scenario
                   nothing_done) (py "last_check/other.txt") _).
  intros p i Hp Hi.
  apply list_elem_of_singleton in Hp as ->.
  change (discovered env_scenario (app_name orders_pattern)) with [worker] in Hi.
  apply list_elem_of_singleton in Hi as ->.
  discriminate.
Defined.

End CycleAndCheckpoints.

(** ** What leaves a cycle *)

Section CycleOutcome.

#[local] Arguments scan_lines : simpl never.

Lemma never_exits_returned {A} (m : M A) :
  (∀ w, ∃ a, fst (m w) = Ret a) → never_exits m.
Proof. intros H w. by destruct (H w) as [a ->]. Qed.

Lemma never_exits_raise_exception {A} e : never_exits (@raise A (Exc e)).
Proof. by intros w. Qed.

Lemma never_exits_bind {A B} (m : M A) (k : A → M B) :
  never_exits m → (∀ a, never_exits (k a)) → never_exits (bind m k).
Proof.
  intros Hm Hk w. unfold bind. specialize (Hm w).
  destruct (m w) as [[a|e] w']; [apply Hk|done].
Qed.

Lemma never_exits_try_except_request {A} (m : M A) h :
  never_exits m → (∀ r, never_exits (h r)) →
  never_exits (try_except_request m h).
Proof.
  intros Hm Hh w. unfold try_except_request. specialize (Hm w).
  destruct (m w) as [[a|[[r|]|c]] w']; try done. apply Hh.
Qed.

Lemma never_exits_scan_instance self E pattern inst :
  never_exits (scan_instance self E pattern inst).
Proof.
  unfold scan_instance.
  apply never_exits_bind; [apply never_exits_returned; by eexists|]. intros cp.
  apply never_exits_bind; [apply never_exits_returned; by eexists|]. intros _.
  destruct (log E (app_name pattern) inst) as [e|lines fault];
    [apply never_exits_raise_exception|].
  apply never_exits_bind;
    [|intros m; apply never_exits_returned; by eexists].
  destruct fault as [e|].
  - intros w. by rewrite process_log_stream_fault.
  - intros w. by rewrite process_log_stream_normal.
Qed.

Lemma never_exits_scan_instances self E pattern ids :
  ∀ found, never_exits (scan_instances self E pattern ids found).
Proof.
  induction ids as [|i ids IH]; intros found; cbn [scan_instances];
    [apply never_exits_returned; by eexists|].
  apply never_exits_bind; [apply never_exits_scan_instance|]. intros m. apply IH.
Qed.

Lemma never_exits_analyze_file self E token pattern :
  never_exits (analyze_file self E token pattern).
Proof.
  unfold analyze_file. apply never_exits_try_except_request.
  - apply never_exits_bind.
    + apply never_exits_returned. intros w. eexists.
      apply get_instance_ids_returns.
    + intros [|i ids]; [apply never_exits_returned; by eexists|].
      apply never_exits_scan_instances.
  - intros r. unfold request_error.
    apply never_exits_bind; [apply never_exits_returned; by eexists|]. intros _.
    destruct (verbose_logging self); [|apply never_exits_returned; by eexists].
    destruct r; [apply never_exits_returned; by eexists|].
    apply never_exits_raise_exception.
Qed.

Lemma never_exits_check_patterns self E token total patterns :
  ∀ index found,
    never_exits (check_patterns self E token total index patterns found).
Proof.
  induction patterns as [|p ps IH]; intros index found; cbn [check_patterns];
    [apply never_exits_returned; by eexists|].
  apply never_exits_bind.
  { apply never_exits_returned. intros w. eexists. apply get_instance_ids_returns. }
  intros ids.
  apply never_exits_bind; [apply never_exits_returned; by eexists|]. intros _.
  apply never_exits_bind; [apply never_exits_analyze_file|]. intros m. apply IH.
Qed.

(** How a cycle ends, by the answer of the token endpoint. *)
Lemma check_files_outcome self E w :
  fst (check_files self E w)
  = match auth E with
    | AuthRequestError (Some _) => Raise (SystemExit 1)
    | _ => Ret tt
    end.
Proof.
  unfold check_files, try_except.
  destruct (auth E) as [token|[status|]|] eqn:Ha.
  - assert (fst (get_auth_token E w) = Ret token) as Hg.
    { unfold get_auth_token. by rewrite Ha. }
    rewrite (bind_returned _ _ _ _ Hg). unfold bind.
    pose proof (never_exits_check_patterns self E token
                  (length (search_patterns self)) (search_patterns self) 1 false
                  (snd (get_auth_token E w))) as Hne.
    destruct (check_patterns _ _ _ _ _ _ _ _) as [[found|[e|c]] w']; done.
  - unfold get_auth_token. by rewrite Ha.
  - unfold get_auth_token. by rewrite Ha.
  - unfold get_auth_token. by rewrite Ha.
Qed.

(** X9. No [Exception] leaves [check_files]: whatever the collaborators
    answer, a cycle returns normally, except when the token request is
    answered with an error status, where it raises [SystemExit] with
    status 1. *)
Theorem cycle_returns_unless_token_rejected self E w :
  (not_rejected E → fst (check_files self E w) = Ret tt)
  ∧ (∀ status, auth E = AuthRequestError (Some status) →
               fst (check_files self E w) = Raise (SystemExit 1))
  ∧ (∀ e, fst (check_files self E w) ≠ Raise (Exc e)).
Proof.
  rewrite check_files_outcome. split; [|split].
  - intros Hok. unfold not_rejected in Hok.
    destruct (auth E) as [t|[st|]|]; try done. by destruct (Hok st).
  - by intros status ->.
  - intros e. by destruct (auth E) as [t|[st|]|].
Qed.

Lemma cycle_returns_witness :
  fst (check_files monitor env_first_stream_breaks nothing_done) = Ret tt.
Proof.
  refine (proj1 (cycle_returns_unless_token_rejected monitor
                   env_first_stream_breaks nothing_done) _).
  intros status. discriminate.
Defined.

Lemma main_loop_outcome self ticks :
  (∀ E, Trigger E ∈ ticks → not_rejected E) →
  ∀ w, fst (main_loop self ticks w) = Ret (interrupted ticks).
Proof.
  induction ticks as [|[E|] ticks IH]; intros Hok w; cbn [main_loop interrupted existsb].
  - done.
  - unfold bind, try_except.
    pose proof (check_files_outcome self E w) as Hc.
    assert (not_rejected E) as HE by (apply Hok; by left).
    unfold not_rejected in HE.
    destruct (auth E) as [t|[st|]|] eqn:Ha; try (by destruct (HE st));
      destruct (check_files self E w) as [[[]|[e|c]] w']; cbn [fst] in Hc;
      try discriminate; apply IH; intros E' HE'; apply Hok; by right.
  - done.
Qed.

(** X10. As long as no token request is answered with an error status the
    process never exits by itself: after any sequence of triggers it is
    still running, or it has returned because the user interrupted it. *)
Theorem process_runs_until_interrupted self first ticks w :
  not_rejected first →
  (∀ E, Trigger E ∈ ticks → not_rejected E) →
  fst (main self first ticks w)
  = if interrupted ticks then Returned else Running.
Proof.
  intros Hfirst Hticks. unfold main, try_except, run.
  unfold bind at 1. unfold print, emit at 1. unfold bind at 1.
  pose proof (check_files_outcome self first
                {| last_check := last_check w;
                   trace := trace w ++ [Print MsgStarted] |}) as Hc.
  unfold not_rejected in Hfirst.
  destruct (auth first) as [t|[st|]|] eqn:Ha; try (by destruct (Hfirst st));
    destruct (check_files self first _) as [[[]|[e|c]] w'] eqn:Hrun;
    cbn [fst] in Hc; try discriminate;
    pose proof (main_loop_outcome self ticks Hticks w') as Hl;
    destruct (main_loop self ticks w') as [[b|e] w'']; cbn [fst] in Hl;
    try discriminate; injection Hl as ->; by destruct (interrupted ticks).
Qed.

Lemma process_runs_witness :
  fst (main monitor env_scenario [Trigger env_first_stream_breaks;
                                  Trigger env_errors_only] nothing_done)
  = Running.
Proof.
  refine (process_runs_until_interrupted monitor env_scenario
            [Trigger env_first_stream_breaks; Trigger env_errors_only]
            nothing_done _ _).
  - intros status. discriminate.
  - intros E HE.
    apply elem_of_cons in HE as [HE|HE];
      [injection HE as ->; intros status; discriminate|].
    apply list_elem_of_singleton in HE. injection HE as ->.
    intros status. discriminate.
Defined.

End CycleOutcome.

(** ** Which lines a scan reports *)

Section Reports.
Import PyStr SpecWords.

#[local] Arguments contains : simpl never.
#[local] Arguments _extract_date : simpl never.
#[local] Arguments matches : simpl never.
#[local] Arguments gt : simpl never.

Lemma matched_lines_of_alerts evs : matched_lines (alerts evs) = matched_lines evs.
Proof.
  induction evs as [|e evs IH]; [done|].
  unfold alerts, matched_lines in *. cbn [List.filter].
  destruct e as [[]| | | | | |]; cbn; by rewrite ?IH.
Qed.

Lemma alerts_same_matched_lines a b :
  alerts a = alerts b → matched_lines a = matched_lines b.
Proof.
  intros H. by rewrite <- (matched_lines_of_alerts a), H, matched_lines_of_alerts.
Qed.

Lemma mail_attempts_of_alerts evs : mail_attempts (alerts evs) = mail_attempts evs.
Proof.
  induction evs as [|e evs IH]; [done|].
  unfold alerts, mail_attempts in *. cbn [List.filter].
  destruct e as [[]| | | | | |]; cbn; by rewrite ?IH.
Qed.

Lemma verbose_log_matched_lines self n w :
  matched_lines (trace (snd (_verbose_log self (MsgLineError n) w)))
  = matched_lines (trace w).
Proof.
  apply alerts_same_matched_lines. by apply verbose_log_alerts.
Qed.

(** One iteration reports its line or nothing, and sets [pattern_found]
    exactly when it reports. *)
Lemma scan_line_report self E cp pattern inst n line st w :
  ∃ b : bool,
    pattern_found
      (line_locals (line_faults E (app_name pattern) inst n) cp pattern n line st)
    = pattern_found st || b
    ∧ matched_lines (trace (snd (scan_line self E cp pattern inst n line st w)))
      = matched_lines (trace w) ++ (if b then [line] else []).
Proof.
  rewrite scan_line_world. unfold line_locals.
  destruct (negb (truthy line)).
  { exists false. by rewrite orb_false_r, app_nil_r. }
  pose proof (timestamp_step_pattern_found (line_faults E (app_name pattern) inst n)
                cp line (count_line n line st)) as Hpf.
  destruct (timestamp_step _ _ _ _) as [st1 raised]. cbn [fst] in Hpf.
  change (pattern_found (count_line n line st)) with (pattern_found st) in Hpf.
  destruct raised.
  { exists false. by rewrite orb_false_r, app_nil_r, verbose_log_matched_lines. }
  destruct (start_checking st1).
  2:{ exists false. by rewrite orb_false_r, app_nil_r. }
  destruct (line_faults E _ _ _).
  - exists (matches line pattern). rewrite check_pattern_matched_lines.
    split; [|done].
    destruct (matches line pattern); cbn; [by rewrite orb_true_r|].
    by rewrite orb_false_r.
  - exists (matches line pattern). rewrite check_pattern_matched_lines.
    split; [|done].
    destruct (matches line pattern); cbn; [by rewrite orb_true_r|].
    by rewrite orb_false_r.
  - exists false. by rewrite orb_false_r, app_nil_r, verbose_log_matched_lines.
Qed.

(** X13. A scan returns true exactly when it reported at least one line,
    whatever faults occur in its lines or in the delivery of mail. *)
Theorem scan_result_is_true_iff_reported self E lines cp pattern inst w :
  ∃ reported,
    matched_lines
      (trace (snd (_process_log_stream self E lines None cp pattern inst w)))
    = matched_lines (trace w) ++ reported
    ∧ fst (_process_log_stream self E lines None cp pattern inst w)
      = Ret (match reported with [] => false | _ :: _ => true end).
Proof.
  rewrite process_log_stream_normal. cbn zeta. cbn [fst snd].
  assert (∀ ls n st w0,
            ∃ reported,
              matched_lines
                (trace (snd (scan_lines self E cp pattern inst n ls st w0)))
              = matched_lines (trace w0) ++ reported
              ∧ pattern_found
                  (lines_locals (line_faults E (app_name pattern) inst) cp
                                pattern n ls st)
                = pattern_found st
                  || match reported with [] => false | _ :: _ => true end)
    as Hloop.
  { induction ls as [|l ls IH]; intros n st w0.
    - exists []. by rewrite app_nil_r, orb_false_r.
    - cbn [scan_lines lines_locals].
      rewrite (bind_returned _ _ _ _ (scan_line_returns _ _ _ _ _ _ _ _ _)).
      destruct (scan_line_report self E cp pattern inst n l st w0)
        as (b & Hpf & Hml).
      destruct (IH (S n) (line_locals (line_faults E (app_name pattern) inst n)
                                      cp pattern n l st)
                   (snd (scan_line self E cp pattern inst n l st w0)))
        as (rep & Hml' & Hpf').
      exists ((if b then [l] else []) ++ rep). split.
      + by rewrite Hml', Hml, <- app_assoc.
      + rewrite Hpf', Hpf. destruct b; cbn; [by rewrite orb_true_r|].
        by rewrite orb_false_r. }
  destruct (Hloop lines 1%nat (initial cp) w) as (rep & Hml & Hpf).
  exists rep. split.
  - destruct (last _); [|done].
    cbn [_save_last_check_date snd trace]. rewrite matched_lines_app, Hml.
    cbn. by rewrite app_nil_r.
  - by rewrite Hpf.
Qed.

(** An active scanner without line faults: what one iteration does. *)
Lemma scan_line_active self E cp pattern inst n line st w :
  start_checking st = true →
  line_faults E (app_name pattern) inst n = NoFault →
  start_checking (line_locals NoFault cp pattern n line st) = true
  ∧ matched_lines (trace (snd (scan_line self E cp pattern inst n line st w)))
    = matched_lines (trace w)
      ++ List.filter (λ l, truthy l && matches l pattern) [line]
  ∧ ((∀ msg, smtp E msg = None) →
     mail_attempts (trace (snd (scan_line self E cp pattern inst n line st w)))
     = mail_attempts (trace w)
       ++ (List.filter (λ l, truthy l && matches l pattern) [line]
           ≫= λ _, (λ r, (r, true)) <$> mail pattern)).
Proof.
  intros Hs Hf. split; [by rewrite line_locals_start_checking, Hs|].
  cbn [List.filter]. destruct (truthy line) eqn:Hl; cbn [andb].
  - split.
    + rewrite scan_line_active_matched_lines by done.
      by destruct (matches line pattern).
    + intros Hsmtp. rewrite scan_line_world, Hl, Hf. cbn [negb].
      destruct (timestamp_step_active NoFault cp line (count_line n line st))
        as (st1 & -> & ->); [done|done|].
      unfold _check_pattern. destruct (matches line pattern).
      * rewrite (bind_returned _ _ tt) by apply handle_pattern_match_returns.
        cbn [ret snd]. unfold _handle_pattern_match.
        rewrite (bind_returned _ _ tt) by done.
        unfold send_email, try_except.
        destruct (send_each_all_delivered E (alert_subject pattern)
                    (alert_body self pattern line (last_date st1) inst)
                    (mail pattern)
                    (snd (print (MsgMatchFound (type pattern) line) w)))
          as (w' & -> & _ & Ht); [intros; apply Hsmtp|].
        cbn [snd]. rewrite Ht. unfold print, emit. cbn [snd trace].
        rewrite mail_attempts_app. cbn. by rewrite !app_nil_r.
      * cbn. by rewrite app_nil_r.
  - unfold scan_line. rewrite Hl. cbn. by rewrite !app_nil_r.
Qed.

Lemma scan_lines_active self E cp pattern inst lines :
  (∀ k, line_faults E (app_name pattern) inst k = NoFault) →
  ∀ n st w,
    start_checking st = true →
    matched_lines (trace (snd (scan_lines self E cp pattern inst n lines st w)))
    = matched_lines (trace w)
      ++ List.filter (λ l, truthy l && matches l pattern) lines
    ∧ ((∀ msg, smtp E msg = None) →
       mail_attempts (trace (snd (scan_lines self E cp pattern inst n lines st w)))
       = mail_attempts (trace w)
         ++ (List.filter (λ l, truthy l && matches l pattern) lines
             ≫= λ _, (λ r, (r, true)) <$> mail pattern)).
Proof.
  intros Hf. induction lines as [|l ls IH]; intros n st w Hs.
  - cbn. by rewrite !app_nil_r.
  - cbn [scan_lines].
    rewrite (bind_returned _ _ _ _ (scan_line_returns _ _ _ _ _ _ _ _ _)).
    rewrite Hf.
    destruct (scan_line_active self E cp pattern inst n l st w Hs (Hf n))
      as (Hs' & Hml & Hma).
    destruct (IH (S n) (line_locals NoFault cp pattern n l st)
                 (snd (scan_line self E cp pattern inst n l st w)) Hs')
      as (Hml' & Hma').
    change (l :: ls) with ([l] ++ ls). rewrite List.filter_app. split.
    + by rewrite Hml', Hml, <- app_assoc.
    + intros Hsmtp. rewrite (Hma' Hsmtp), (Hma Hsmtp), <- app_assoc.
      by rewrite bind_app.
Qed.

(** X11. Without a checkpoint, and when no line faults, a scan reports
    every non-empty line that matches, once and in stream order. *)
Theorem scan_without_checkpoint_reports_all self E lines pattern inst w :
  (∀ k, line_faults E (app_name pattern) inst k = NoFault) →
  matched_lines
    (trace (snd (_process_log_stream self E lines None None pattern inst w)))
  = matched_lines (trace w)
    ++ List.filter (λ l, truthy l && matches l pattern) lines.
Proof.
  intros Hf. rewrite process_log_stream_normal. cbn zeta. cbn [snd].
  destruct (scan_lines_active self E None pattern inst lines Hf 1%nat
              (initial None) w eq_refl) as [Hml _].
  destruct (last _); [|done].
  cbn [_save_last_check_date snd trace]. rewrite matched_lines_app, Hml.
  cbn. by rewrite app_nil_r.
Qed.

Lemma scan_without_checkpoint_witness :
  matched_lines
    (trace (snd (_process_log_stream monitor env_scenario scenario_stream None
                   None orders_pattern worker nothing_done)))
  = drop 1 scenario_stream.
Proof.
  refine (scan_without_checkpoint_reports_all monitor env_scenario
            scenario_stream orders_pattern worker nothing_done _).
  intros k. reflexivity.
Defined.

(** X14. Alerts are not batched: when no line faults and every mail is
    accepted, a scan without checkpoint sends, for each reported line, one
    mail to each recipient of the pattern, in the order of the recipients. *)
Theorem one_mail_per_match_and_recipient self E lines pattern inst w :
  (∀ k, line_faults E (app_name pattern) inst k = NoFault) →
  (∀ msg, smtp E msg = None) →
  mail_attempts
    (trace (snd (_process_log_stream self E lines None None pattern inst w)))
  = mail_attempts (trace w)
    ++ (List.filter (λ l, truthy l && matches l pattern) lines
        ≫= λ _, (λ r, (r, true)) <$> mail pattern).
Proof.
  intros Hf Hsmtp. rewrite process_log_stream_normal. cbn zeta. cbn [snd].
  destruct (scan_lines_active self E None pattern inst lines Hf 1%nat
              (initial None) w eq_refl) as [_ Hma].
  destruct (last _); [|by apply Hma].
  cbn [_save_last_check_date snd trace]. rewrite mail_attempts_app, (Hma Hsmtp).
  cbn. by rewrite app_nil_r.
Qed.

Lemma one_mail_per_match_witness :
  mail_attempts
    (trace (snd (_process_log_stream monitor env_scenario scenario_stream None
                   None orders_pattern worker nothing_done)))
  = [(py "a@x.com", true)].
Proof.
  refine (one_mail_per_match_and_recipient monitor env_scenario
            scenario_stream orders_pattern worker nothing_done _ _).
  - intros k. reflexivity.
  - intros msg. reflexivity.
Defined.

End Reports.

(** ** Reports of a scan that starts from a checkpoint *)

Section GatedReports.
Import PyStr SpecWords.

#[local] Arguments contains : simpl never.
#[local] Arguments _extract_date : simpl never.
#[local] Arguments matches : simpl never.
#[local] Arguments gt : simpl never.

(** The line that opens the gate is matched in the same iteration. *)
Lemma scan_line_opening self E c pattern inst n line d st w :
  start_checking st = false →
  line_faults E (app_name pattern) inst n = NoFault →
  line_timestamp NoFault line = Some d → lt c d = true →
  start_checking (line_locals NoFault (Some c) pattern n line st) = true
  ∧ matched_lines
      (trace (snd (scan_line self E (Some c) pattern inst n line st w)))
    = matched_lines (trace w)
      ++ List.filter (λ l, truthy l && matches l pattern) [line].
Proof.
  intros Hs Hf Hd Hlt. split.
  { rewrite line_locals_start_checking, Hd. unfold gt. rewrite Hlt.
    apply orb_true_r. }
  unfold line_timestamp in Hd.
  destruct (truthy line) eqn:Hl; [|done]. cbn [andb] in Hd.
  destruct (contains INFO line) eqn:Hm; [|done].
  rewrite scan_line_world, Hl, Hf. cbn [negb].
  rewrite (timestamp_step_date _ _ _ _ d) by done.
  change (start_checking (count_line n line st)) with (start_checking st).
  rewrite Hs. unfold gt. rewrite Hlt. cbn [set_start_checking start_checking].
  rewrite check_pattern_matched_lines. cbn [List.filter]. rewrite Hl. cbn [andb].
  by destruct (matches line pattern).
Qed.

(** X12. With a checkpoint, and when no line faults: if every timestamp
    of the first lines is at or below the checkpoint and the next line
    carries a greater one, the scan reports nothing from the first lines
    and, from that line on, every non-empty line that matches. *)
Theorem scan_reports_from_first_newer_line
  self E c pre line d post pattern inst w :
  (∀ k, line_faults E (app_name pattern) inst k = NoFault) →
  (∀ t, t ∈ timestamps (line_faults E (app_name pattern) inst) 1 pre →
        le t c = true) →
  line_timestamp NoFault line = Some d → lt c d = true →
  matched_lines
    (trace (snd (_process_log_stream self E (pre ++ line :: post) None
                   (Some c) pattern inst w)))
  = matched_lines (trace w)
    ++ List.filter (λ l, truthy l && matches l pattern) (line :: post).
Proof.
  intros Hf Hpre Hd Hlt. rewrite process_log_stream_normal. cbn zeta. cbn [snd].
  assert (matched_lines
            (trace (snd (scan_lines self E (Some c) pattern inst 1
                           (pre ++ line :: post) (initial (Some c)) w)))
          = matched_lines (trace w)
            ++ List.filter (λ l, truthy l && matches l pattern) (line :: post))
    as Hml.
  { rewrite scan_lines_app.
    rewrite (bind_returned _ _ _ _ (scan_lines_returns _ _ _ _ _ _ _ _ _)).
    destruct (scan_lines_gated self E c pattern inst pre 1 (initial (Some c)) w)
      as (Hs1 & _ & Hal); [done|done|].
    apply alerts_same_matched_lines in Hal.
    cbn [scan_lines].
    rewrite (bind_returned _ _ _ _ (scan_line_returns _ _ _ _ _ _ _ _ _)).
    rewrite (Hf (1 + length pre)%nat).
    destruct (scan_line_opening self E c pattern inst (1 + length pre) line d
                (lines_locals (line_faults E (app_name pattern) inst) (Some c)
                              pattern 1 pre (initial (Some c)))
                (snd (scan_lines self E (Some c) pattern inst 1 pre
                        (initial (Some c)) w)) Hs1 (Hf _) Hd Hlt)
      as (Hs2 & Hml2).
    destruct (scan_lines_active self E (Some c) pattern inst post Hf
                (S (1 + length pre)) _
                (snd (scan_line self E (Some c) pattern inst (1 + length pre) line
                        (lines_locals (line_faults E (app_name pattern) inst)
                                      (Some c) pattern 1 pre (initial (Some c)))
                        (snd (scan_lines self E (Some c) pattern inst 1 pre
                                (initial (Some c)) w)))) Hs2)
      as [Hml3 _].
    rewrite Hml3, Hml2, Hal, <- app_assoc.
    change (line :: post) with ([line] ++ post). by rewrite List.filter_app. }
  destruct (last _); [|done].
  cbn [_save_last_check_date snd trace]. rewrite matched_lines_app, Hml.
  cbn [matched_lines omap]. by rewrite app_nil_r.
Qed.

Lemma scan_reports_from_first_newer_line_witness :
  matched_lines
    (trace (snd (_process_log_stream monitor env_scenario
                   (take 1 scenario_stream ++
                    py "2024-01-01T10:00:05 INFO Connection    refused to db"
                    :: [])
                   None (Some (py "2024-01-01T10:00:00")) orders_pattern worker
                   nothing_done)))
  = drop 1 scenario_stream.
Proof.
  refine (scan_reports_from_first_newer_line monitor env_scenario
            (py "2024-01-01T10:00:00") (take 1 scenario_stream)
            (py "2024-01-01T10:00:05 INFO Connection    refused to db")
            (py "2024-01-01T10:00:05") [] orders_pattern worker nothing_done
            _ _ _ _).
  - intros k. reflexivity.
  - intros t Ht. vm_compute in Ht.
    apply list_elem_of_singleton in Ht as ->. reflexivity.
  - reflexivity.
  - reflexivity.
Defined.

End GatedReports.

(** ** The gate over a whole stream *)

Section GateOverStream.
Import PyStr SpecWords.

#[local] Arguments contains : simpl never.
#[local] Arguments _extract_date : simpl never.
#[local] Arguments matches : simpl never.
#[local] Arguments gt : simpl never.

(** What a scan reports and what it returns. *)
Lemma process_log_stream_reported self E lines cp pattern inst w :
  ∃ reported,
    matched_lines
      (trace (snd (_process_log_stream self E lines None cp pattern inst w)))
    = matched_lines (trace w) ++ reported
    ∧ fst (_process_log_stream self E lines None cp pattern inst w)
      = Ret (match reported with [] => false | _ :: _ => true end).
Proof.
  rewrite process_log_stream_normal. cbn zeta. cbn [fst snd].
  assert (∀ ls n st w0,
            ∃ reported,
              matched_lines
                (trace (snd (scan_lines self E cp pattern inst n ls st w0)))
              = matched_lines (trace w0) ++ reported
              ∧ pattern_found
                  (lines_locals (line_faults E (app_name pattern) inst) cp
                                pattern n ls st)
                = pattern_found st
                  || match reported with [] => false | _ :: _ => true end)
    as Hloop.
  { induction ls as [|l ls IH]; intros n st w0.
    - exists []. by rewrite app_nil_r, orb_false_r.
    - cbn [scan_lines lines_locals].
      rewrite (bind_returned _ _ _ _ (scan_line_returns _ _ _ _ _ _ _ _ _)).
      destruct (scan_line_report self E cp pattern inst n l st w0)
        as (b & Hpf & Hml).
      destruct (IH (S n) (line_locals (line_faults E (app_name pattern) inst n)
                                      cp pattern n l st)
                   (snd (scan_line self E cp pattern inst n l st w0)))
        as (rep & Hml' & Hpf').
      exists ((if b then [l] else []) ++ rep). split.
      + by rewrite Hml', Hml, <- app_assoc.
      + rewrite Hpf', Hpf. destruct b; cbn; [by rewrite orb_true_r|].
        by rewrite orb_false_r. }
  destruct (Hloop lines 1%nat (initial cp) w) as (rep & Hml & Hpf).
  exists rep. split.
  - destruct (last _); [|done].
    cbn [_save_last_check_date snd trace]. rewrite matched_lines_app, Hml.
    cbn. by rewrite app_nil_r.
  - by rewrite Hpf.
Qed.

(** Without checkpoint the whole stream is active. *)
Lemma process_log_stream_active_reports self E lines pattern inst w :
  (∀ k, line_faults E (app_name pattern) inst k = NoFault) →
  matched_lines
    (trace (snd (_process_log_stream self E lines None None pattern inst w)))
  = matched_lines (trace w)
    ++ List.filter (λ l, truthy l && matches l pattern) lines.
Proof.
  intros Hf. rewrite process_log_stream_normal. cbn zeta. cbn [snd].
  destruct (scan_lines_active self E None pattern inst lines Hf 1%nat
              (initial None) w eq_refl) as [Hml _].
  destruct (last _); [|done].
  cbn [_save_last_check_date snd trace]. rewrite matched_lines_app, Hml.
  cbn. by rewrite app_nil_r.
Qed.

(** With a checkpoint the stream is active from the first newer line. *)
Lemma process_log_stream_gated_reports
  self E c pre line d post pattern inst w :
  (∀ k, line_faults E (app_name pattern) inst k = NoFault) →
  (∀ t, t ∈ timestamps (line_faults E (app_name pattern) inst) 1 pre →
        le t c = true) →
  line_timestamp NoFault line = Some d → lt c d = true →
  matched_lines
    (trace (snd (_process_log_stream self E (pre ++ line :: post) None
                   (Some c) pattern inst w)))
  = matched_lines (trace w)
    ++ List.filter (λ l, truthy l && matches l pattern) (line :: post).
Proof.
  intros Hf Hpre Hd Hlt. rewrite process_log_stream_normal. cbn zeta. cbn [snd].
  assert (matched_lines
            (trace (snd (scan_lines self E (Some c) pattern inst 1
                           (pre ++ line :: post) (initial (Some c)) w)))
          = matched_lines (trace w)
            ++ List.filter (λ l, truthy l && matches l pattern) (line :: post))
    as Hml.
  { rewrite scan_lines_app.
    rewrite (bind_returned _ _ _ _ (scan_lines_returns _ _ _ _ _ _ _ _ _)).
    destruct (scan_lines_gated self E c pattern inst pre 1 (initial (Some c)) w)
      as (Hs1 & _ & Hal); [done|done|].
    apply alerts_same_matched_lines in Hal.
    cbn [scan_lines].
    rewrite (bind_returned _ _ _ _ (scan_line_returns _ _ _ _ _ _ _ _ _)).
    rewrite (Hf (1 + length pre)%nat).
    destruct (scan_line_opening self E c pattern inst (1 + length pre) line d
                (lines_locals (line_faults E (app_name pattern) inst) (Some c)
                              pattern 1 pre (initial (Some c)))
                (snd (scan_lines self E (Some c) pattern inst 1 pre
                        (initial (Some c)) w)) Hs1 (Hf _) Hd Hlt)
      as (Hs2 & Hml2).
    destruct (scan_lines_active self E (Some c) pattern inst post Hf
                (S (1 + length pre)) _
                (snd (scan_line self E (Some c) pattern inst (1 + length pre) line
                        (lines_locals (line_faults E (app_name pattern) inst)
                                      (Some c) pattern 1 pre (initial (Some c)))
                        (snd (scan_lines self E (Some c) pattern inst 1 pre
                                (initial (Some c)) w)))) Hs2)
      as [Hml3 _].
    rewrite Hml3, Hml2, Hal, <- app_assoc.
    change (line :: post) with ([line] ++ post). by rewrite List.filter_app. }
  destruct (last _); [|done].
  cbn [_save_last_check_date snd trace]. rewrite matched_lines_app, Hml.
  cbn [matched_lines omap]. by rewrite app_nil_r.
Qed.

(** C5. The scanner starts gated exactly when a checkpoint exists. A gated
    scanner becomes active on a line exactly when the line contains the
    marker, a timestamp is extracted from it, and that timestamp is
    strictly greater than the checkpoint in the lexicographic order of
    strings. The line that opens the gate is itself given to the matcher,
    with its own timestamp. Once active the scanner stays active; a match
    does not stop the loop: the lines after it are scanned from the locals
    the earlier ones left, and every active line is matched whether or not
    a match was already found. For the scan of a whole stream, when no line
    faults: without checkpoint every non-empty matching line of the stream
    is reported, from line 1 to the last; with a checkpoint that no
    timestamp of the stream exceeds nothing is reported and the scan
    returns false; with a checkpoint, nothing is reported before the first
    line whose timestamp exceeds it, and that line and every line after it
    is reported when it matches. The scan returns true exactly when it
    reported a line. *)
Theorem gate_opens_strictly_after_checkpoint :
  (∀ cp, start_checking (initial cp) = false ↔ is_Some cp)
  ∧ (∀ self E cp pattern inst n line st w,
       start_checking st = false →
       ∃ st', fst (scan_line self E cp pattern inst n line st w) = Ret st'
         ∧ (start_checking st' = true ↔
            ∃ d c, contains INFO line = true
                   ∧ line_faults E (app_name pattern) inst n ≠ ExtractFault
                   ∧ _extract_date line = Some d
                   ∧ cp = Some c ∧ lex_lt c d))
  ∧ (∀ self E c pattern inst n line d st w,
       start_checking st = false →
       contains INFO line = true → _extract_date line = Some d →
       lex_lt c d →
       line_faults E (app_name pattern) inst n = NoFault →
       scan_line self E (Some c) pattern inst n line st w
       = (let* m := _check_pattern self E line n (Some d) pattern inst in
          ret (if m
               then set_pattern_found
                      (set_start_checking (set_last_date d (count_line n line st)))
               else set_start_checking (set_last_date d (count_line n line st))))
           w)
  ∧ (∀ self E cp pattern inst n line st w,
       start_checking st = true →
       ∃ st', fst (scan_line self E cp pattern inst n line st w) = Ret st'
              ∧ start_checking st' = true)
  ∧ (∀ self E cp pattern inst n l1 l2 st w,
       scan_lines self E cp pattern inst n (l1 ++ l2) st w
       = (let* st' := scan_lines self E cp pattern inst n l1 st in
          scan_lines self E cp pattern inst (n + length l1) l2 st') w)
  ∧ (∀ self E cp pattern inst n line st w,
       start_checking st = true → truthy line = true →
       line_faults E (app_name pattern) inst n = NoFault →
       matches line pattern = true →
       matched_lines (trace (snd (scan_line self E cp pattern inst n line st w)))
       = matched_lines (trace w) ++ [line]
       ∧ ∃ st', fst (scan_line self E cp pattern inst n line st w) = Ret st'
                ∧ pattern_found st' = true)
  ∧ (∀ self E lines pattern inst w,
       (∀ k, line_faults E (app_name pattern) inst k = NoFault) →
       matched_lines
         (trace (snd (_process_log_stream self E lines None None pattern inst w)))
       = matched_lines (trace w)
         ++ List.filter (λ l, truthy l && matches l pattern) lines
       ∧ fst (_process_log_stream self E lines None None pattern inst w)
         = Ret (match List.filter (λ l, truthy l && matches l pattern) lines with
                | [] => false
                | _ :: _ => true
                end))
  ∧ (∀ self E lines c pattern inst w,
       (∀ t, t ∈ timestamps (line_faults E (app_name pattern) inst) 1 lines →
             le t c = true) →
       matched_lines
         (trace (snd (_process_log_stream self E lines None (Some c) pattern
                        inst w)))
       = matched_lines (trace w)
       ∧ fst (_process_log_stream self E lines None (Some c) pattern inst w)
         = Ret false)
  ∧ (∀ self E c pre line d post pattern inst w,
       (∀ k, line_faults E (app_name pattern) inst k = NoFault) →
       (∀ t, t ∈ timestamps (line_faults E (app_name pattern) inst) 1 pre →
             le t c = true) →
       line_timestamp NoFault line = Some d → lex_lt c d →
       matched_lines
         (trace (snd (_process_log_stream self E (pre ++ line :: post) None
                        (Some c) pattern inst w)))
       = matched_lines (trace w)
         ++ List.filter (λ l, truthy l && matches l pattern) (line :: post)
       ∧ fst (_process_log_stream self E (pre ++ line :: post) None (Some c)
                pattern inst w)
         = Ret (match List.filter (λ l, truthy l && matches l pattern)
                                  (line :: post) with
                | [] => false
                | _ :: _ => true
                end)).
Proof.
  split; [|split; [|split; [|split; [|split; [|split; [|split; [|split]]]]]]].
  - intros [c|]; simpl; split; try done; by intros [? ?].
  - intros self E cp pattern inst n line st w Hs.
    eexists. split; [apply scan_line_returns|].
    rewrite line_locals_start_checking, Hs. cbn [orb].
    unfold line_timestamp. split.
    + destruct (truthy line && contains INFO line) eqn:Hm; [|done].
      apply andb_true_iff in Hm as [_ Hm].
      destruct (decide (line_faults E (app_name pattern) inst n = ExtractFault))
        as [->|Hf]; [done|].
      destruct (_extract_date line) as [d|] eqn:Hd;
        [|by destruct (line_faults E _ _ _)].
      replace (match line_faults E (app_name pattern) inst n with
               | ExtractFault => None | _ => Some d end)
        with (Some d) by (by destruct (line_faults E _ _ _)).
      destruct cp as [c|]; [|done]. intros Hgt.
      exists d, c. repeat split; try done. by apply lt_lex.
    + intros (d & c & Hm & Hf & Hd & -> & Hlt).
      rewrite (contains_truthy INFO line), Hm, Hd by done. cbn [andb].
      apply lt_lex in Hlt.
      by destruct (line_faults E _ _ _).
  - intros self E c pattern inst n line d st w Hs Hm Hd Hlt Hf.
    unfold scan_line. rewrite (contains_truthy INFO line), Hf by done.
    cbn [negb].
    rewrite (timestamp_step_date _ _ _ _ d) by done.
    change (start_checking (count_line n line st)) with (start_checking st).
    rewrite Hs. apply lt_lex in Hlt. unfold gt. rewrite Hlt. done.
  - intros self E cp pattern inst n line st w Hs.
    eexists. split; [apply scan_line_returns|].
    by rewrite line_locals_start_checking, Hs.
  - intros. apply scan_lines_app.
  - intros self E cp pattern inst n line st w Hs Hl Hf Hmatch. split.
    + rewrite scan_line_active_matched_lines by done. by rewrite Hmatch.
    + eexists. split; [apply scan_line_returns|].
      unfold line_locals. rewrite Hl, Hf. cbn [negb].
      destruct (timestamp_step_active NoFault cp line (count_line n line st))
        as (st1 & -> & ->); [done|done|].
      by rewrite Hmatch.
  - intros self E lines pattern inst w Hf.
    destruct (process_log_stream_reported self E lines None pattern inst w)
      as (reported & Hml & Hret).
    pose proof (process_log_stream_active_reports self E lines pattern inst w Hf)
      as Hall.
    split; [done|]. rewrite Hall in Hml. apply app_inv_head in Hml.
    by rewrite Hret, <- Hml.
  - intros self E lines c pattern inst w Hle.
    rewrite process_log_stream_normal. cbn zeta. cbn [fst snd].
    destruct (scan_lines_gated self E c pattern inst lines 1 (initial (Some c)) w)
      as (_ & Hpf & Hal); [done|done|].
    apply alerts_same_matched_lines in Hal. split; [|by rewrite Hpf].
    destruct (last _); [|done].
    cbn [_save_last_check_date snd trace]. rewrite matched_lines_app, Hal.
    cbn [matched_lines omap]. by rewrite app_nil_r.
  - intros self E c pre line d post pattern inst w Hf Hpre Hd Hlt.
    apply lt_lex in Hlt.
    destruct (process_log_stream_reported self E (pre ++ line :: post) (Some c)
                pattern inst w) as (reported & Hml & Hret).
    pose proof (process_log_stream_gated_reports self E c pre line d post pattern
                  inst w Hf Hpre Hd Hlt) as Hall.
    split; [done|]. rewrite Hall in Hml. apply app_inv_head in Hml.
    by rewrite Hret, <- Hml.
Qed.

Lemma gate_witness :
  (∃ st',
     fst (scan_line monitor env_scenario (Some (py "2024-01-01T10:00:00"))
            orders_pattern worker 2
            (py "2024-01-01T10:00:05 INFO Connection    refused to db")
            (initial (Some (py "2024-01-01T10:00:00"))) nothing_done) = Ret st'
     ∧ start_checking st' = true)
  ∧ matched_lines
      (trace (snd (_process_log_stream monitor env_scenario
                     (take 1 scenario_stream ++
                      py "2024-01-01T10:00:05 INFO Connection    refused to db"
                      :: [])
                     None (Some (py "2024-01-01T10:00:00")) orders_pattern worker
                     nothing_done)))
    = drop 1 scenario_stream.
Proof.
  split.
  - destruct (proj1 (proj2 gate_opens_strictly_after_checkpoint)
                monitor env_scenario (Some (py "2024-01-01T10:00:00"))
                orders_pattern worker 2%nat
                (py "2024-01-01T10:00:05 INFO Connection    refused to db")
                (initial (Some (py "2024-01-01T10:00:00"))) nothing_done eq_refl)
      as (st' & Hrun & Hgate).
    exists st'. split; [exact Hrun|].
    apply Hgate.
    exists (py "2024-01-01T10:00:05"), (py "2024-01-01T10:00:00").
    repeat split; try reflexivity; try discriminate.
    apply lt_lex. reflexivity.
  - refine (proj1 ((proj2 (proj2 (proj2 (proj2 (proj2 (proj2 (proj2 (proj2
              gate_opens_strictly_after_checkpoint))))))))
              monitor env_scenario (py "2024-01-01T10:00:00")
              (take 1 scenario_stream)
              (py "2024-01-01T10:00:05 INFO Connection    refused to db")
              (py "2024-01-01T10:00:05") [] orders_pattern worker nothing_done
              _ _ _ _)).
    + intros k. reflexivity.
    + intros t Ht. vm_compute in Ht.
      apply list_elem_of_singleton in Ht as ->. reflexivity.
    + reflexivity.
    + apply lt_lex. reflexivity.
Defined.

End GateOverStream.

(** ** Discovery and the instance loop *)

Section Instances.

#[local] Arguments checkpoint_file : simpl never.
#[local] Arguments scan_lines : simpl never.
#[local] Arguments lines_locals : simpl never.
#[local] Arguments timestamps : simpl never.

(** X15. Discovery looks at the last deployment of the listing only: it
    returns the instance ids of that deployment that are present and not
    empty, in order, whatever the earlier deployments hold. *)
Theorem discovery_lists_last_deployment E app older d :
  deployments E app = Deployments (older ++ [d]) →
  discovered E app = omap instance_id_of d
  ∧ (∀ i, i ∈ discovered E app ↔ i ≠ [] ∧ Some i ∈ d)
  ∧ ∀ w, fst (get_instance_ids E app w) = Ret (omap instance_id_of d).
Proof.
  intros Hd.
  assert (discovered E app = omap instance_id_of d) as Hdisc.
  { unfold discovered, get_instance_ids, bind, emit.
    by rewrite Hd, last_snoc. }
  split; [done|]. split.
  - intros i. rewrite Hdisc, list_elem_of_omap. split.
    + intros ([x|] & Hx & Hi); [|done]. cbn in Hi.
      destruct x as [|c x]; [done|]. injection Hi as <-. by split.
    + intros [Hne Hin]. exists (Some i). split; [done|]. by destruct i.
  - intros w. by rewrite get_instance_ids_returns, Hdisc.
Qed.

Lemma discovery_lists_last_deployment_witness :
  discovered env_first_stream_breaks (py "orders-api") = [worker; second_worker].
Proof.
  refine (proj1 (discovery_lists_last_deployment env_first_stream_breaks
                   (py "orders-api") [] [Some worker; Some second_worker] _)).
  reflexivity.
Defined.

Lemma scan_instances_without_faults self E pattern ids :
  (∀ i, i ∈ ids → ∃ lines, log E (app_name pattern) i = LogStream lines None) →
  ∀ found w,
    ∃ found' w',
      scan_instances self E pattern ids found w = (Ret found', w')
      ∧ downloads (trace w') = downloads (trace w) ++ ids.
Proof.
  induction ids as [|i ids IH]; intros Hlog found w.
  - exists found, w. by rewrite app_nil_r.
  - cbn [scan_instances].
    destruct (Hlog i) as [lines Hi]; [by left|].
    unfold bind at 1.
    rewrite (scan_instance_normal self E pattern i lines w Hi). cbn zeta.
    edestruct IH as (found' & w' & -> & Hdl); [intros j Hj; apply Hlog; by right|].
    exists found', w'. split; [done|].
    rewrite Hdl. cbn [add_events trace]. unfold downloads at 1.
    rewrite omap_app. cbn [omap]. rewrite app_nil_r. fold (downloads).
    assert (∀ w1 : world,
              downloads (trace match last (timestamps (line_faults E (app_name pattern) i) 1 lines) with
                               | Some d0 => snd (_save_last_check_date (app_name pattern) i d0 w1)
                               | None => w1
                               end) = downloads (trace w1)) as Hsave.
    { intros w1. destruct (last _); [|done].
      cbn [_save_last_check_date snd trace]. unfold downloads.
      rewrite omap_app. cbn. by rewrite app_nil_r. }
    rewrite Hsave.
    destruct (scan_lines_quiet self E
                (PyStr.strip <$> last_check w !! checkpoint_file (app_name pattern) i)
                pattern i 1 lines
                (initial (PyStr.strip <$> last_check w
                            !! checkpoint_file (app_name pattern) i))
                (add_events w [ReadCheckpoint (checkpoint_file (app_name pattern) i);
                               HttpLog (app_name pattern) i]))
      as (_ & _ & ->).
    cbn [add_events trace]. unfold downloads. rewrite omap_app. cbn.
    by rewrite <- app_assoc.
Qed.

(** X16. When the log of every discovered instance is delivered to its
    end, the scan of a pattern returns normally and has downloaded the log
    of each discovered instance exactly once, in the order of the
    listing. *)
Theorem pattern_without_faults_scans_every_instance self E token pattern w :
  (∀ i, i ∈ discovered E (app_name pattern) →
        ∃ lines, log E (app_name pattern) i = LogStream lines None) →
  ∃ found,
    fst (analyze_file self E token pattern w) = Ret found
    ∧ downloads (trace (snd (analyze_file self E token pattern w)))
      = downloads (trace w) ++ discovered E (app_name pattern).
Proof.
  intros Hlog. unfold analyze_file, try_except_request.
  rewrite (bind_returned _ _ _ _ (get_instance_ids_returns _ _ _)).
  destruct (get_instance_ids_quiet E (app_name pattern) w) as (_ & _ & Hdl).
  destruct (discovered E (app_name pattern)) as [|i ids] eqn:Hd.
  - exists false. split; [done|].
    cbn [print emit bind ret snd trace]. unfold downloads in *.
    rewrite omap_app, Hdl. cbn. by rewrite !app_nil_r.
  - destruct (scan_instances_without_faults self E pattern (i :: ids) Hlog false
                (snd (get_instance_ids E (app_name pattern) w)))
      as (found & w' & -> & Hdl').
    exists found. split; [done|]. cbn [snd]. by rewrite Hdl', Hdl.
Qed.

Lemma pattern_without_faults_witness :
  ∃ found,
    fst (analyze_file monitor env_scenario (py "token") orders_pattern
           nothing_done) = Ret found
    ∧ downloads (trace (snd (analyze_file monitor env_scenario (py "token")
                               orders_pattern nothing_done)))
      = downloads (trace nothing_done)
        ++ discovered env_scenario (app_name orders_pattern).
Proof.
  refine (pattern_without_faults_scans_every_instance monitor env_scenario
            (py "token") orders_pattern nothing_done _).
  intros i Hi. by exists scenario_stream.
Defined.

End Instances.

(** ** Start-up checks and addresses *)

Section Configuration.
Import PyStr.

Lemma filter_nil_iff {A} (f : A → bool) l :
  List.filter f l = [] ↔ ∀ x, x ∈ l → f x = false.
Proof.
  induction l as [|a l IH]; cbn [List.filter].
  - split; [|done]. intros _ x Hx. by apply elem_of_nil in Hx.
  - destruct (f a) eqn:Ha; split.
    + done.
    + intros H. specialize (H a). rewrite Ha in H. discriminate H. by left.
    + intros Hl x Hx. apply elem_of_cons in Hx as [->|Hx]; [done|].
      by apply IH.
    + intros H. apply IH. intros x Hx. apply H. by right.
Qed.

(** X17. [_validate_config] lets the process start exactly when each of the
    eight required variables is set to a non-empty value; otherwise it
    exits with a message that names the variables that are unset or
    empty. *)
Theorem validate_config_requires_every_variable environ :
  (_validate_config environ = Started tt
   ↔ ∀ var, var ∈ required_vars → ∃ v, environ !! var = Some v ∧ v ≠ [])
  ∧ (∀ message,
       _validate_config environ = ExitWith message →
       ∃ missing,
         missing ≠ []
         ∧ message = py "Missing required environment variables: "
                     ++ join (py ", ") missing
         ∧ ∀ var, var ∈ missing
                  ↔ var ∈ required_vars ∧ getenv_truthy environ var = false).
Proof.
  unfold _validate_config. split.
  - destruct (List.filter _ required_vars) as [|m ms] eqn:Hf.
    + split; [|done]. intros _ var Hvar.
      apply filter_nil_iff with (x := var) in Hf; [|done].
      apply negb_false_iff in Hf. unfold getenv_truthy, getenv in Hf.
      destruct (environ !! var) as [v|]; [|done].
      exists v. split; [done|]. by destruct v.
    + split; [done|]. intros Hall. exfalso.
      assert (m ∈ List.filter (λ var, negb (getenv_truthy environ var))
                              required_vars) as Hm by (rewrite Hf; by left).
      apply list_elem_of_In, List.filter_In in Hm as [Hm Hneg].
      apply list_elem_of_In in Hm.
      destruct (Hall m Hm) as (v & Hv & Hne).
      unfold getenv_truthy, getenv in Hneg. rewrite Hv in Hneg.
      by destruct v.
  - intros message.
    destruct (List.filter _ required_vars) as [|m ms] eqn:Hf; [done|].
    intros [= <-]. exists (m :: ms). split; [done|]. split; [done|].
    intros var. rewrite <- Hf.
    rewrite list_elem_of_In, List.filter_In, <- list_elem_of_In.
    by rewrite negb_true_iff.
Qed.

Lemma validate_config_witness :
  ∃ missing,
    missing ≠ []
    ∧ py "Missing required environment variables: "
      ++ join (py ", ") required_vars
      = py "Missing required environment variables: " ++ join (py ", ") missing
    ∧ ∀ var, var ∈ missing
             ↔ var ∈ required_vars ∧ getenv_truthy ∅ var = false.
Proof.
  refine (proj2 (validate_config_requires_every_variable ∅)
            (py "Missing required environment variables: "
             ++ join (py ", ") required_vars) _).
  reflexivity.
Defined.

(** X18. The control plane of the monitor is chosen by the exact value of
    the (lower-cased) setting: each member is selected by its own value,
    and every other string, "eu" or "europe" included, selects the US
    control plane. The three control planes have different base
    addresses. *)
Theorem control_plane_selection :
  (∀ c, control_plane_of (ControlPlane_value c) = c)
  ∧ (∀ s, s ≠ py "eu1" → s ≠ py "gov" → control_plane_of s = US)
  ∧ (∀ s c, control_plane_of s = c → c ≠ US → s = ControlPlane_value c)
  ∧ (∀ c1 c2, ControlPlane_base_url c1 = ControlPlane_base_url c2 → c1 = c2).
Proof.
  split; [|split; [|split]].
  - by intros [].
  - intros s H1 H2. unfold control_plane_of.
    repeat case_bool_decide; done.
  - intros s c Hc Hne. unfold control_plane_of in Hc.
    repeat case_bool_decide; subst; done.
  - by intros [] [].
Qed.

Lemma control_plane_selection_witness : control_plane_of (py "eu") = US.
Proof.
  refine (proj1 (proj2 control_plane_selection) (py "eu") _ _); discriminate.
Defined.

(** X19. The address of a log download lies under the CloudHub address of
    the configured control plane, and for one application two instances
    have the same address only if they are the same instance. *)
Theorem log_url_identifies_instance self app :
  (∀ i, ∃ rest,
      get_log_url self app i
      = ControlPlane_base_url (control_plane (mulesoft_config self))
        ++ py "/cloudhub/api/v2" ++ rest)
  ∧ (∀ i1 i2, get_log_url self app i1 = get_log_url self app i2 → i1 = i2).
Proof.
  split.
  - intros i. unfold get_log_url, base_url. eexists.
    rewrite <- !app_assoc. reflexivity.
  - intros i1 i2 H. unfold get_log_url in H.
    repeat apply app_inv_head in H. by apply app_inv_tail in H.
Qed.

Lemma log_url_identifies_instance_witness : worker = worker.
Proof.
  refine (proj2 (log_url_identifies_instance monitor (py "orders-api"))
            worker worker eq_refl).
Defined.

End Configuration.

(** ** Interrupting the scheduler loop *)

Section Interruption.

Lemma main_loop_interrupt self before after :
  ∀ w, main_loop self (before ++ Interrupt :: after) w
       = main_loop self (before ++ [Interrupt]) w.
Proof.
  induction before as [|[E|] before IH]; intros w; [done| |done].
  cbn [app main_loop]. unfold bind.
  destruct (try_except (check_files self E) _ w) as [[[]|e] w']; [apply IH|done].
Qed.

(** X20. An interrupt ends the scheduler loop at once: the triggers that
    would follow it never run, whatever they are, and the process is left
    as the interrupt found it. *)
Theorem interrupt_stops_the_loop self first before after w :
  main_loop self (before ++ Interrupt :: after) w
  = main_loop self (before ++ [Interrupt]) w
  ∧ main self first (before ++ Interrupt :: after) w
    = main self first (before ++ [Interrupt]) w.
Proof.
  split; [apply main_loop_interrupt|].
  unfold main, try_except, run, bind.
  destruct (print MsgStarted w) as [[[]|e] w1]; [|done].
  destruct (check_files self first w1) as [[[]|e] w2]; [|done].
  by rewrite main_loop_interrupt.
Qed.

End Interruption.

(** ** After a broken download *)

Section AfterStreamFault.

#[local] Arguments scan_lines : simpl never.
#[local] Arguments matches : simpl never.

(** X21. A download that breaks leaves the checkpoints as they were, so the
    next scan of the same instance starts from the same checkpoint: the
    lines reported before the fault are reported again, in the same order,
    before anything that follows them. *)
Theorem lines_before_a_stream_fault_are_reported_again
  self E lines more e cp pattern inst w :
  fst (_process_log_stream self E lines (Some e) cp pattern inst w)
    = Raise (Exc e)
  ∧ last_check (snd (_process_log_stream self E lines (Some e) cp pattern inst w))
    = last_check w
  ∧ ∃ reported rest,
      matched_lines
        (trace (snd (_process_log_stream self E lines (Some e) cp pattern inst w)))
      = matched_lines (trace w) ++ reported
      ∧ matched_lines
          (trace (snd (_process_log_stream self E (lines ++ more) None cp
                         pattern inst
                         (snd (_process_log_stream self E lines (Some e) cp
                                 pattern inst w)))))
        = matched_lines
            (trace (snd (_process_log_stream self E lines (Some e) cp pattern
                           inst w)))
          ++ reported ++ rest.
Proof.
  rewrite process_log_stream_fault. cbn [fst snd].
  split; [done|]. split; [apply scan_lines_last_check|].
  rewrite process_log_stream_normal. cbn zeta. cbn [snd].
  destruct (framed_start _ (framed_scan_lines self E cp pattern inst lines 1
                              (initial cp))) as (r1 & t1 & _ & Hw1).
  set (w1 := snd (scan_lines self E cp pattern inst 1 lines (initial cp) w)).
  assert (w1 = add_events w t1) as Hw1' by (unfold w1; by rewrite Hw1).
  assert (matched_lines
            (trace (snd (scan_lines self E cp pattern inst 1 (lines ++ more)
                           (initial cp) w1)))
          = matched_lines (trace w1) ++ matched_lines t1
            ++ matched_lines
                 (trace (snd (scan_lines self E cp pattern inst (1 + length lines)
                                more
                                (lines_locals (line_faults E (app_name pattern) inst)
                                              cp pattern 1 lines (initial cp))
                                nothing_done)))) as Hml.
  { rewrite scan_lines_app.
    rewrite (bind_returned _ _ _ _ (scan_lines_returns _ _ _ _ _ _ _ _ _)).
    rewrite (framed_scan_lines self E cp pattern inst more _ _ _).
    cbn [snd add_events trace]. rewrite (Hw1 w1). cbn [snd add_events trace].
    by rewrite !matched_lines_app, <- app_assoc. }
  exists (matched_lines t1). eexists. split.
  - rewrite Hw1'. cbn [add_events trace]. apply matched_lines_app.
  - destruct (last _).
    + cbn [_save_last_check_date snd trace]. rewrite matched_lines_app, Hml.
      cbn [matched_lines omap]. rewrite app_nil_r. reflexivity.
    + exact Hml.
Qed.

End AfterStreamFault.

(** ** What a cycle emits *)

Section Emissions.

#[local] Arguments checkpoint_file : simpl never.
#[local] Arguments alert_subject : simpl never.
#[local] Arguments alert_body : simpl never.

Lemma emits_ret {A} P (a : A) : emits P (ret a).
Proof. intros w. exists []. by rewrite app_nil_r. Qed.

Lemma emits_raise {A} P e : emits P (@raise A e).
Proof. intros w. exists []. by rewrite app_nil_r. Qed.

Lemma emits_emit (P : event → Prop) e : P e → emits P (emit e).
Proof. intros He w. exists [e]. split; [done|]. by repeat constructor. Qed.

Lemma emits_mono {A} (P Q : event → Prop) (m : M A) :
  (∀ e, P e → Q e) → emits P m → emits Q m.
Proof.
  intros HPQ Hm w. destruct (Hm w) as (evs & Ht & Hev).
  exists evs. split; [done|]. by eapply Forall_impl.
Qed.

Lemma emits_bind {A B} P (m : M A) (k : A → M B) :
  emits P m → (∀ a, emits P (k a)) → emits P (bind m k).
Proof.
  intros Hm Hk w. unfold bind. destruct (Hm w) as (evs & Ht & Hev).
  destruct (m w) as [[a|e] w']; cbn [snd] in Ht.
  - destruct (Hk a w') as (evs' & Ht' & Hev').
    exists (evs ++ evs'). split; [by rewrite Ht', Ht, app_assoc|].
    by apply Forall_app.
  - by exists evs.
Qed.

Lemma emits_bind_returned {A B} P (m : M A) (k : A → M B) a :
  emits P m → (∀ w, fst (m w) = Ret a) → emits P (k a) → emits P (bind m k).
Proof.
  intros Hm Hret Hk w. rewrite (bind_returned _ _ _ _ (Hret w)).
  destruct (Hm w) as (evs & Ht & Hev).
  destruct (Hk (snd (m w))) as (evs' & Ht' & Hev').
  exists (evs ++ evs'). split; [by rewrite Ht', Ht, app_assoc|].
  by apply Forall_app.
Qed.

Lemma emits_try_except {A} P (m : M A) h :
  emits P m → (∀ e, emits P (h e)) → emits P (try_except m h).
Proof.
  intros Hm Hh w. unfold try_except. destruct (Hm w) as (evs & Ht & Hev).
  destruct (m w) as [[a|[e|c]] w']; cbn [snd] in Ht; try (by exists evs).
  destruct (Hh e w') as (evs' & Ht' & Hev').
  exists (evs ++ evs'). split; [by rewrite Ht', Ht, app_assoc|].
  by apply Forall_app.
Qed.

Lemma emits_try_except_request {A} P (m : M A) h :
  emits P m → (∀ r, emits P (h r)) → emits P (try_except_request m h).
Proof.
  intros Hm Hh w. unfold try_except_request.
  destruct (Hm w) as (evs & Ht & Hev).
  destruct (m w) as [[a|[[r|]|c]] w']; cbn [snd] in Ht; try (by exists evs).
  destruct (Hh r w') as (evs' & Ht' & Hev').
  exists (evs ++ evs'). split; [by rewrite Ht', Ht, app_assoc|].
  by apply Forall_app.
Qed.

Lemma emits_verbose_log (P : event → Prop) self m :
  P (Print m) → emits P (_verbose_log self m).
Proof.
  intros Hm. unfold _verbose_log.
  destruct (verbose_logging self); [by apply emits_emit|apply emits_ret].
Qed.

Lemma emits_send_each E pattern inst body rs :
  (∀ r, r ∈ rs → r ∈ mail pattern) →
  emits (instance_event pattern inst)
        (send_each E rs (alert_subject pattern) body).
Proof.
  induction rs as [|r rs IH]; intros Hrs; cbn [send_each]; [apply emits_ret|].
  assert (r ∈ mail pattern) as Hr by (apply Hrs; by left).
  destruct (smtp E _).
  - apply emits_bind; [by apply emits_emit|]. intros _. apply emits_raise.
  - apply emits_bind; [by apply emits_emit|]. intros _.
    apply emits_bind; [by apply emits_emit|]. intros _.
    apply IH. intros r' Hr'. apply Hrs. by right.
Qed.

Lemma emits_check_pattern self E line n d pattern inst :
  emits (instance_event pattern inst)
        (_check_pattern self E line n d pattern inst).
Proof.
  unfold _check_pattern. destruct (matches line pattern); [|apply emits_ret].
  apply emits_bind; [|intros _; apply emits_ret].
  unfold _handle_pattern_match.
  apply emits_bind; [by apply emits_emit|]. intros _.
  apply emits_try_except; [by apply emits_send_each|].
  intros _. by apply emits_emit.
Qed.

Lemma emits_scan_line self E cp pattern inst n line st :
  emits (instance_event pattern inst)
        (scan_line self E cp pattern inst n line st).
Proof.
  unfold scan_line. destruct (negb _); [apply emits_ret|].
  destruct (timestamp_step _ _ _ _) as [st1 []].
  - apply emits_bind; [by apply emits_verbose_log|]. intros _. apply emits_ret.
  - destruct (start_checking st1); [|apply emits_ret].
    destruct (line_faults E _ _ _).
    + apply emits_bind; [apply emits_check_pattern|]. intros m. apply emits_ret.
    + apply emits_bind; [apply emits_check_pattern|]. intros m. apply emits_ret.
    + apply emits_bind; [by apply emits_verbose_log|]. intros _. apply emits_ret.
Qed.

Lemma emits_scan_lines self E cp pattern inst lines :
  ∀ n st, emits (instance_event pattern inst)
                (scan_lines self E cp pattern inst n lines st).
Proof.
  induction lines as [|line rest IH]; intros n st; cbn [scan_lines];
    [apply emits_ret|].
  apply emits_bind; [apply emits_scan_line|]. intros st'. apply IH.
Qed.

Lemma emits_process_log_stream self E lines fault cp pattern inst :
  emits (instance_event pattern inst)
        (_process_log_stream self E lines fault cp pattern inst).
Proof.
  unfold _process_log_stream.
  eapply emits_bind_returned;
    [apply emits_scan_lines|intros w; apply scan_lines_returns|].
  destruct fault; [apply emits_raise|].
  apply emits_bind; [|intros _; apply emits_ret].
  rewrite lines_locals_last_date. cbn [initial last_date].
  pose proof (timestamps_truthy (line_faults E (app_name pattern) inst) lines 1)
    as Htr.
  pose proof (timestamps_stripped (line_faults E (app_name pattern) inst) lines 1)
    as Hst.
  destruct (last (timestamps _ _ _)) as [d|] eqn:Hl; [|apply emits_ret].
  apply last_Some_elem_of in Hl.
  rewrite Forall_forall in Htr, Hst.
  rewrite (Htr d Hl). intros w. exists [SaveCheckpoint (checkpoint_file (app_name pattern) inst) d].
  split; [done|]. constructor; [|constructor].
  cbn. split; [done|]. split; [|by apply Hst].
  specialize (Htr d Hl). by destruct d.
Qed.

Lemma emits_scan_instance self E pattern inst :
  emits (instance_event pattern inst) (scan_instance self E pattern inst).
Proof.
  unfold scan_instance.
  apply emits_bind.
  { intros w. eexists. split; [reflexivity|]. by repeat constructor. }
  intros cp. apply emits_bind; [by apply emits_emit|]. intros _.
  destruct (log E (app_name pattern) inst) as [e|lines fault];
    [apply emits_raise|].
  apply emits_bind; [apply emits_process_log_stream|]. intros m.
  apply emits_bind; [by apply emits_emit|]. intros _. apply emits_ret.
Qed.

Lemma instance_event_pattern_event E pattern inst e :
  inst ∈ discovered E (app_name pattern) →
  instance_event pattern inst e → pattern_event E pattern e.
Proof. intros Hin He. destruct e; try done; by exists inst. Qed.

Lemma emits_scan_instances self E pattern ids :
  (∀ i, i ∈ ids → i ∈ discovered E (app_name pattern)) →
  ∀ found, emits (pattern_event E pattern)
                 (scan_instances self E pattern ids found).
Proof.
  induction ids as [|i ids IH]; intros Hids found; cbn [scan_instances];
    [apply emits_ret|].
  apply emits_bind.
  - eapply emits_mono; [|apply emits_scan_instance].
    intros e. apply instance_event_pattern_event. apply Hids. by left.
  - intros m. apply IH. intros j Hj. apply Hids. by right.
Qed.

Lemma emits_get_instance_ids E pattern :
  emits (pattern_event E pattern) (get_instance_ids E (app_name pattern)).
Proof.
  intros w. destruct (get_instance_ids_spec E (app_name pattern) w)
    as (evs & -> & Hevs).
  exists evs. split; [done|].
  destruct Hevs as [-> | ->]; by repeat constructor.
Qed.

Lemma emits_analyze_file self E token pattern :
  emits (pattern_event E pattern) (analyze_file self E token pattern).
Proof.
  unfold analyze_file. apply emits_try_except_request.
  - eapply emits_bind_returned;
      [apply emits_get_instance_ids
      |intros w; apply get_instance_ids_returns|].
    destruct (discovered E (app_name pattern)) as [|i ids] eqn:Hd.
    + apply emits_bind; [by apply emits_emit|]. intros _. apply emits_ret.
    + rewrite <- Hd. by apply emits_scan_instances.
  - intros r. unfold request_error.
    apply emits_bind; [by apply emits_emit|]. intros _.
    destruct (verbose_logging self); [|apply emits_ret].
    destruct r; [|apply emits_raise].
    apply emits_bind; [by apply emits_emit|]. intros _. apply emits_ret.
Qed.

(** X22. Scanning a pattern only lists its own application, downloads logs
    and reads or writes checkpoints only for the instances discovery
    returned for it, sends mail only to the recipients of the pattern under
    the subject of the pattern, never requests a token, and writes as
    checkpoint only non-empty trimmed strings. *)
Theorem pattern_scan_stays_within_its_pattern self E token pattern w :
  ∃ evs,
    trace (snd (analyze_file self E token pattern w)) = trace w ++ evs
    ∧ Forall (pattern_event E pattern) evs
    ∧ (∀ r delivered, (r, delivered) ∈ mail_attempts evs → r ∈ mail pattern)
    ∧ (∀ i, i ∈ downloads evs → i ∈ discovered E (app_name pattern))
    ∧ HttpAuth ∉ evs.
Proof.
  destruct (emits_analyze_file self E token pattern w) as (evs & Ht & Hev).
  exists evs. split; [done|]. split; [done|].
  rewrite Forall_forall in Hev. split; [|split].
  - intros r delivered Hin. unfold mail_attempts in Hin.
    apply list_elem_of_omap in Hin as (e & He & Hf).
    specialize (Hev e He). destruct e; try done.
    injection Hf as <- <-. by destruct Hev as (i & _ & Hr & _).
  - intros i Hin. unfold downloads in Hin.
    apply list_elem_of_omap in Hin as (e & He & Hf).
    specialize (Hev e He). destruct e; try done.
    injection Hf as <-. by destruct Hev as (i & Hi & _ & ->).
  - intros Hin. by apply (Hev HttpAuth).
Qed.

Lemma pattern_event_cycle_event self E p e :
  p ∈ search_patterns self → pattern_event E p e → cycle_event self E e.
Proof. intros Hp He. destruct e; try done; by exists p. Qed.

Lemma emits_check_patterns self E token total patterns :
  (∀ p, p ∈ patterns → p ∈ search_patterns self) →
  ∀ index found,
    emits (cycle_event self E)
          (check_patterns self E token total index patterns found).
Proof.
  induction patterns as [|p ps IH]; intros Hps index found;
    cbn [check_patterns]; [apply emits_ret|].
  assert (p ∈ search_patterns self) as Hp by (apply Hps; by left).
  apply emits_bind.
  { eapply emits_mono; [|apply emits_get_instance_ids].
    intros e. by apply pattern_event_cycle_event. }
  intros ids. apply emits_bind; [by apply emits_emit|]. intros _.
  apply emits_bind.
  { eapply emits_mono; [|apply emits_analyze_file].
    intros e. by apply pattern_event_cycle_event. }
  intros m. apply IH. intros q Hq. apply Hps. by right.
Qed.

(** X23. A cycle asks for a token exactly once, before anything else. What
    follows belongs to the configured patterns: listings of their
    applications, downloads and checkpoint accesses for the instances
    discovered for them, and mail to their recipients. *)
Theorem cycle_authenticates_once_and_first self E w :
  ∃ evs,
    trace (snd (check_files self E w)) = trace w ++ HttpAuth :: evs
    ∧ Forall (cycle_event self E) evs.
Proof.
  assert (emits (cycle_event self E)
            (try_except
               (let* auth_token := (match auth E with
                                    | AuthToken token => ret token
                                    | AuthRequestError response =>
                                        print MsgAuthError ;;;
                                        match response with
                                        | Some status =>
                                            print (MsgResponseStatus status) ;;;
                                            raise (SystemExit 1)
                                        | None => raise (Exc OtherException)
                                        end
                                    | AuthOtherError => raise (Exc OtherException)
                                    end) in
                let* found_matches :=
                  check_patterns self E auth_token (length (search_patterns self))
                                 1 (search_patterns self) false in
                print (MsgCheckCompleted found_matches))
               (λ _, print MsgCheckError))) as Hrest.
  { apply emits_try_except; [|intros _; by apply emits_emit].
    apply emits_bind.
    - destruct (auth E) as [t|[st|]|].
      + apply emits_ret.
      + apply emits_bind; [by apply emits_emit|]. intros _.
        apply emits_bind; [by apply emits_emit|]. intros _. apply emits_raise.
      + apply emits_bind; [by apply emits_emit|]. intros _. apply emits_raise.
      + apply emits_raise.
    - intros token. apply emits_bind; [by apply emits_check_patterns|].
      intros found. by apply emits_emit. }
  destruct (Hrest {| last_check := last_check w; trace := trace w ++ [HttpAuth] |})
    as (evs & Ht & Hev).
  exists evs. split; [|done].
  cbn [trace] in Ht. rewrite <- app_assoc in Ht. cbn [app] in Ht.
  rewrite <- Ht. reflexivity.
Qed.

End Emissions.
